(** * Permutohedral lattice filter (simplex-gp): splat, hash table, slice

    A shallow embedding of the CUDA implementation of the permutohedral
    lattice filter.  The development follows the replay-buffer revision of
    [permutohedral_cuda_kernel.cu] ([ReplayEntry], [HashTableGPU::insert],
    [splat_kernel], [slice_kernel], [PermutohedralLatticeGPU] and the
    entry point [permutohedral_cuda_filter]), the one in which every
    (point, corner) instance brings its own slot.  The table of the
    earlier shared-counter revision ([next_free_slot], [lookup]) and the
    corner loop that uses it are embedded in the module [SharedCounter];
    that revision has no [slice].

    Conventions.
    - [uint16_t], [size_t] sizes and loop counters are [nat]; a loop
      [for (i = lo; i < lo + n; ++i)] is [for_range lo n].
    - [int16_t] cells are [Z], every store going through [wrap16].
    - [scalar_t] is read in exact arithmetic, as [Q]; equalities between
      scalars are [Qeq].  The one constant that the code computes in
      [float] whatever [scalar_t] is, the divisor [1 + powf(2, -pd)] of
      [slice_kernel], is rounded to single precision ([slice_norm]).
    - A row of a tensor and a device array are lists.  A cell whose index
      is a loop counter below the allocated width is read with [!!!] and
      written with [<[_:=_]>]; a cell whose index is computed from data is
      read and written through the checked [load] and [store], which fail
      ([None]) outside the array, where the C++ has no defined behaviour.
    - The threads of [splat_kernel] meet in the hash table.  [step] and
      [run] give the executions of a launch under a schedule of the atomic
      accesses of its (point, corner) instances; [splat] and [filter] are
      the execution in which the threads run one after the other, and
      [filter_scheduled] is [filter] under a given schedule.  The threads
      of [slice_kernel] only read the shared state and write a row each. *)

From Stdlib Require Import ZArith QArith Qround Qabs Lia Lqa.
From stdpp Require Import base list option numbers.

Open Scope Z_scope.

(** ** Machine integers *)

(** Conversion of an [int] to [int16_t] (two's complement, modular). *)
Definition wrap16 (x : Z) : Z := (x + 32768) `mod` 65536 - 32768.

Definition int16_range (x : Z) : Prop := -32768 ≤ x ≤ 32767.

(** Conversion of a [size_t] to [int]. *)
Definition wrap32 (x : Z) : Z := (x + 2147483648) `mod` 4294967296 - 2147483648.

Definition int_range (x : Z) : Prop := -2147483648 ≤ x ≤ 2147483647.

(** Conversion of an [int64_t] size to [uint16_t]. *)
Definition to_uint16 (n : nat) : nat := Z.to_nat (Z.of_nat n `mod` 65536).

(** Arithmetic of [size_t]. *)
Definition wrap64 (x : Z) : Z := x `mod` 18446744073709551616.

(** ** Loops and arrays *)

Definition for_range {St : Type} (lo n : nat) (body : nat → St → St) (s : St) : St :=
  foldl (λ s i, body i s) s (seq lo n).

(** A loop whose body can fail. *)
Definition for_rangeM {St : Type} (lo n : nat) (body : nat → St → option St)
    (s : St) : option St :=
  foldl (λ s i, s ≫= body i) (Some s) (seq lo n).

(** Checked access at an index computed in [int] arithmetic. *)
Definition load {A : Type} (l : list A) (i : Z) : option A :=
  if decide (0 ≤ i) then l !! Z.to_nat i else None.

Definition store {A : Type} (l : list A) (i : Z) (v : A) : option (list A) :=
  if decide (0 ≤ i < Z.of_nat (length l)) then Some (<[Z.to_nat i := v]> l)
  else None.

(** An index expression evaluated in [int]: signed overflow is undefined. *)
Global Instance int_range_dec x : Decision (int_range x).
Proof. unfold int_range. apply _. Defined.

Definition int_index (i : Z) : option Z :=
  if decide (int_range i) then Some i else None.

Definition sumZ (l : list Z) : Z := foldr Z.add 0 l.

(** ** [PermutohedralLatticeGPU]: the canonical simplex table *)

(** The two inner loops of the constructor, writing row [i] of the
    [(pd+1) × (pd+1)] table into a flat [int16_t] buffer. *)
Definition fill_canonical_row (pd i : nat) (c : list Z) : list Z :=
  let c1 :=
    for_range 0 (pd - i + 1)
      (λ j c, <[(i * (pd + 1) + j)%nat := wrap16 (Z.of_nat i)]> c) c in
  for_range (pd - i + 1) i
    (λ j c, <[(i * (pd + 1) + j)%nat :=
               wrap16 (Z.of_nat i - (Z.of_nat pd + 1))]> c) c1.

Definition fill_canonical (pd : nat) (buf : list Z) : list Z :=
  for_range 0 (pd + 1) (fill_canonical_row pd) buf.

(** [cudaMallocManaged(&canonical, (pd+1)*(pd+1)*sizeof(int16_t))]
    followed by the filling loops.  The fresh buffer is taken zeroed; every
    cell is overwritten ([fill_canonical_lookup] holds for any buffer). *)
Definition canonical_table (pd : nat) : list Z :=
  fill_canonical pd (replicate ((pd + 1) * (pd + 1)) 0).

(** Row [r] of a flat [(pd+1) × (pd+1)] table. *)
Definition table_row (pd r : nat) (c : list Z) : list Z :=
  take (pd + 1) (drop (r * (pd + 1)) c).

(** ** Scalars *)

Global Instance Q_inhabited : Inhabited Q := populate 0%Q.

Global Instance int16_range_dec x : Decision (int16_range x).
Proof. unfold int16_range. apply _. Defined.

(** [a < b] on scalars. *)
Definition Qltb (a b : Q) : bool := negb (Qle_bool b a).

(** C's [round]: to the nearest integer, halves away from zero. *)
Definition round_half_away (x : Q) : Z :=
  if Qle_bool 0 x then Qfloor (x + (1 # 2)) else Qceiling (x - (1 # 2)).

(** [static_cast<int16_t>] of a scalar holding the integer [v]: defined
    when [v] is representable, undefined otherwise. *)
Definition cast_int16 (v : Z) : option Z :=
  if decide (int16_range v) then Some v else None.

Definition sumQ (l : list Q) : Q := foldr Qplus 0%Q l.

(** A loop counting down: [for (i = lo + n - 1; i >= lo; i--)]. *)
Definition for_range_down {St : Type} (lo n : nat) (body : nat → St → St)
    (s : St) : St :=
  foldr body s (seq lo n).

(** ** Single precision

    [slice_kernel] computes its normalisation constant with [powf], in
    [float], whatever [scalar_t] is. *)

(** Rounding to the nearest integer, ties to the even one. *)
Definition round_half_even (x : Q) : Z :=
  let f := Qfloor x in
  let r := (x - inject_Z f)%Q in
  if Qltb r (1 # 2) then f
  else if Qltb (1 # 2) r then f + 1
  else if Z.even f then f else f + 1.

(** The [float] nearest to a scalar between [1] and [2]: 24 significant
    bits, the last one worth [2^-23]. *)
Definition float_near_one (x : Q) : Q :=
  (inject_Z (round_half_even (x * inject_Z (2 ^ 23))) / inject_Z (2 ^ 23))%Q.

(** [powf(2, -pd)]: a power of two is a [float] down to [2^-149]; below
    that the result underflows to zero. *)
Definition powf_2_neg (pd : nat) : Q :=
  if decide (pd ≤ 149)%nat then (2 ^ (- Z.of_nat pd))%Q else 0%Q.

(** [1 + powf(2, -pd)], the sum taken in [float]. *)
Definition slice_norm (pd : nat) : Q := float_near_one (1 + powf_2_neg pd).

(** ** [splat_kernel]: the lattice geometry of one point

    [pos] is the row [ref[n]] ([pd] scalars), [scaleFactor] has [pd]
    entries, and [elevated], [y], [rank], [bary], [key] are the rows
    [matE[n]], [matY[n]], [matR[n]], [matB[n]], [matK[n]] of widths
    [pd + 1], [pd + 1], [pd + 1], [pd + 2] and [pd]. *)

Definition Qnat (n : nat) : Q := inject_Z (Z.of_nat n).

(** Elevation onto the hyperplane.  The first statement reads
    [pos[pd - 1]], outside the row when [pd = 0]. *)
Definition elevate (pd : nat) (scaleFactor pos elevated : list Q)
    : option (list Q) :=
  p ← load pos (Z.of_nat pd - 1);
  s ← load scaleFactor (Z.of_nat pd - 1);
  let e1 := <[pd := (- Qnat pd * p * s)%Q]> elevated in
  let e2 :=
    for_range_down 1 (pd - 1)
      (λ i e, <[i := (e !!! (i + 1)%nat
                      - Qnat i * pos !!! (i - 1)%nat * scaleFactor !!! (i - 1)%nat
                      + Qnat (i + 2) * pos !!! i * scaleFactor !!! i)%Q]> e)
      e1 in
  Some (<[0%nat := (e2 !!! 1%nat
                    + 2 * pos !!! 0%nat * scaleFactor !!! 0%nat)%Q]> e2).

(** The rows written by the rounding loop, with the accumulator [h]. *)
Record rounded := {
  r_y : list Z;
  r_rank : list Z;
  r_bary : list Q;
  r_h : Z
}.

(** Rounding to the nearest multiple of [pd + 1] on every axis. *)
Definition round_axes (pd : nat) (elevated : list Q) (st : rounded)
    : option rounded :=
  st ← for_rangeM 0 (pd + 1)
    (λ i st,
       c ← cast_int16
             (round_half_away (elevated !!! i / inject_Z (Z.of_nat pd + 1)));
       let y := <[i := wrap16 (c * (Z.of_nat pd + 1))]> (r_y st) in
       Some {| r_y := y;
               r_h := wrap16 (r_h st + y !!! i);
               r_rank := <[i := 0]> (r_rank st);
               r_bary := <[i := 0%Q]> (r_bary st) |})
    st;
  Some {| r_y := r_y st;
          r_h := wrap16 (r_h st `quot` (Z.of_nat pd + 1));
          r_rank := r_rank st;
          r_bary := <[(pd + 1)%nat := 0%Q]> (r_bary st) |}.

(** The remainder [elevated[i] - y[i]] compared by the ranking loop. *)
Definition remainder (elevated : list Q) (y : list Z) (i : nat) : Q :=
  (elevated !!! i - inject_Z (y !!! i))%Q.

(** Pairwise ranking of the axes. *)
Definition rank_pairs (pd : nat) (elevated : list Q) (y rank : list Z)
    : list Z :=
  for_range 0 pd
    (λ i rank,
       for_range (i + 1) (pd - i)
         (λ j rank,
            if Qltb (remainder elevated y i) (remainder elevated y j)
            then <[i := wrap16 (rank !!! i + 1)]> rank
            else <[j := wrap16 (rank !!! j + 1)]> rank)
         rank)
    rank.

(** The correction bringing the point onto the canonical simplex. *)
Definition rank_correct (pd : nat) (h : Z) (yr : list Z * list Z)
    : list Z * list Z :=
  let d := Z.of_nat pd + 1 in
  if decide (h > 0) then
    for_range 0 (pd + 1)
      (λ i '(y, rank),
         if decide (rank !!! i >= d - h)
         then (<[i := wrap16 (y !!! i - d)]> y,
               <[i := wrap16 (rank !!! i + (h - d))]> rank)
         else (y, <[i := wrap16 (rank !!! i + h)]> rank))
      yr
  else if decide (h < 0) then
    for_range 0 (pd + 1)
      (λ i '(y, rank),
         if decide (rank !!! i < - h)
         then (<[i := wrap16 (y !!! i + d)]> y,
               <[i := wrap16 (rank !!! i + (h + d))]> rank)
         else (y, <[i := wrap16 (rank !!! i + h)]> rank))
      yr
  else yr.

(** Barycentric weights; the cells of [bary] are addressed by rank. *)
Definition barycentric (pd : nat) (elevated : list Q) (y rank : list Z)
    (bary : list Q) : option (list Q) :=
  b ← for_rangeM 0 (pd + 1)
    (λ i b,
       let delta := (remainder elevated y i / inject_Z (Z.of_nat pd + 1))%Q in
       let i1 := Z.of_nat pd - rank !!! i in
       v1 ← load b i1;
       b ← store b i1 (v1 + delta)%Q;
       let i2 := Z.of_nat pd + 1 - rank !!! i in
       v2 ← load b i2;
       store b i2 (v2 - delta)%Q)
    bary;
  Some (<[0%nat := (b !!! 0%nat + (1 + b !!! (pd + 1)%nat))%Q]> b).

(** The lattice key of corner [r]: [pd] coordinates. *)
Definition corner_key (pd : nat) (canonical y rank : list Z) (r : nat)
    (key : list Z) : option (list Z) :=
  for_rangeM 0 pd
    (λ i key,
       ix ← int_index (Z.of_nat r * (Z.of_nat pd + 1) + rank !!! i);
       c ← load canonical ix;
       Some (<[i := wrap16 (y !!! i + c)]> key))
    key.

(** What the geometry leaves in the rows of one point. *)
Record simplex := {
  s_elevated : list Q;
  s_y : list Z;
  s_rank : list Z;
  s_bary : list Q
}.

(** The rows start as allocated by [splat] ([torch::zeros]). *)
Definition rounded_init (pd : nat) : rounded :=
  {| r_y := replicate (pd + 1) 0;
     r_rank := replicate (pd + 1) 0;
     r_bary := replicate (pd + 2) 0%Q;
     r_h := 0 |}.

(** The ranks after the pairwise loop, before the correction. *)
Definition ranked (pd : nat) (scaleFactor pos : list Q) : option (list Z) :=
  e ← elevate pd scaleFactor pos (replicate (pd + 1) 0%Q);
  st ← round_axes pd e (rounded_init pd);
  Some (rank_pairs pd e (r_y st) (r_rank st)).

Definition splat_geometry (pd : nat) (scaleFactor pos : list Q)
    : option simplex :=
  e ← elevate pd scaleFactor pos (replicate (pd + 1) 0%Q);
  st ← round_axes pd e (rounded_init pd);
  let rank := rank_pairs pd e (r_y st) (r_rank st) in
  let '(y, rank) := rank_correct pd (r_h st) (r_y st, rank) in
  b ← barycentric pd e y rank (r_bary st);
  Some {| s_elevated := e; s_y := y; s_rank := rank; s_bary := b |}.

(** ** [HashTableGPU]

    [keys] holds [capacity * pd] cells, [values] [capacity * vd] cells and
    [entry2nid] one [int] per bucket: [-1] for an empty bucket, [-2] for a
    bucket being claimed, otherwise the slot that owns the bucket. *)

Record HashTableGPU := {
  t_pd : nat;
  t_vd : nat;
  t_N : nat;
  capacity : nat;
  keys : list Z;
  values : list Q;
  entry2nid : list Z
}.

Definition set_keys (t : HashTableGPU) (ks : list Z) : HashTableGPU :=
  {| t_pd := t_pd t; t_vd := t_vd t; t_N := t_N t; capacity := capacity t;
     keys := ks; values := values t; entry2nid := entry2nid t |}.

Definition set_values (t : HashTableGPU) (vs : list Q) : HashTableGPU :=
  {| t_pd := t_pd t; t_vd := t_vd t; t_N := t_N t; capacity := capacity t;
     keys := keys t; values := vs; entry2nid := entry2nid t |}.

Definition set_entry2nid (t : HashTableGPU) (es : list Z) : HashTableGPU :=
  {| t_pd := t_pd t; t_vd := t_vd t; t_N := t_N t; capacity := capacity t;
     keys := keys t; values := values t; entry2nid := es |}.

(** The constructor.  [keys] is left as allocated (taken zeroed), [values]
    is zeroed and every bucket is marked empty. *)
Definition HashTableGPU_new (pd vd N : nat) : HashTableGPU :=
  let capacity := (N * (pd + 1))%nat in
  {| t_pd := pd; t_vd := vd; t_N := N; capacity := capacity;
     keys := replicate (capacity * pd) 0;
     values := replicate (capacity * vd) 0%Q;
     entry2nid := replicate capacity (-1) |}.

(** [hash]: a multiplicative hash in [size_t] arithmetic. *)
Definition hash (pd : nat) (key : list Z) : Z :=
  for_range 0 pd (λ i k, wrap64 (wrap64 (k + key !!! i) * 2531011)) 0.

(** [lookupValue]: the index in [values] of the slot owning bucket [h]. *)
Definition lookupValue (t : HashTableGPU) (h : nat) : option Z :=
  e ← entry2nid t !! h;
  int_index (e * Z.of_nat (t_vd t)).

(** The comparison loop of [insert]: [keys[cas * pd + i] == key[i]] for
    [i < pd], stopping at the first difference. *)
Definition key_match (t : HashTableGPU) (cas : Z) (key : list Z)
    : option bool :=
  for_rangeM 0 (t_pd t)
    (λ i m,
       if (m : bool) then
         ix ← int_index (cas * Z.of_nat (t_pd t) + Z.of_nat i);
         k ← load (keys t) ix;
         Some (bool_decide (k = key !!! i))
       else Some false)
    true.

(** The copy loop of [insert]: [keys[nid * pd + i] = key[i]]. *)
Definition write_key (t : HashTableGPU) (nid : Z) (key : list Z)
    : option HashTableGPU :=
  for_rangeM 0 (t_pd t)
    (λ i t,
       ix ← int_index (nid * Z.of_nat (t_pd t) + Z.of_nat i);
       ks ← store (keys t) ix (key !!! i);
       Some (set_keys t ks))
    t.

(** Linear probing: [++h; if (h == capacity) h = 0]. *)
Definition next_bucket (t : HashTableGPU) (h : nat) : nat :=
  if decide (h + 1 = capacity t)%nat then 0%nat else (h + 1)%nat.

(** One round of the [while (true)] loop of [insert], run without
    interference: the thread either returns a bucket or moves on. *)
Inductive probe_result :=
  | Returns (h : nat) (t : HashTableGPU)
  | Advances (h : nat).

Definition probe (t : HashTableGPU) (key : list Z) (nid : Z) (h : nat)
    : option probe_result :=
  cas ← entry2nid t !! h;
  if decide (cas = -2) then Some (Advances (next_bucket t h))
  else if decide (cas = -1) then
    (* atomicCAS stored -2; copy the key, publish the slot *)
    let t1 := set_entry2nid t (<[h := -2]> (entry2nid t)) in
    t2 ← write_key t1 nid key;
    Some (Returns h (set_entry2nid t2 (<[h := nid]> (entry2nid t2))))
  else
    m ← key_match t cas key;
    if (m : bool) then Some (Returns h t)
    else Some (Advances (next_bucket t h)).

(** The loop of [insert], for at most [fuel] rounds. *)
Fixpoint insert_loop (fuel : nat) (t : HashTableGPU) (key : list Z)
    (nid : Z) (h : nat) : option (nat * HashTableGPU) :=
  match fuel with
  | O => None
  | S fuel' =>
      r ← probe t key nid h;
      match r with
      | Returns h t' => Some (h, t')
      | Advances h' => insert_loop fuel' t key nid h'
      end
  end.

(** [insert], run without interference.  A round that moves on leaves the
    table as it is, so after [capacity] such rounds the loop is back at
    its first bucket and never returns ([insert_loop_stuck]): [capacity]
    rounds decide the call.  [None] stands for a call that has no defined
    result ([capacity = 0], an access outside an array) or never returns. *)
Definition insert (t : HashTableGPU) (key : list Z) (nid : Z)
    : option (nat * HashTableGPU) :=
  if decide (capacity t = 0%nat) then None
  else
    insert_loop (capacity t) t key nid
      (Z.to_nat (hash (t_pd t) key `mod` Z.of_nat (capacity t))).

(** ** [splat_kernel] and [slice_kernel] *)

Record ReplayEntry := {
  entry : nat;
  weight : Q
}.

Global Instance ReplayEntry_inhabited : Inhabited ReplayEntry :=
  populate {| entry := 0; weight := 0%Q |}.

(** The device state shared by the two kernels. *)
Record device := {
  table : HashTableGPU;
  replay : list ReplayEntry
}.

(** The same state with every scalar written in lowest terms: exact
    arithmetic leaves the fractions as the operations build them. *)
Definition lowest_terms (d : device) : device :=
  {| table := {| t_pd := t_pd (table d); t_vd := t_vd (table d);
                 t_N := t_N (table d); capacity := capacity (table d);
                 keys := keys (table d);
                 values := Qred <$> values (table d);
                 entry2nid := entry2nid (table d) |};
     replay := (λ e, {| entry := entry e; weight := Qred (weight e) |})
                 <$> replay d |}.

(** [gpuAtomicAdd(&val[i], w * value[i])] for the [vd] channels of the
    slot at [base]. *)
Definition accumulate (t : HashTableGPU) (base : Z) (w : Q) (value : list Q)
    : option HashTableGPU :=
  for_rangeM 0 (t_vd t)
    (λ i t,
       v ← load (values t) (base + Z.of_nat i);
       vs ← store (values t) (base + Z.of_nat i) (v + w * value !!! i)%Q;
       Some (set_values t vs))
    t.

(** The body of the corner loop of [splat_kernel] for point [n], corner
    [r]; [key] is the row [matK[n]]. *)
Definition splat_corner (canonical : list Z) (n : nat) (value : list Q)
    (g : simplex) (r : nat) (st : list Z * device)
    : option (list Z * device) :=
  let '(key, d) := st in
  let pd := t_pd (table d) in
  let nid := Z.of_nat (n * (pd + 1) + r) in
  key ← corner_key pd canonical (s_y g) (s_rank g) r key;
  '(h, t) ← insert (table d) key (wrap32 nid);
  rp ← store (replay d) nid {| entry := h; weight := s_bary g !!! r |};
  base ← lookupValue t h;
  t ← accumulate t base (s_bary g !!! r) value;
  Some (key, {| table := t; replay := rp |}).

(** One thread of [splat_kernel]. *)
Definition splat_point (scaleFactor : list Q) (canonical : list Z)
    (n : nat) (pos value : list Q) (d : device) : option device :=
  let pd := t_pd (table d) in
  g ← splat_geometry pd scaleFactor pos;
  st ← for_rangeM 0 (pd + 1) (splat_corner canonical n value g)
         (replicate pd 0, d);
  Some st.2.

(** One thread of [slice_kernel]: the row [result[n]]. *)
Definition slice_point (d : device) (n : nat) (out : list Q)
    : option (list Q) :=
  let pd := t_pd (table d) in
  let vd := t_vd (table d) in
  for_rangeM 0 (pd + 1)
    (λ r out,
       let nid := (n * (pd + 1) + r)%nat in
       e ← replay d !! nid;
       base ← lookupValue (table d) (entry e);
       for_rangeM 0 vd
         (λ j out,
            v ← load (values (table d)) (base + Z.of_nat j);
            Some (<[j := (out !!! j
                          + weight e * v / slice_norm pd)%Q]> out))
         out)
    out.

(** ** [PermutohedralLatticeGPU] *)

Definition BLOCK_SIZE : nat := 1024.

(** The number of threads of a launch: [blocks * threads.x] with
    [blocks = (N + threads.x - 1) / threads.x]. *)
Definition grid (N : nat) : nat :=
  ((N + BLOCK_SIZE - 1) `div` BLOCK_SIZE * BLOCK_SIZE)%nat.

Record PermutohedralLatticeGPU := {
  l_pd : nat;
  l_vd : nat;
  l_N : nat;
  scaleFactor : list Q;
  canonical : list Z;
  hashTable : HashTableGPU;
  l_replay : list ReplayEntry
}.

(** [splat], the threads of the launch taken one after the other in the
    order of their index: one schedule of the kernel among those of
    [run].  A thread past the rows of [ref] returns at once; a thread past
    the [N] rows of the work matrices has no row to work on. *)
Definition splat (L : PermutohedralLatticeGPU) (src ref : list (list Q))
    : option device :=
  for_rangeM 0 (grid (l_N L))
    (λ n d,
       if decide (length ref ≤ n)%nat then Some d
       else
         pos ← ref !! n;
         value ← src !! n;
         splat_point (scaleFactor L) (canonical L) n pos value d)
    {| table := hashTable L; replay := l_replay L |}.

(** [slice]: [result] starts as [zeros_like(src)]; thread [n] fills row
    [n] when [n < table.N]. *)
Definition slice (L : PermutohedralLatticeGPU) (d : device)
    (src : list (list Q)) : option (list (list Q)) :=
  for_rangeM 0 (grid (l_N L))
    (λ n result,
       if decide (t_N (table d) ≤ n)%nat then Some result
       else
         out ← result !! n;
         out ← slice_point d n out;
         Some (<[n := out]> result))
    ((λ row, replicate (length row) 0%Q) <$> src).

(** [filter] when the threads of the splat kernel run one after the
    other: splat, synchronise, slice, synchronise.  [filter_scheduled]
    below is the same under any schedule. *)
Definition filter (L : PermutohedralLatticeGPU) (src ref : list (list Q))
    : option (list (list Q)) :=
  d ← splat L src ref;
  slice L d src.

(** ** Interleaved executions of the corner loop

    The threads of [splat_kernel] share the table and interleave at
    their accesses to it.  A thread below is one (point, corner) instance:
    its key and weight are thread-local results of the geometry, and its
    program counter says which access to the shared arrays is next.  The
    steps are the atomic operations of [insert] ([atomicCAS],
    [atomicExch]) and, between them, the copy of the key into the
    thread's own slot, the comparison with the key of a published slot
    (whose cells are no longer written), and the atomic adds of the
    contribution; memory is sequentially consistent. *)

Inductive pc :=
  | Probing (h : nat)
  | Locked (h : nat)
  | Publishing (h : nat)
  | Returned (h : nat)
  | Finished (h : nat) (base : Z).

Record thread := {
  th_key : list Z;
  th_slot : nat;
  th_weight : Q;
  th_value : list Q;
  th_pc : pc
}.

Record machine := {
  m_table : HashTableGPU;
  m_replay : list ReplayEntry;
  m_threads : list thread
}.

Definition set_pc (th : thread) (p : pc) : thread :=
  {| th_key := th_key th; th_slot := th_slot th; th_weight := th_weight th;
     th_value := th_value th; th_pc := p |}.

(** The next step of thread [i]. *)
Definition step (i : nat) (m : machine) : option machine :=
  th ← m_threads m !! i;
  let t := m_table m in
  let nid := wrap32 (Z.of_nat (th_slot th)) in
  let continue t' rp p :=
    {| m_table := t'; m_replay := rp;
       m_threads := <[i := set_pc th p]> (m_threads m) |} in
  match th_pc th with
  | Probing h =>
      cas ← entry2nid t !! h;
      if decide (cas = -2) then
        Some (continue t (m_replay m) (Probing (next_bucket t h)))
      else if decide (cas = -1) then
        Some (continue (set_entry2nid t (<[h := -2]> (entry2nid t)))
                (m_replay m) (Locked h))
      else
        b ← key_match t cas (th_key th);
        if (b : bool) then Some (continue t (m_replay m) (Returned h))
        else Some (continue t (m_replay m) (Probing (next_bucket t h)))
  | Locked h =>
      t' ← write_key t nid (th_key th);
      Some (continue t' (m_replay m) (Publishing h))
  | Publishing h =>
      Some (continue (set_entry2nid t (<[h := nid]> (entry2nid t)))
              (m_replay m) (Returned h))
  | Returned h =>
      rp ← store (m_replay m) (Z.of_nat (th_slot th))
              {| entry := h; weight := th_weight th |};
      base ← lookupValue t h;
      t' ← accumulate t base (th_weight th) (th_value th);
      Some (continue t' rp (Finished h base))
  | Finished _ _ => None
  end.

(** An execution under a schedule: the list of the threads that step. *)
Definition run (schedule : list nat) (m : machine) : option machine :=
  foldl (λ m i, m ≫= step i) (Some m) schedule.

(** The (point, corner) instance of point [n], corner [r], about to call
    [insert] on table [t]. *)
Definition corner_thread (scaleFactor : list Q) (canonical : list Z)
    (t : HashTableGPU) (n : nat) (pos value : list Q) (r : nat)
    : option thread :=
  let pd := t_pd t in
  g ← splat_geometry pd scaleFactor pos;
  key ← corner_key pd canonical (s_y g) (s_rank g) r (replicate pd 0);
  Some {| th_key := key;
          th_slot := (n * (pd + 1) + r)%nat;
          th_weight := s_bary g !!! r;
          th_value := value;
          th_pc := Probing (Z.to_nat (hash pd key
                                       `mod` Z.of_nat (capacity t))) |}.

(** The (point, corner) instances of a launch of [splat_kernel], in the
    order of their slots: instance [n * (pd + 1) + r] is corner [r] of
    thread [n].  A thread has instances when it passes the guard
    [n < ref.size(0)].  The corners of one thread follow each other in the
    kernel; here every instance is scheduled on its own, so that the
    executions of the kernel are among those of the instances. *)
Definition splat_threads (L : PermutohedralLatticeGPU)
    (src ref : list (list Q)) : option (list thread) :=
  let pd := t_pd (hashTable L) in
  mapM (λ i, let n := (i `div` (pd + 1))%nat in
             let r := (i `mod` (pd + 1))%nat in
             pos ← ref !! n;
             value ← src !! n;
             corner_thread (scaleFactor L) (canonical L) (hashTable L)
               n pos value r)
       (seq 0 ((grid (l_N L) `min` length ref) * (pd + 1))).

(** The launch of [splat_kernel] by [splat]. *)
Definition splat_machine (L : PermutohedralLatticeGPU)
    (src ref : list (list Q)) : option machine :=
  threads ← splat_threads L src ref;
  Some {| m_table := hashTable L; m_replay := l_replay L;
          m_threads := threads |}.

(** Every instance has finished: the kernel is over. *)
Definition finished (m : machine) : bool :=
  forallb (λ th, match th_pc th with
                 | Finished _ _ => true
                 | _ => false
                 end) (m_threads m).

(** [filter] with the steps of the splat kernel taken in the order
    [schedule]: splat, synchronise (which returns once the kernel is
    over), slice on the state the splat kernel has left, synchronise.  The
    threads of the slice kernel read that state and write one row of the
    result each, so that their order does not matter. *)
Definition filter_scheduled (L : PermutohedralLatticeGPU)
    (schedule : list nat) (src ref : list (list Q))
    : option (list (list Q)) :=
  m0 ← splat_machine L src ref;
  m ← run schedule m0;
  if finished m
  then slice L {| table := m_table m; replay := m_replay m |} src
  else None.

(** ** Construction and the entry point

    [std::sqrt] has no exact counterpart on [Q]: the scalar square root
    is a parameter of the construction, as are the size of a scalar, the
    verdicts of [cudaMallocManaged] on a request of a given size and of
    each [cudaDeviceSynchronize], and the order in which the device runs
    the steps of the splat kernel. *)

Section Host.

Variable sqrt_scalar : Q → Q.
Variable sizeof_scalar : Z.
(** [cudaMallocManaged size] returns [cudaSuccess]. *)
Variable cudaMallocManaged : Z → bool.
(** The [k]-th [cudaDeviceSynchronize] of the call returns [cudaSuccess]. *)
Variable cudaDeviceSynchronize : nat → bool.
(** The steps of the splat kernel, in the order the device takes them. *)
Variable schedule : list nat.

(** The scale factors computed by the constructor. *)
Definition scale_factors (pd : nat) : list Q :=
  let invStdDev := (Qnat (pd + 1) * sqrt_scalar (2 # 3))%Q in
  for_range 0 pd
    (λ i sf,
       <[i := (invStdDev / sqrt_scalar (Qnat ((i + 1) * (i + 2))))%Q]> sf)
    (replicate pd 0%Q).

(** The lattice as the constructor leaves it when every allocation
    succeeds.  [replay] is left as allocated (taken zeroed). *)
Definition PermutohedralLatticeGPU_new (pd vd N : nat)
    : PermutohedralLatticeGPU :=
  {| l_pd := pd; l_vd := vd; l_N := N;
     scaleFactor := scale_factors pd;
     canonical := canonical_table pd;
     hashTable := HashTableGPU_new pd vd N;
     l_replay := replicate (N * (pd + 1)) {| entry := 0; weight := 0%Q |} |}.

(** What the host does, in order. *)
Inductive host_event :=
  | Malloc (bytes : Z)
  | Launch_splat_kernel
  | Launch_slice_kernel
  | DeviceSynchronize.

(** How the call ends: [gpuAssert] calls [exit]; the host code has no
    defined behaviour (signed overflow); or the call returns the tensor
    computed by the kernels ([None] when a kernel has no defined
    behaviour, or when [schedule] is not an execution of the splat kernel
    to its end). *)
Inductive host_outcome :=
  | Exit
  | Undefined
  | Return (out : option (list (list Q))).

(** [gpuErrchk(cudaMallocManaged(&p, bytes))] followed by the rest. *)
Definition gpuErrchk_malloc (bytes : Z)
    (rest : list host_event * host_outcome)
    : list host_event * host_outcome :=
  if cudaMallocManaged bytes then (Malloc bytes :: rest.1, rest.2)
  else ([Malloc bytes], Exit).

(** [gpuErrchk(cudaDeviceSynchronize())], the [k]-th of the call, followed
    by the rest. *)
Definition gpuErrchk_synchronize (k : nat)
    (rest : list host_event * host_outcome)
    : list host_event * host_outcome :=
  if cudaDeviceSynchronize k then (DeviceSynchronize :: rest.1, rest.2)
  else ([DeviceSynchronize], Exit).

(** A kernel launch followed by the rest. *)
Definition launch (kernel : host_event)
    (rest : list host_event * host_outcome)
    : list host_event * host_outcome :=
  (kernel :: rest.1, rest.2).

Definition cols (x : list (list Q)) : nat :=
  match x with
  | [] => 0%nat
  | row :: _ => length row
  end.

(** [permutohedral_cuda_filter]: the constructors of the table and of
    the lattice, then [filter].  The sizes are read off the tensors; no
    other use is made of their shapes.  The byte counts are computed in
    [size_t], the number of cells of [canonical] in [int]. *)
Definition permutohedral_cuda_filter (src ref : list (list Q))
    : list host_event * host_outcome :=
  let pd := to_uint16 (cols ref) in
  let vd := to_uint16 (cols src) in
  let N := length src in
  let capacity := wrap64 (Z.of_nat N * (Z.of_nat pd + 1)) in
  gpuErrchk_malloc (wrap64 (wrap64 (capacity * Z.of_nat pd) * 2)) (
  gpuErrchk_malloc (wrap64 (wrap64 (capacity * Z.of_nat vd) * sizeof_scalar)) (
  gpuErrchk_malloc (wrap64 (capacity * 4)) (
  gpuErrchk_malloc (wrap64 (Z.of_nat pd * sizeof_scalar)) (
  match int_index ((Z.of_nat pd + 1) * (Z.of_nat pd + 1)) with
  | None => ([], Undefined)
  | Some cells =>
      gpuErrchk_malloc (wrap64 (cells * 2)) (
      gpuErrchk_malloc (wrap64 (capacity * 16)) (
      launch Launch_splat_kernel (
      gpuErrchk_synchronize 0 (
      launch Launch_slice_kernel (
      gpuErrchk_synchronize 1 (
        ([], Return (filter_scheduled (PermutohedralLatticeGPU_new pd vd N)
                       schedule src ref))))))))
  end)))).

End Host.

(** A square root rounded down to six decimals, to run the construction
    on concrete tensors. *)
Definition sqrt_6 (x : Q) : Q :=
  (inject_Z (Z.sqrt (Qfloor (x * 1000000000000))) / 1000000)%Q.

(** ** Specification vocabulary *)

(** [f lo + ... + f (lo + n - 1)] over scalars and over integers, and the
    number of indices in a range satisfying a test. *)
Fixpoint sum_range (f : nat → Q) (lo n : nat) : Q :=
  match n with
  | O => 0%Q
  | S n' => (sum_range f lo n' + f (lo + n')%nat)%Q
  end.

Fixpoint sumZ_range (f : nat → Z) (lo n : nat) : Z :=
  match n with
  | O => 0
  | S n' => sumZ_range f lo n' + f (lo + n')%nat
  end.

Fixpoint count_range (p : nat → bool) (lo n : nat) : nat :=
  match n with
  | O => O
  | S n' => (count_range p lo n' + (if p (lo + n')%nat then 1 else 0))%nat
  end.

(** The elevated coordinates in closed form: with
    [q k = pos[k] * scaleFactor[k]], coordinate [i ≥ 1] is
    [q i + ... + q (pd - 1) - i * q (i - 1)] and coordinate [0] is
    [q 0 + ... + q (pd - 1)]. *)
Definition scaled (scaleFactor pos : list Q) (k : nat) : Q :=
  (pos !!! k * scaleFactor !!! k)%Q.

Definition scaled_tail (pd : nat) (scaleFactor pos : list Q) (i : nat) : Q :=
  sum_range (scaled scaleFactor pos) i (pd - i).

Definition elevated_spec (pd : nat) (scaleFactor pos : list Q) (i : nat) : Q :=
  match i with
  | O => scaled_tail pd scaleFactor pos 0
  | S i' => (scaled_tail pd scaleFactor pos i
             - Qnat i * scaled scaleFactor pos i')%Q
  end.

(** The integer [round(elevated[i] / (pd + 1))] cast by the rounding loop. *)
Definition rounded_coord (pd : nat) (elevated : list Q) (i : nat) : Z :=
  round_half_away (elevated !!! i / inject_Z (Z.of_nat pd + 1)).

(** Every cast of the rounding loop is defined. *)
Definition casts_defined (pd : nat) (elevated : list Q) : Prop :=
  ∀ i, (i ≤ pd)%nat → int16_range (rounded_coord pd elevated i).

(** [rem_lt e y i j]: the test [elevated[i] - y[i] < elevated[j] - y[j]]. *)
Definition rem_lt (e : list Q) (y : list Z) (i j : nat) : bool :=
  Qltb (remainder e y i) (remainder e y j).

(** The rank the pairwise loop gives axis [k]: the number of axes [i < k]
    whose remainder is not smaller, plus the number of axes [j > k] whose
    remainder is larger. *)
Definition rank_spec (pd : nat) (e : list Q) (y : list Z) (k : nat) : nat :=
  (count_range (λ i, negb (rem_lt e y i k)) 0 k
   + count_range (λ j, rem_lt e y k j) (k + 1) (pd - k))%nat.

(** The increment that the comparison of the pair [(i, j)] gives axis [k]. *)
Definition pair_credit (e : list Q) (y : list Z) (i k j : nat) : bool :=
  if rem_lt e y i j then bool_decide (k = i) else bool_decide (k = j).

(** The rank of axis [k] after [m] rounds of the outer ranking loop. *)
Definition partial_rank (pd : nat) (e : list Q) (y : list Z) (m k : nat)
    : nat :=
  if decide (k < m)%nat then rank_spec pd e y k
  else count_range (λ i, negb (rem_lt e y i k)) 0 m.

(** Axis [m] comes before axis [k] in the order of decreasing remainder,
    ties broken by index. *)
Definition precedes (e : list Q) (y : list Z) (m k : nat) : bool :=
  if decide (m < k)%nat then negb (rem_lt e y m k)
  else if decide (k < m)%nat then rem_lt e y k m
  else false.

(** The rounded coordinates of the point fit [int16_t], so that the casts
    of the rounding loop are defined. *)
Definition representable (pd : nat) (scaleFactor pos : list Q) : Prop :=
  ∀ i, (i ≤ pd)%nat →
    int16_range
      (round_half_away
         (elevated_spec pd scaleFactor pos i / inject_Z (Z.of_nat pd + 1))).

(** What corner [r] of point [n] contributes to channel [j] of the
    output: the recorded weight times the cell of the slot addressed by
    the recorded bucket, over the normalisation constant. *)
Definition slice_term (d : device) (n j r : nat) : Q :=
  let pd := t_pd (table d) in
  let vd := t_vd (table d) in
  let e := replay d !!! (n * (pd + 1) + r)%nat in
  let base := entry2nid (table d) !!! entry e * Z.of_nat vd in
  (weight e * values (table d) !!! Z.to_nat (base + Z.of_nat j)
   / slice_norm pd)%Q.

(** ** Invariants of the table *)

(** The arrays have their allocated sizes, slots and indices into [keys]
    and [values] fit [int], and every bucket is empty, being claimed, or
    owned by a slot of the table. *)
Record table_wf (t : HashTableGPU) : Prop := {
  wf_keys : length (keys t) = (capacity t * t_pd t)%nat;
  wf_values : length (values t) = (capacity t * t_vd t)%nat;
  wf_entry2nid : length (entry2nid t) = capacity t;
  wf_capacity_int : Z.of_nat (capacity t) ≤ 2147483647;
  wf_keys_int : Z.of_nat (capacity t * t_pd t) ≤ 2147483647;
  wf_values_int : Z.of_nat (capacity t * t_vd t) ≤ 2147483647;
  wf_buckets : ∀ h e, entry2nid t !! h = Some e →
                 e = -1 ∨ e = -2 ∨ 0 ≤ e < Z.of_nat (capacity t)
}.

(** No bucket is being claimed: the state between two calls when no other
    thread runs. *)
Definition quiescent (t : HashTableGPU) : Prop :=
  ∀ h, entry2nid t !! h ≠ Some (-2).

(** The number of buckets that are not empty. *)
Definition claimed (t : HashTableGPU) : nat :=
  count_range (λ h, bool_decide (entry2nid t !!! h ≠ -1)) 0 (capacity t).

(** The key stored in slot [s]. *)
Definition slot_key (t : HashTableGPU) (s : Z) : list Z :=
  (λ i, keys t !!! Z.to_nat (s * Z.of_nat (t_pd t) + Z.of_nat i))
    <$> seq 0 (t_pd t).

(** Two tables of the same dimensions. *)
Definition same_dims (t t' : HashTableGPU) : Prop :=
  t_pd t' = t_pd t ∧ t_vd t' = t_vd t ∧ t_N t' = t_N t ∧
  capacity t' = capacity t.

(** The two ways [insert] returns bucket [h]: the thread claims the
    empty bucket for its own slot [nid], or it finds the bucket owned by a
    slot [cas] holding an equal key and leaves the table as it is. *)
Definition claims (t : HashTableGPU) (key : list Z) (nid : Z) (h : nat)
    (t' : HashTableGPU) : Prop :=
  entry2nid t !! h = Some (-1) ∧
  same_dims t t' ∧ values t' = values t ∧
  entry2nid t' = <[h := nid]> (entry2nid t) ∧
  length (keys t') = length (keys t) ∧
  (∀ i, (i < t_pd t)%nat →
     keys t' !!! Z.to_nat (nid * Z.of_nat (t_pd t) + Z.of_nat i) = key !!! i) ∧
  (∀ k, ¬ (nid * Z.of_nat (t_pd t) ≤ Z.of_nat k
           < (nid + 1) * Z.of_nat (t_pd t)) →
     keys t' !!! k = keys t !!! k).

Definition finds (t : HashTableGPU) (key : list Z) (h : nat)
    (t' : HashTableGPU) (cas : Z) : Prop :=
  t' = t ∧ entry2nid t !! h = Some cas ∧
  0 ≤ cas < Z.of_nat (capacity t) ∧
  ∀ i, (i < t_pd t)%nat →
    keys t !!! Z.to_nat (cas * Z.of_nat (t_pd t) + Z.of_nat i) = key !!! i.

(** ** Invariant of the splat stage

    After the first [k] (point, corner) instances, in the order of their
    slots: the table is well-formed and has the dimensions of [t0], at
    most [k] buckets are claimed, no bucket is being claimed, every owner
    is one of the first [k] slots, and each of the first [k] replay
    entries names a bucket owned by a slot of the table. *)
Record device_inv (t0 : HashTableGPU) (k : nat) (d : device) : Prop := {
  inv_dims : same_dims t0 (table d);
  inv_wf : table_wf (table d);
  inv_claimed : (claimed (table d) ≤ k)%nat;
  inv_replay_len : length (replay d) = capacity (table d);
  inv_owners : ∀ h s, entry2nid (table d) !! h = Some s →
                 s = -1 ∨ 0 ≤ s < Z.of_nat k;
  inv_replay : ∀ m, (m < k)%nat →
                 ∃ e s, replay d !! m = Some e ∧
                        entry2nid (table d) !! entry e = Some s ∧
                        0 ≤ s < Z.of_nat (capacity (table d))
}.

(** The preconditions of [filter] on a lattice built for [N] points of
    dimension [pd] and features of [vd] channels: the shapes agree, the
    dimension and the sizes of the table fit their integer types, and the
    rounded coordinates of every point are representable. *)
Record filter_pre (L : PermutohedralLatticeGPU) (pd vd N : nat)
    (src ref : list (list Q)) : Prop := {
  pre_N : l_N L = N;
  pre_table : hashTable L = HashTableGPU_new pd vd N;
  pre_canonical : canonical L = canonical_table pd;
  pre_scale : length (scaleFactor L) = pd;
  pre_replay : length (l_replay L) = (N * (pd + 1))%nat;
  pre_pd : (1 ≤ pd)%nat;
  pre_pd_int16 : Z.of_nat pd ≤ 32767;
  pre_capacity : Z.of_nat (N * (pd + 1)) ≤ 2147483647;
  pre_keys : Z.of_nat (N * (pd + 1) * pd) ≤ 2147483647;
  pre_values : Z.of_nat (N * (pd + 1) * vd) ≤ 2147483647;
  pre_src : length src = N;
  pre_ref : length ref = N;
  pre_features : ∀ n value, src !! n = Some value → length value = vd;
  pre_points : ∀ n pos, ref !! n = Some pos →
                 length pos = pd ∧ representable pd (scaleFactor L) pos
}.

(** ** Interleaved executions: rounds and invariant *)

(** A step of thread [i] of an execution in which every thread counts the
    rounds of the loop of [insert] that moved on to the next bucket
    ([++h]); the counters are not part of the program. *)
Definition moved (p p' : pc) : bool :=
  match p, p' with
  | Probing _, Probing _ => true
  | _, _ => false
  end.

Global Instance thread_inhabited : Inhabited thread :=
  populate {| th_key := []; th_slot := 0; th_weight := 0%Q; th_value := [];
              th_pc := Probing 0 |}.

Definition step_counting (i : nat) (mc : machine * list nat)
    : option (machine * list nat) :=
  m' ← step i mc.1;
  Some (m', if moved (th_pc (m_threads mc.1 !!! i))
                     (th_pc (m_threads m' !!! i))
            then <[i := S (mc.2 !!! i)]> mc.2 else mc.2).

Definition run_counting (schedule : list nat) (mc : machine * list nat)
    : option (machine * list nat) :=
  foldl (λ s i, s ≫= step_counting i) (Some mc) schedule.

(** The bucket at which the loop of [insert] starts. *)
Definition start_bucket (t : HashTableGPU) (th : thread) : nat :=
  Z.to_nat (hash (t_pd t) (th_key th) `mod` Z.of_nat (capacity t)).

Definition is_probing (p : pc) : bool :=
  match p with
  | Probing _ => true
  | _ => false
  end.

(** The number of threads still in the loop of [insert]. *)
Definition probing (threads : list thread) : nat :=
  count_range (λ i, is_probing (th_pc (threads !!! i))) 0 (length threads).

(** How far a thread has come, in [insert] and after it. *)
Definition phase (p : pc) : nat :=
  match p with
  | Probing _ => 0
  | Locked _ => 1
  | Publishing _ => 2
  | Returned _ => 3
  | Finished _ _ => 4
  end.

(** What holds of a thread that has moved on [c] times: it has passed [c]
    buckets in a row from its start bucket and found each of them not
    empty; a bucket it has locked or was returned is not empty. *)
Definition thread_inv (t : HashTableGPU) (th : thread) (c : nat) : Prop :=
  (th_slot th < capacity t)%nat ∧ (c < capacity t)%nat ∧
  match th_pc th with
  | Probing h =>
      h = ((start_bucket t th + c) `mod` capacity t)%nat ∧
      ∀ k, (k < c)%nat →
        entry2nid t !!! ((start_bucket t th + k) `mod` capacity t)%nat ≠ -1
  | Locked h | Publishing h => (h < capacity t)%nat ∧ entry2nid t !!! h ≠ -1
  | Returned h => (h < capacity t)%nat ∧ 0 ≤ entry2nid t !!! h
  | Finished _ _ => True
  end.

(** The invariant of the interleaved executions: there is room in the
    table for every thread that is still probing. *)
Record machine_inv (m : machine) (c : list nat) : Prop := {
  mi_wf : table_wf (m_table m);
  mi_replay : length (m_replay m) = capacity (m_table m);
  mi_counts : length c = length (m_threads m);
  mi_threads : ∀ i th, m_threads m !! i = Some th →
                 thread_inv (m_table m) th (c !!! i);
  mi_room : (claimed (m_table m) + probing (m_threads m)
             ≤ capacity (m_table m))%nat
}.

(** Buckets only fill up. *)
Definition table_grows (t t' : HashTableGPU) : Prop :=
  t_pd t' = t_pd t ∧ capacity t' = capacity t ∧
  (∀ h, entry2nid t !!! h ≠ -1 → entry2nid t' !!! h ≠ -1) ∧
  (∀ h, 0 ≤ entry2nid t !!! h → 0 ≤ entry2nid t' !!! h).

(** ** Stored keys

    Every key stored in the table is found at the bucket that owns it: a
    call of [insert] with the key of the slot owning bucket [h] returns
    [h] and leaves the table as it is. *)
Definition keys_found (t : HashTableGPU) : Prop :=
  ∀ h s nid, entry2nid t !! h = Some s → 0 ≤ s →
    0 ≤ nid < Z.of_nat (capacity t) →
    insert t (slot_key t s) nid = Some (h, t).

(** The sum of all features, point by point and channel by channel. *)
Definition total_features (src : list (list Q)) (vd : nat) : Q :=
  sum_range (λ n, sum_range (λ j, (src !!! n) !!! j) 0 vd) 0 (length src).

(** ** The shared-counter table

    The earlier revision of [HashTableGPU]: a slot is not brought by the
    caller but taken from a counter, [filled], under a spin lock,
    [slotLock].  The arrays are those of the table above and are kept in
    one: [pd], [vd], [N], [capacity], [keys] and [values] are the fields
    of [cells], and [entryIdx] is its [entry2nid].  [hash], the copy loop
    of the key and the comparison loop are the same code. *)

Abbreviation cell_arrays := HashTableGPU (only parsing).

Module SharedCounter.

Record HashTableGPU := {
  cells : cell_arrays;
  filled : Z;
  slotLock : Z
}.

Definition entryIdx (t : HashTableGPU) : list Z := entry2nid (cells t).

Definition set_cells (t : HashTableGPU) (c : cell_arrays) : HashTableGPU :=
  {| cells := c; filled := filled t; slotLock := slotLock t |}.

(** The constructor: the arrays as before, no slot taken, lock free. *)
Definition HashTableGPU_new (pd vd N : nat) : HashTableGPU :=
  {| cells := HashTableGPU_new pd vd N; filled := 0; slotLock := 0 |}.

(** [next_free_slot], run without interference: [atomicCAS(slotLock, 0,
    1)] takes the lock when it is free, the slot is [*filled], the
    counter is incremented in [int], and [atomicExch(slotLock, 0)] gives
    the lock back.  While the lock is held the loop spins: alone, the
    thread never returns ([None]). *)
Definition next_free_slot (t : HashTableGPU) : option (Z * HashTableGPU) :=
  if decide (slotLock t = 0) then
    let slot := filled t in
    f ← int_index (filled t + 1);
    Some (slot, {| cells := cells t; filled := f; slotLock := 0 |})
  else None.

(** [size]: the counter, converted to [size_t]. *)
Definition size (t : HashTableGPU) : Z := wrap64 (filled t).

(** One round of the loop of [lookup]: the thread returns a pointer into
    [values] (the index of its first cell) or [nullptr], or moves on. *)
Inductive lookup_round :=
  | Returns (val : option Z) (t : HashTableGPU)
  | Advances (h : nat).

Definition probe (t : HashTableGPU) (key : list Z) (create : bool) (h : nat)
    : option lookup_round :=
  cas ← entryIdx t !! h;
  if decide (cas = -2) then Some (Advances (next_bucket (cells t) h))
  else if decide (cas = -1) then
    if create then
      (* atomicCAS stored -2; take a slot, copy the key, publish *)
      let t1 := set_cells t (set_entry2nid (cells t) (<[h := -2]> (entryIdx t))) in
      '(slot, t2) ← next_free_slot t1;
      c ← write_key (cells t2) slot key;
      let t3 := set_cells t2 (set_entry2nid c (<[h := slot]> (entry2nid c))) in
      base ← int_index (slot * Z.of_nat (t_vd (cells t)));
      Some (Returns (Some base) t3)
    else
      (* atomicExch stores -1 back *)
      Some (Returns None t)
  else
    (* slot = entryIdx[h], read again *)
    m ← key_match (cells t) cas key;
    if (m : bool) then
      base ← int_index (cas * Z.of_nat (t_vd (cells t)));
      Some (Returns (Some base) t)
    else Some (Advances (next_bucket (cells t) h)).

Fixpoint lookup_loop (fuel : nat) (t : HashTableGPU) (key : list Z)
    (create : bool) (h : nat) : option (option Z * HashTableGPU) :=
  match fuel with
  | O => None
  | S fuel' =>
      r ← probe t key create h;
      match r with
      | Returns val t' => Some (val, t')
      | Advances h' => lookup_loop fuel' t key create h'
      end
  end.

(** [lookup], run without interference; as for [insert], a round that
    moves on leaves the table as it is, and [capacity] rounds decide the
    call. *)
Definition lookup (t : HashTableGPU) (key : list Z) (create : bool)
    : option (option Z * HashTableGPU) :=
  if decide (capacity (cells t) = 0%nat) then None
  else
    lookup_loop (capacity (cells t)) t key create
      (Z.to_nat (hash (t_pd (cells t)) key
                 `mod` Z.of_nat (capacity (cells t)))).

(** The body of the corner loop of this revision's [splat_kernel]: the
    pointer returned by [lookup(key, true)] is dereferenced by the atomic
    adds. *)
Definition splat_corner (canonical : list Z) (value : list Q) (g : simplex)
    (r : nat) (st : list Z * HashTableGPU)
    : option (list Z * HashTableGPU) :=
  let '(key, t) := st in
  key ← corner_key (t_pd (cells t)) canonical (s_y g) (s_rank g) r key;
  '(val, t) ← lookup t key true;
  base ← val;
  c ← accumulate (cells t) base (s_bary g !!! r) value;
  Some (key, set_cells t c).

End SharedCounter.

(** The state of the shared-counter table between two calls when no other
    thread runs: the lock is free, the arrays are well-formed, the
    counter is the number of claimed buckets and every owner is a slot
    taken from the counter. *)
Record counted (t : SharedCounter.HashTableGPU) : Prop := {
  cnt_lock : SharedCounter.slotLock t = 0;
  cnt_wf : table_wf (SharedCounter.cells t);
  cnt_size : SharedCounter.filled t
             = Z.of_nat (claimed (SharedCounter.cells t));
  cnt_slots : ∀ h s, SharedCounter.entryIdx t !! h = Some s →
                s = -1 ∨ 0 ≤ s < SharedCounter.filled t
}.

(** ** The lattice point

    What the correction loops make of one axis: [corrected_y pd h y rank]
    and [corrected_rank pd h rank] are the cells [y[i]] and [rank[i]]
    after the loop, for the accumulator [h]. *)
Definition corrected_y (pd : nat) (h y rank : Z) : Z :=
  let d := Z.of_nat pd + 1 in
  if decide (h > 0) then
    if decide (rank >= d - h) then wrap16 (y - d) else y
  else if decide (h < 0) then
    if decide (rank < - h) then wrap16 (y + d) else y
  else y.

Definition corrected_rank (pd : nat) (h rank : Z) : Z :=
  let d := Z.of_nat pd + 1 in
  if decide (h > 0) then
    if decide (rank >= d - h) then wrap16 (rank + (h - d))
    else wrap16 (rank + h)
  else if decide (h < 0) then
    if decide (rank < - h) then wrap16 (rank + (h + d))
    else wrap16 (rank + h)
  else rank.

(** The rounded point and its neighbours along every axis fit the
    [int16_t] rows, and so does the sum accumulated in [h]. *)
Definition lattice_fits (pd : nat) (e : list Q) : Prop :=
  let d := Z.of_nat pd + 1 in
  (∀ i, (i ≤ pd)%nat →
     int16_range ((rounded_coord pd e i - 1) * d) ∧
     int16_range ((rounded_coord pd e i + 1) * d)) ∧
  int16_range (sumZ_range (rounded_coord pd e) 0 (pd + 1) * d).

(** What the correction adds to the coordinate of an axis of rank [rank]:
    one step of the lattice down for the [h] last axes when [h > 0], one
    step up for the [-h] first axes when [h < 0]. *)
Definition shift (pd : nat) (h rank : Z) : Z :=
  let d := Z.of_nat pd + 1 in
  if decide (h > 0) then (if decide (rank >= d - h) then - d else 0)
  else if decide (h < 0) then (if decide (rank < - h) then d else 0)
  else 0.

(** ** The splat kernel under every schedule *)

(** Slot [s] holds [key]. *)
Definition stored (t : HashTableGPU) (s : Z) (key : list Z) : Prop :=
  ∀ k, (k < t_pd t)%nat →
    keys t !!! Z.to_nat (s * Z.of_nat (t_pd t) + Z.of_nat k) = key !!! k.

(** The bucket that an instance holds locked. *)
Definition holding (p : pc) : option nat :=
  match p with
  | Locked h | Publishing h => Some h
  | _ => None
  end.

(** What holds of instance [i] according to how far it has come.  Until
    it publishes its slot no bucket is owned by that slot; the bucket it
    has locked holds [-2]; once it has copied its key the slot holds the
    key; the bucket it was returned is owned by a slot holding its key;
    and when it has finished, its replay entry records the bucket and
    its weight, and its contribution went to the cells of that slot. *)
Definition thread_facts (t : HashTableGPU) (rp : list ReplayEntry)
    (i : nat) (th : thread) : Prop :=
  th_slot th = i ∧
  match th_pc th with
  | Probing _ => ∀ h, entry2nid t !! h ≠ Some (Z.of_nat i)
  | Locked h =>
      entry2nid t !! h = Some (-2) ∧
      ∀ h', entry2nid t !! h' ≠ Some (Z.of_nat i)
  | Publishing h =>
      entry2nid t !! h = Some (-2) ∧
      (∀ h', entry2nid t !! h' ≠ Some (Z.of_nat i)) ∧
      stored t (Z.of_nat i) (th_key th)
  | Returned h =>
      ∃ s, entry2nid t !! h = Some s ∧ 0 ≤ s < Z.of_nat (capacity t) ∧
           stored t s (th_key th)
  | Finished h base =>
      ∃ s, entry2nid t !! h = Some s ∧ 0 ≤ s < Z.of_nat (capacity t) ∧
           stored t s (th_key th) ∧ base = s * Z.of_nat (t_vd t) ∧
           rp !! i = Some {| entry := h; weight := th_weight th |}
  end.

(** What an instance has added to channel [j] of slot [s], and to the
    table as a whole. *)
Definition contribution (vd : nat) (th : thread) (s : Z) (j : nat) : Q :=
  match th_pc th with
  | Finished _ base =>
      if decide (base = s * Z.of_nat vd)
      then (th_weight th * th_value th !!! j)%Q else 0%Q
  | _ => 0%Q
  end.

Definition contributed (vd : nat) (th : thread) : Q :=
  match th_pc th with
  | Finished _ _ =>
      (th_weight th * sum_range (λ j, th_value th !!! j) 0 vd)%Q
  | _ => 0%Q
  end.

(** The invariant of the splat kernel: the facts of every instance, no
    bucket locked by two instances, and every cell of [values] the sum of
    what the instances have added to it. *)
Record splat_inv (m : machine) : Prop := {
  si_facts : ∀ i th, m_threads m !! i = Some th →
               thread_facts (m_table m) (m_replay m) i th;
  si_excl : ∀ i i' th th' h,
              m_threads m !! i = Some th → m_threads m !! i' = Some th' →
              holding (th_pc th) = Some h → holding (th_pc th') = Some h →
              i = i';
  si_values : ∀ s j, 0 ≤ s < Z.of_nat (capacity (m_table m)) →
                (j < t_vd (m_table m))%nat →
                (values (m_table m)
                   !!! Z.to_nat (s * Z.of_nat (t_vd (m_table m)) + Z.of_nat j)
                 == sum_range
                      (λ i, contribution (t_vd (m_table m))
                              (m_threads m !!! i) s j)
                      0 (length (m_threads m)))%Q;
  si_total : (sumQ (values (m_table m))
              == sum_range
                   (λ i, contributed (t_vd (m_table m)) (m_threads m !!! i))
                   0 (length (m_threads m)))%Q
}.

(** The slot that owns the bucket recorded for instance [i]. *)
Definition landing (t : HashTableGPU) (rp : list ReplayEntry) (i : nat) : Z :=
  entry2nid t !!! entry (rp !!! i).

(** What the instances recorded in slot [s] bring to channel [j]: the sum
    of their weights times their features. *)
Definition gathered (threads : list thread) (land : nat → Z) (s : Z)
    (j : nat) : Q :=
  sum_range
    (λ i, if decide (land i = s)
          then (th_weight (threads !!! i) * th_value (threads !!! i) !!! j)%Q
          else 0%Q)
    0 (length threads).

(** * Proofs *)

(** ** Machine integers *)

Lemma wrap16_id x : int16_range x → wrap16 x = x.
Proof.
  unfold int16_range, wrap16. intros H.
  rewrite Z.mod_small by lia. lia.
Qed.

Lemma wrap16_range x : int16_range (wrap16 x).
Proof.
  unfold int16_range, wrap16.
  pose proof (Z.mod_pos_bound (x + 32768) 65536). lia.
Qed.

(** ** Loops *)

Lemma for_range_0 {St} lo (body : nat → St → St) s : for_range lo 0 body s = s.
Proof. reflexivity. Qed.

Lemma for_range_S {St} lo n (body : nat → St → St) s :
  for_range lo (S n) body s = body (lo + n)%nat (for_range lo n body s).
Proof. unfold for_range. rewrite seq_S, foldl_app. reflexivity. Qed.

Lemma for_range_first {St} lo n (body : nat → St → St) s :
  for_range lo (S n) body s = for_range (S lo) n body (body lo s).
Proof. reflexivity. Qed.

Lemma for_range_ext {St} lo n (f g : nat → St → St) s :
  (∀ i s, (lo ≤ i < lo + n)%nat → f i s = g i s) →
  for_range lo n f s = for_range lo n g s.
Proof.
  induction n as [|n IH]; intros H; [done|].
  rewrite !for_range_S, IH by (intros; apply H; lia).
  apply H. lia.
Qed.

(** A loop invariant rule. *)
Lemma for_range_ind {St} (P : nat → St → Prop) lo n (body : nat → St → St) s :
  P 0%nat s →
  (∀ k s, (k < n)%nat → P k s → P (S k) (body (lo + k)%nat s)) →
  P n (for_range lo n body s).
Proof.
  intros H0 Hstep. induction n as [|n IH]; [done|].
  rewrite for_range_S. apply Hstep; [lia|]. apply IH.
  intros; apply Hstep; [lia|done].
Qed.

(** ** The canonical table *)

Lemma length_for_range_insert {A} lo n (idx : nat → nat) (v : nat → A) c :
  length (for_range lo n (λ j c, <[idx j := v j]> c) c) = length c.
Proof.
  induction n as [|n IH]; [done|].
  rewrite for_range_S, length_insert. done.
Qed.

(** A run of stores at [base + lo .. base + lo + n - 1]. *)
Lemma lookup_for_range_fill {A} base lo n (v : A) c k :
  (base + lo + n ≤ length c)%nat →
  for_range lo n (λ j c, <[(base + j)%nat := v]> c) c !! k =
  if decide (base + lo ≤ k < base + lo + n)%nat then Some v else c !! k.
Proof.
  induction n as [|n IH]; intros Hlen.
  - rewrite for_range_0. case_decide; [lia|done].
  - rewrite for_range_S, list_lookup_insert, length_for_range_insert.
    rewrite IH by lia.
    repeat case_decide; try done; lia.
Qed.

Lemma length_fill_canonical_row pd i c :
  length (fill_canonical_row pd i c) = length c.
Proof.
  unfold fill_canonical_row. by rewrite !length_for_range_insert.
Qed.

Lemma lookup_fill_canonical_row pd i c k :
  (i ≤ pd)%nat → length c = ((pd + 1) * (pd + 1))%nat →
  fill_canonical_row pd i c !! k =
  if decide (i * (pd + 1) ≤ k < i * (pd + 1) + (pd - i + 1))%nat
  then Some (wrap16 (Z.of_nat i))
  else if decide (i * (pd + 1) + (pd - i + 1) ≤ k < (i + 1) * (pd + 1))%nat
  then Some (wrap16 (Z.of_nat i - (Z.of_nat pd + 1)))
  else c !! k.
Proof.
  intros Hi Hlen. unfold fill_canonical_row.
  assert ((i + 1) * (pd + 1) ≤ (pd + 1) * (pd + 1))%nat by nia.
  rewrite lookup_for_range_fill
    by (rewrite length_for_range_insert; nia).
  rewrite lookup_for_range_fill by nia.
  repeat case_decide; try done; nia.
Qed.

Lemma length_fill_canonical pd buf :
  length (fill_canonical pd buf) = length buf.
Proof.
  unfold fill_canonical.
  apply (for_range_ind (λ _ c, length c = length buf)); [done|].
  intros k s _ Hs. by rewrite length_fill_canonical_row.
Qed.

(** The content of the table, cell by cell, for every [pd]. *)
Lemma fill_canonical_lookup pd buf r j :
  length buf = ((pd + 1) * (pd + 1))%nat → (r ≤ pd)%nat → (j ≤ pd)%nat →
  fill_canonical pd buf !! (r * (pd + 1) + j)%nat =
  Some (if decide (j ≤ pd - r)%nat then wrap16 (Z.of_nat r)
        else wrap16 (Z.of_nat r - (Z.of_nat pd + 1))).
Proof.
  intros Hlen Hr Hj. unfold fill_canonical.
  pose (P := λ (n : nat) (c : list Z),
    length c = length buf ∧
    ∀ i j, (i < n)%nat → (j ≤ pd)%nat →
      c !! (i * (pd + 1) + j)%nat =
      Some (if decide (j ≤ pd - i)%nat then wrap16 (Z.of_nat i)
            else wrap16 (Z.of_nat i - (Z.of_nat pd + 1)))).
  assert (HP : P (pd + 1)%nat
                 (for_range 0 (pd + 1) (fill_canonical_row pd) buf)).
  { apply for_range_ind.
    - split; [done|]. intros; lia.
    - intros k c Hk [Hl Hc]. split.
      { by rewrite length_fill_canonical_row. }
      intros i j' Hi Hj'. simpl.
      rewrite lookup_fill_canonical_row by (lia || congruence).
      destruct (decide (i = k)) as [->|Hne].
      + repeat case_decide; try done; nia.
      + rewrite !decide_False by nia. apply Hc; lia. }
  destruct HP as [_ HP]. apply HP; lia.
Qed.

Lemma canonical_table_lookup pd r j :
  (r ≤ pd)%nat → (j ≤ pd)%nat →
  canonical_table pd !! (r * (pd + 1) + j)%nat =
  Some (if decide (j ≤ pd - r)%nat then wrap16 (Z.of_nat r)
        else wrap16 (Z.of_nat r - (Z.of_nat pd + 1))).
Proof.
  intros. apply fill_canonical_lookup; [|done..].
  by rewrite length_replicate.
Qed.

Lemma length_canonical_table pd :
  length (canonical_table pd) = ((pd + 1) * (pd + 1))%nat.
Proof.
  unfold canonical_table. by rewrite length_fill_canonical, length_replicate.
Qed.

(** Row [r] holds [pd + 1 - r] copies of [(int16_t) r] followed by [r]
    copies of [(int16_t) (r - (pd + 1))], for every [pd]. *)
Lemma canonical_row_shape pd r :
  (r ≤ pd)%nat →
  table_row pd r (canonical_table pd) =
  replicate (pd + 1 - r) (wrap16 (Z.of_nat r)) ++
  replicate r (wrap16 (Z.of_nat r - (Z.of_nat pd + 1))).
Proof.
  intros Hr. apply list_eq. intros j. unfold table_row.
  rewrite lookup_take, lookup_drop.
  destruct (decide (j < pd + 1)%nat) as [Hj|Hj].
  - rewrite canonical_table_lookup by lia.
    rewrite lookup_app.
    destruct (decide (j ≤ pd - r)%nat).
    + rewrite lookup_replicate_2 by lia. done.
    + rewrite (lookup_ge_None_2 (replicate _ _)) by (rewrite length_replicate; lia).
      rewrite length_replicate, lookup_replicate_2 by lia. done.
  - symmetry. apply lookup_ge_None.
    rewrite length_app, !length_replicate. lia.
Qed.

Lemma sumZ_cons x l : sumZ (x :: l) = x + sumZ l.
Proof. reflexivity. Qed.

Lemma sumZ_app l k : sumZ (l ++ k) = sumZ l + sumZ k.
Proof. unfold sumZ. induction l as [|x l IH]; simpl; lia. Qed.

Lemma sumZ_replicate n x : sumZ (replicate n x) = Z.of_nat n * x.
Proof. unfold sumZ. induction n as [|n IH]; simpl; lia. Qed.

Lemma sumZ_Permutation l k : l ≡ₚ k → sumZ l = sumZ k.
Proof. unfold sumZ. induction 1; simpl; lia. Qed.

Lemma sumZ_zip_with_add (f : Z → Z) (y rank : list Z) :
  length y = length rank →
  sumZ (zip_with (λ yi ri, yi + f ri) y rank) = sumZ y + sumZ (f <$> rank).
Proof.
  revert rank. induction y as [|a y IH]; intros [|b rank] Hl; try done.
  injection Hl as Hl. specialize (IH _ Hl).
  rewrite fmap_cons. cbn [zip_with]. rewrite !sumZ_cons, IH. lia.
Qed.

Lemma canonical_row_as_map pd r :
  (r ≤ pd)%nat →
  (λ ri, canonical_table pd !!! (r * (pd + 1) + Z.to_nat ri)%nat) <$>
    (Z.of_nat <$> seq 0 (pd + 1)) =
  table_row pd r (canonical_table pd).
Proof.
  intros Hr. apply list_eq. intros j. unfold table_row.
  rewrite <- list_fmap_compose, list_lookup_fmap, lookup_take, lookup_drop.
  destruct (decide (j < pd + 1)%nat) as [Hj|Hj].
  - rewrite (lookup_seq_lt _ _ _ Hj). simpl. rewrite Nat2Z.id.
    rewrite canonical_table_lookup by lia.
    erewrite list_lookup_total_correct; [done|].
    by apply canonical_table_lookup; lia.
  - rewrite lookup_seq_ge by lia. done.
Qed.

(** C9, as amended: with [pd ≤ 32767] the [int16_t] cells hold the offsets
    themselves.  Row [r] of the canonical table built by the constructor is
    [pd + 1 - r] entries [r] followed by [r] entries [r - (pd + 1)], it sums
    to zero, and adding it, permuted by any ranking of the axes, to the
    rounded coordinates leaves their sum unchanged. *)
Theorem canonical_rows_zero_sum (pd r : nat) :
  Z.of_nat pd ≤ 32767 → (r ≤ pd)%nat →
  table_row pd r (canonical_table pd) =
    replicate (pd + 1 - r) (Z.of_nat r) ++
    replicate r (Z.of_nat r - (Z.of_nat pd + 1)) ∧
  sumZ (table_row pd r (canonical_table pd)) = 0 ∧
  ∀ y rank : list Z,
    length y = (pd + 1)%nat →
    rank ≡ₚ Z.of_nat <$> seq 0 (pd + 1) →
    sumZ (zip_with
            (λ yi ri, yi + canonical_table pd !!! (r * (pd + 1) + Z.to_nat ri)%nat)
            y rank) = sumZ y.
Proof.
  intros Hpd Hr.
  assert (Hrow : table_row pd r (canonical_table pd) =
    replicate (pd + 1 - r) (Z.of_nat r) ++
    replicate r (Z.of_nat r - (Z.of_nat pd + 1))).
  { rewrite canonical_row_shape by done.
    rewrite !wrap16_id by (unfold int16_range; lia). done. }
  assert (Hsum : sumZ (table_row pd r (canonical_table pd)) = 0).
  { rewrite Hrow, sumZ_app, !sumZ_replicate. nia. }
  split; [done|]. split; [done|].
  intros y rank Hy Hperm.
  rewrite sumZ_zip_with_add.
  - rewrite (sumZ_Permutation _ _ (fmap_Permutation _ _ _ Hperm)).
    rewrite canonical_row_as_map by done. lia.
  - rewrite Hy. apply Permutation_length in Hperm.
    rewrite Hperm, length_fmap, length_seq. done.
Qed.

Lemma canonical_rows_zero_sum_witness :
  table_row 2 1 (canonical_table 2) = [1; 1; -2] ∧
  sumZ (table_row 2 1 (canonical_table 2)) = 0.
Proof.
  destruct (canonical_rows_zero_sum 2 1) as (H1 & H2 & _); [lia|lia|].
  split; [exact H1|exact H2].
Defined.

(** C9 as stated, for every [pd ≥ 1], fails at [pd = 32768]: the offset
    [r = 32768] does not fit [int16_t]; the last row starts with [-32768]
    and sums to [-65536]. *)
Lemma canonical_row_int16_overflow :
  let pd := Z.to_nat 32768 in
  let r := Z.to_nat 32768 in
  (1 ≤ pd)%nat ∧ (r ≤ pd)%nat ∧
  table_row pd r (canonical_table pd) !! 0%nat = Some (-32768) ∧
  Z.of_nat r = 32768 ∧
  sumZ (table_row pd r (canonical_table pd)) = -65536.
Proof.
  intros pd r.
  assert (Hpd : Z.of_nat pd = 32768) by (unfold pd; lia).
  assert (Hr : Z.of_nat r = 32768) by (unfold r; lia).
  rewrite canonical_row_shape by lia.
  rewrite sumZ_app, !sumZ_replicate, Hr, Hpd.
  replace (pd + 1 - r)%nat with 1%nat by lia.
  repeat split; try lia; reflexivity.
Qed.

(** ** Sums over ranges *)

Lemma sum_range_ext f g lo n :
  (∀ i, (lo ≤ i < lo + n)%nat → (f i == g i)%Q) →
  (sum_range f lo n == sum_range g lo n)%Q.
Proof.
  induction n as [|n IH]; intros H; simpl; [reflexivity|].
  rewrite IH by (intros; apply H; lia).
  rewrite (H (lo + n)%nat) by lia. reflexivity.
Qed.

Lemma sum_range_first f lo n :
  (sum_range f lo (S n) == f lo + sum_range f (S lo) n)%Q.
Proof.
  induction n as [|n IH].
  - simpl. rewrite Nat.add_0_r. ring.
  - change (sum_range f lo (S (S n)))
      with (sum_range f lo (S n) + f (lo + S n)%nat)%Q.
    rewrite IH. simpl. replace (lo + S n)%nat with (S (lo + n)) by lia. ring.
Qed.

Lemma sum_range_plus f g lo n :
  (sum_range (λ i, f i + g i) lo n == sum_range f lo n + sum_range g lo n)%Q.
Proof. induction n as [|n IH]; simpl; [ring|]. rewrite IH. ring. Qed.

Lemma sum_range_scale c f lo n :
  (sum_range (λ i, c * f i) lo n == c * sum_range f lo n)%Q.
Proof. induction n as [|n IH]; simpl; [ring|]. rewrite IH. ring. Qed.

Lemma sum_range_inject f lo n :
  (sum_range (λ i, inject_Z (f i)) lo n == inject_Z (sumZ_range f lo n))%Q.
Proof.
  induction n as [|n IH]; simpl; [reflexivity|].
  rewrite IH, inject_Z_plus. reflexivity.
Qed.

Lemma Qnat_S n : (Qnat (S n) == Qnat n + 1)%Q.
Proof.
  unfold Qnat. rewrite Nat2Z.inj_succ, <- Z.add_1_r, inject_Z_plus.
  reflexivity.
Qed.

Lemma sum_range_bounds f lo n (a b : Q) :
  (∀ i, (lo ≤ i < lo + n)%nat → (a <= f i <= b)%Q) →
  (Qnat n * a <= sum_range f lo n <= Qnat n * b)%Q.
Proof.
  induction n as [|n IH]; intros H.
  - change (Qnat 0) with 0%Q. simpl. lra.
  - destruct IH as [IH1 IH2]; [intros; apply H; lia|].
    destruct (H (lo + n)%nat) as [H1 H2]; [lia|].
    rewrite Qnat_S. simpl sum_range. split; nra.
Qed.

Lemma sumQ_sum_range (l : list Q) :
  (sumQ l == sum_range (λ i, l !!! i) 0 (length l))%Q.
Proof.
  induction l as [|x l IH]; [reflexivity|].
  cbn [length]. rewrite sum_range_first.
  change (sumQ (x :: l)) with (x + sumQ l)%Q. rewrite IH.
  apply Qplus_comp; [reflexivity|].
  clear. generalize 0%nat. induction (length l) as [|n IHn]; intros lo.
  - reflexivity.
  - simpl sum_range. rewrite IHn. reflexivity.
Qed.


(** ** Checked accesses *)

Lemma int_index_Some i : int_range i → int_index i = Some i.
Proof. intros. unfold int_index. by rewrite decide_True. Qed.

Lemma int_index_inv i j : int_index i = Some j → j = i ∧ int_range i.
Proof. unfold int_index. case_decide; [|done]. by intros [= <-]. Qed.

Lemma load_Some {A} `{Inhabited A} (l : list A) (i : Z) :
  0 ≤ i < Z.of_nat (length l) → load l i = Some (l !!! Z.to_nat i).
Proof.
  intros Hi. unfold load. rewrite decide_True by lia.
  apply list_lookup_lookup_total_lt. lia.
Qed.

Lemma load_inv {A} `{Inhabited A} (l : list A) (i : Z) v :
  load l i = Some v →
  0 ≤ i < Z.of_nat (length l) ∧ v = l !!! Z.to_nat i.
Proof.
  unfold load. case_decide; [|done]. intros Hl.
  pose proof (lookup_lt_Some _ _ _ Hl).
  split; [lia|]. symmetry. by apply list_lookup_total_correct.
Qed.

Lemma store_inv {A} (l : list A) (i : Z) v l' :
  store l i v = Some l' →
  0 ≤ i < Z.of_nat (length l) ∧ l' = <[Z.to_nat i := v]> l.
Proof. unfold store. case_decide; [|done]. intros [= <-]. done. Qed.

Lemma for_rangeM_S {St} lo n (body : nat → St → option St) s :
  for_rangeM lo (S n) body s = for_rangeM lo n body s ≫= body (lo + n)%nat.
Proof. unfold for_rangeM. rewrite seq_S, foldl_app. reflexivity. Qed.

(** The invariant rule for a loop that completes. *)
Lemma for_rangeM_ind {St} (P : nat → St → Prop) lo n
    (body : nat → St → option St) s s' :
  for_rangeM lo n body s = Some s' →
  P 0%nat s →
  (∀ k s s', (k < n)%nat → P k s → body (lo + k)%nat s = Some s' → P (S k) s') →
  P n s'.
Proof.
  revert s'. induction n as [|n IH]; intros s' Hrun H0 Hstep.
  - injection Hrun as <-. done.
  - rewrite for_rangeM_S in Hrun.
    destruct (for_rangeM lo n body s) as [s1|] eqn:E; [|done].
    simpl in Hrun. apply (Hstep n s1); [lia| |done].
    apply IH; [done|done|]. intros; eapply Hstep; [lia|done..].
Qed.

(** A loop whose body succeeds under the invariant completes. *)
Lemma for_rangeM_total {St} (P : nat → St → Prop) lo n
    (body : nat → St → option St) s :
  P 0%nat s →
  (∀ k s, (k < n)%nat → P k s →
     ∃ s', body (lo + k)%nat s = Some s' ∧ P (S k) s') →
  ∃ s', for_rangeM lo n body s = Some s' ∧ P n s'.
Proof.
  intros H0 Hstep. induction n as [|n IH].
  - exists s. done.
  - destruct IH as (s1 & E & HP); [intros; apply Hstep; [lia|done]|].
    destruct (Hstep n s1) as (s2 & E2 & HP2); [lia|done|].
    exists s2. rewrite for_rangeM_S, E. done.
Qed.

(** Threads past the guard of a kernel leave the state as it is. *)
Lemma for_rangeM_idle {St} m j (body : nat → St → option St) s :
  (∀ k s, (m ≤ k)%nat → body k s = Some s) →
  for_rangeM 0 (m + j) body s = for_rangeM 0 m body s.
Proof.
  intros Hidle. induction j as [|j IH].
  - by rewrite Nat.add_0_r.
  - rewrite Nat.add_succ_r, for_rangeM_S, IH.
    destruct (for_rangeM 0 m body s) as [s1|]; [|done].
    simpl. apply Hidle. lia.
Qed.

(** ** Elevation *)

Lemma scaled_tail_step pd sf pos i :
  (i < pd)%nat →
  (scaled_tail pd sf pos i ==
   scaled sf pos i + scaled_tail pd sf pos (S i))%Q.
Proof.
  intros Hi. unfold scaled_tail.
  replace (pd - i)%nat with (S (pd - S i)) by lia.
  apply sum_range_first.
Qed.

Lemma scaled_tail_end pd sf pos : (scaled_tail pd sf pos pd == 0)%Q.
Proof. unfold scaled_tail. rewrite Nat.sub_diag. reflexivity. Qed.

Lemma elevate_down_spec pd sf pos n :
  ∀ lo e1,
    (1 ≤ lo)%nat → (lo + n = pd)%nat → length e1 = (pd + 1)%nat →
    (e1 !!! pd == elevated_spec pd sf pos pd)%Q →
    let e2 :=
      for_range_down lo n
        (λ i e, <[i := (e !!! (i + 1)%nat
                        - Qnat i * pos !!! (i - 1)%nat * sf !!! (i - 1)%nat
                        + Qnat (i + 2) * pos !!! i * sf !!! i)%Q]> e) e1 in
    length e2 = (pd + 1)%nat ∧
    ∀ i, (lo ≤ i ≤ pd)%nat → (e2 !!! i == elevated_spec pd sf pos i)%Q.
Proof.
  induction n as [|n IH]; intros lo e1 Hlo Hn Hlen Hpd.
  - simpl. split; [done|]. intros i Hi.
    replace i with pd by lia. done.
  - cbn zeta. unfold for_range_down. cbn [seq foldr].
    destruct (IH (S lo) e1) as [IHl IHs]; [lia|lia|done|done|].
    unfold for_range_down in IHl, IHs.
    set (e := foldr _ e1 (seq (S lo) n)) in *.
    split; [by rewrite length_insert|].
    intros i Hi. destruct (decide (i = lo)) as [->|Hne].
    + rewrite list_lookup_total_insert_eq by lia.
      replace (lo + 1)%nat with (S lo) by lia.
      rewrite (IHs (S lo)) by lia.
      destruct lo as [|lo']; [lia|].
      cbn [elevated_spec]. replace (S lo' - 1)%nat with lo' by lia.
      rewrite (scaled_tail_step pd sf pos (S lo')) by lia.
      unfold scaled.
      replace (S lo' + 2)%nat with (S (S (S lo'))) by lia.
      rewrite !Qnat_S. ring.
    + rewrite list_lookup_total_insert_ne by done.
      apply IHs. lia.
Qed.

Lemma elevate_spec pd sf pos e0 :
  (1 ≤ pd)%nat → length pos = pd → length sf = pd →
  length e0 = (pd + 1)%nat →
  ∃ e, elevate pd sf pos e0 = Some e ∧ length e = (pd + 1)%nat ∧
       ∀ i, (i ≤ pd)%nat → (e !!! i == elevated_spec pd sf pos i)%Q.
Proof.
  intros Hpd Hpos Hsf Hlen. unfold elevate.
  rewrite !load_Some by lia. cbn [mbind option_bind].
  replace (Z.to_nat (Z.of_nat pd - 1)) with (pd - 1)%nat by lia.
  eexists. split; [reflexivity|].
  destruct (elevate_down_spec pd sf pos (pd - 1) 1
              (<[pd := (- Qnat pd * pos !!! (pd - 1)%nat
                        * sf !!! (pd - 1)%nat)%Q]> e0))
    as [Hl Hs]; [lia|lia|by rewrite length_insert| |].
  { rewrite list_lookup_total_insert_eq by lia.
    destruct pd as [|pd']; [lia|]. cbn [elevated_spec].
    rewrite scaled_tail_end. unfold scaled.
    replace (S pd' - 1)%nat with pd' by lia. ring. }
  cbn zeta in Hl, Hs.
  split; [by rewrite length_insert|].
  intros i Hi. destruct i as [|i'].
  - rewrite list_lookup_total_insert_eq by lia.
    rewrite (Hs 1%nat) by lia. cbn [elevated_spec].
    rewrite (scaled_tail_step pd sf pos 0) by lia.
    unfold scaled. change (Qnat 1) with 1%Q. ring.
  - rewrite list_lookup_total_insert_ne by done. apply Hs. lia.
Qed.

(** The elevated coordinates lie on the hyperplane: they sum to zero. *)
Lemma elevated_spec_tail_sum pd sf pos n :
  ∀ i, (1 ≤ i)%nat → (i + n = pd)%nat →
  (sum_range (elevated_spec pd sf pos) i (S n) ==
   - Qnat i * scaled_tail pd sf pos (i - 1))%Q.
Proof.
  induction n as [|n IH]; intros i Hi Hn.
  - replace i with pd by lia. destruct pd as [|pd']; [lia|].
    simpl sum_range. rewrite Nat.add_0_r. cbn [elevated_spec].
    replace (S pd' - 1)%nat with pd' by lia.
    rewrite (scaled_tail_step (S pd') sf pos pd') by lia.
    rewrite scaled_tail_end. ring.
  - rewrite sum_range_first, (IH (S i)) by lia.
    destruct i as [|i']; [lia|]. cbn [elevated_spec].
    replace (S (S i') - 1)%nat with (S i') by lia.
    replace (S i' - 1)%nat with i' by lia.
    rewrite (scaled_tail_step pd sf pos i') by lia.
    rewrite (Qnat_S (S i')). ring.
Qed.

Lemma elevated_spec_sum pd sf pos :
  (1 ≤ pd)%nat →
  (sum_range (elevated_spec pd sf pos) 0 (pd + 1) == 0)%Q.
Proof.
  intros Hpd. replace (pd + 1)%nat with (S (S (pd - 1))) by lia.
  rewrite sum_range_first, (elevated_spec_tail_sum pd sf pos (pd - 1) 1)
    by lia.
  cbn [elevated_spec]. change (Qnat 1) with 1%Q.
  replace (1 - 1)%nat with 0%nat by lia. ring.
Qed.

(** ** Rounding *)

Lemma wrap16_add_l a b : wrap16 (wrap16 a + b) = wrap16 (a + b).
Proof.
  unfold wrap16. f_equal.
  replace ((a + 32768) `mod` 65536 - 32768 + b + 32768)
    with ((a + 32768) `mod` 65536 + b) by lia.
  rewrite Z.add_mod_idemp_l by lia. f_equal. lia.
Qed.

Lemma wrap16_add_r a b : wrap16 (a + wrap16 b) = wrap16 (a + b).
Proof. rewrite (Z.add_comm a), wrap16_add_l. f_equal. lia. Qed.

Lemma round_half_away_bounds x :
  (x - (1 # 2) <= inject_Z (round_half_away x) <= x + (1 # 2))%Q.
Proof.
  unfold round_half_away. destruct (Qle_bool 0 x).
  - pose proof (Qfloor_le (x + (1 # 2))) as H1.
    pose proof (Qlt_floor (x + (1 # 2))) as H2.
    rewrite inject_Z_plus in H2. change (inject_Z 1) with 1%Q in H2.
    split; lra.
  - pose proof (Qle_ceiling (x - (1 # 2))) as H1.
    pose proof (Qceiling_lt (x - (1 # 2))) as H2.
    unfold Z.sub in H2. rewrite inject_Z_plus, inject_Z_opp in H2.
    change (inject_Z 1) with 1%Q in H2.
    split; lra.
Qed.

Lemma round_half_away_comp x y :
  (x == y)%Q → round_half_away x = round_half_away y.
Proof.
  intros H. unfold round_half_away.
  rewrite (Qleb_comp 0%Q 0%Q (Qeq_refl 0%Q) x y H).
  rewrite (Qfloor_comp (x + (1 # 2)) (y + (1 # 2))) by (rewrite H; reflexivity).
  rewrite (Qceiling_comp (x - (1 # 2)) (y - (1 # 2)))
    by (rewrite H; reflexivity).
  reflexivity.
Qed.

(** What the rounding loop leaves in its rows. *)
Lemma round_axes_spec pd e st0 st :
  length (r_y st0) = (pd + 1)%nat → length (r_rank st0) = (pd + 1)%nat →
  length (r_bary st0) = (pd + 2)%nat → r_h st0 = 0 →
  round_axes pd e st0 = Some st →
  casts_defined pd e ∧
  length (r_y st) = (pd + 1)%nat ∧ length (r_rank st) = (pd + 1)%nat ∧
  length (r_bary st) = (pd + 2)%nat ∧
  (∀ i, (i ≤ pd)%nat →
     r_y st !!! i = wrap16 (rounded_coord pd e i * (Z.of_nat pd + 1)) ∧
     r_rank st !!! i = 0) ∧
  (∀ i, (i ≤ pd + 1)%nat → r_bary st !!! i = 0%Q) ∧
  r_h st =
    wrap16 (wrap16 (sumZ_range (λ i, rounded_coord pd e i * (Z.of_nat pd + 1))
                      0 (pd + 1))
            `quot` (Z.of_nat pd + 1)).
Proof.
  intros Hy Hr Hb Hh. unfold round_axes.
  destruct (for_rangeM 0 (pd + 1) _ st0) as [st1|] eqn:E; [|done].
  cbn [mbind option_bind]. intros [= <-]. cbn [r_y r_rank r_bary r_h].
  pose (P := λ (k : nat) (s : rounded),
    length (r_y s) = (pd + 1)%nat ∧ length (r_rank s) = (pd + 1)%nat ∧
    length (r_bary s) = (pd + 2)%nat ∧
    (∀ i, (i < k)%nat →
       int16_range (rounded_coord pd e i) ∧
       r_y s !!! i = wrap16 (rounded_coord pd e i * (Z.of_nat pd + 1)) ∧
       r_rank s !!! i = 0 ∧ r_bary s !!! i = 0%Q) ∧
    r_h s = wrap16 (sumZ_range
                      (λ i, rounded_coord pd e i * (Z.of_nat pd + 1)) 0 k)).
  assert (HP : P (pd + 1)%nat st1).
  { eapply for_rangeM_ind; [exact E| |].
    - unfold P. split_and!; try done. intros; lia.
    - clear E. intros k s s' Hk (Hl1 & Hl2 & Hl3 & Hc & Hs) Hbody.
      simpl in Hbody. fold (rounded_coord pd e k) in Hbody.
      unfold cast_int16 in Hbody. case_decide as Hcast; [|done].
      cbn [mbind option_bind] in Hbody. injection Hbody as <-.
      unfold P. cbn [r_y r_rank r_bary r_h].
      rewrite !length_insert. split_and!; try done.
      + intros i Hi. destruct (decide (i = k)) as [->|].
        * rewrite !list_lookup_total_insert_eq by lia. done.
        * rewrite !list_lookup_total_insert_ne by done. apply Hc; lia.
      + rewrite list_lookup_total_insert_eq by lia.
        rewrite Hs, wrap16_add_l, wrap16_add_r. reflexivity. }
  destruct HP as (Hl1 & Hl2 & Hl3 & Hc & Hs).
  rewrite length_insert.
  split; [intros i Hi; apply Hc; lia|].
  split_and!; try done.
  - intros i Hi. split; apply Hc; lia.
  - intros i Hi. destruct (decide (i = pd + 1)%nat) as [->|].
    + by rewrite list_lookup_total_insert_eq by lia.
    + rewrite list_lookup_total_insert_ne by done. apply Hc; lia.
  - by rewrite Hs.
Qed.

(** The rounding loop completes when every cast is defined. *)
Lemma round_axes_total pd e st0 :
  casts_defined pd e → is_Some (round_axes pd e st0).
Proof.
  intros Hc. unfold round_axes.
  match goal with
  | |- context [for_rangeM ?lo ?n ?body ?s] =>
      destruct (for_rangeM_total (λ _ _, True) lo n body s) as (s' & E & _)
  end; [done| |].
  - intros k s Hk _. simpl. fold (rounded_coord pd e k).
    unfold cast_int16. rewrite decide_True by (apply Hc; lia).
    eexists. done.
  - rewrite E. done.
Qed.

(** ** The accumulator [h] *)

Lemma quot_bound a d q : 0 < d → Z.abs a ≤ q * d → Z.abs (a `quot` d) ≤ q.
Proof. intros Hd Ha. Z.to_euclidean_division_equations. nia. Qed.

Lemma sumZ_range_scale f d lo n :
  sumZ_range (λ i, f i * d) lo n = sumZ_range f lo n * d.
Proof. induction n as [|n IH]; simpl; [done|]. rewrite IH. lia. Qed.

(** Whatever wraps on the way, [h] stays within [-(pd+1), pd+1] as soon as
    the rounded coordinates sum to at most half of [pd + 1]. *)
Lemma h_bound d H :
  1 ≤ d ≤ 32768 → - d ≤ 2 * H ≤ d →
  - d ≤ wrap16 (wrap16 (H * d) `quot` d) ≤ d.
Proof.
  intros Hd HH.
  pose proof (wrap16_range (H * d)) as Hw. unfold int16_range in Hw.
  destruct (Z_le_gt_dec 32768 (d * d)) as [Hbig|Hsmall].
  - assert (Hq : Z.abs (wrap16 (H * d) `quot` d) ≤ d)
      by (apply quot_bound; lia).
    assert (Hi : int16_range (wrap16 (H * d) `quot` d)).
    { unfold int16_range. clear Hq. Z.to_euclidean_division_equations. nia. }
    rewrite wrap16_id by done. lia.
  - rewrite (wrap16_id (H * d)) by (unfold int16_range; nia).
    rewrite Z.quot_mul by lia.
    rewrite wrap16_id by (unfold int16_range; nia). lia.
Qed.

(** The rounded coordinates of a point of the hyperplane sum to at most
    half of [pd + 1] in absolute value. *)
Lemma rounded_sum_bound pd e :
  (sum_range (λ i, e !!! i) 0 (pd + 1) == 0)%Q →
  - (Z.of_nat pd + 1)
    ≤ 2 * sumZ_range (rounded_coord pd e) 0 (pd + 1)
    ≤ Z.of_nat pd + 1.
Proof.
  intros Hsum.
  set (d := inject_Z (Z.of_nat pd + 1)).
  assert (Hd : (0 < d)%Q).
  { unfold d. rewrite <- (Zlt_Qlt 0). lia. }
  assert (Hg : (sum_range (λ i, e !!! i / d) 0 (pd + 1) == 0)%Q).
  { rewrite (sum_range_ext _ (λ i, / d * e !!! i)%Q)
      by (intros; field; lra).
    rewrite sum_range_scale, Hsum. ring. }
  pose proof (sum_range_bounds
    (λ i, inject_Z (rounded_coord pd e i) + (-1) * (e !!! i / d))%Q
    0 (pd + 1) (- (1 # 2)) (1 # 2)) as Hb.
  destruct Hb as [Hlo Hhi].
  { intros i _. pose proof (round_half_away_bounds (e !!! i / d)) as Hr.
    change (round_half_away (e !!! i / d)) with (rounded_coord pd e i) in Hr.
    set (x := (e !!! i / d)%Q) in *. split; lra. }
  rewrite sum_range_plus, sum_range_scale, Hg, sum_range_inject in Hlo, Hhi.
  assert (Hn : (Qnat (pd + 1) == d)%Q).
  { unfold Qnat, d. rewrite Nat2Z.inj_add. reflexivity. }
  rewrite Hn in Hlo, Hhi.
  set (H := sumZ_range (rounded_coord pd e) 0 (pd + 1)) in *.
  assert ((- d <= inject_Z (2 * H) <= d)%Q) as [H1 H2].
  { rewrite inject_Z_mult. change (inject_Z 2) with 2%Q. split; lra. }
  unfold d in H1, H2. rewrite <- inject_Z_opp in H1.
  rewrite <- Zle_Qle in H1, H2. lia.
Qed.

(** ** Counting *)

Lemma count_range_ext p q lo n :
  (∀ i, (lo ≤ i < lo + n)%nat → p i = q i) →
  count_range p lo n = count_range q lo n.
Proof.
  induction n as [|n IH]; intros H; simpl; [done|].
  rewrite IH by (intros; apply H; lia). rewrite (H (lo + n)%nat) by lia. done.
Qed.

Lemma count_range_le p lo n : (count_range p lo n ≤ n)%nat.
Proof. induction n as [|n IH]; simpl; [done|]. destruct (p _); lia. Qed.

Lemma count_range_false p lo n :
  (∀ i, (lo ≤ i < lo + n)%nat → p i = false) → count_range p lo n = 0%nat.
Proof.
  intros H. rewrite (count_range_ext p (λ _, false)) by done.
  clear. induction n as [|n IH]; simpl; lia.
Qed.

Lemma count_range_app p lo n1 n2 :
  count_range p lo (n1 + n2) =
  (count_range p lo n1 + count_range p (lo + n1) n2)%nat.
Proof.
  induction n2 as [|n2 IH].
  - rewrite Nat.add_0_r. simpl. lia.
  - replace (n1 + S n2)%nat with (S (n1 + n2)) by lia. simpl.
    rewrite IH, Nat.add_assoc. lia.
Qed.

(** A test that holds at [k] only counts [0] or [1]. *)
Lemma count_range_single (b : nat → bool) k lo n :
  count_range (λ j, b j && bool_decide (k = j)) lo n =
  if decide (lo ≤ k < lo + n)%nat then (if b k then 1 else 0)%nat else 0%nat.
Proof.
  induction n as [|n IH]; simpl.
  - case_decide; [lia|done].
  - rewrite IH. destruct (decide (k = lo + n)%nat) as [->|Hne].
    + rewrite bool_decide_eq_true_2 by done. rewrite andb_true_r.
      rewrite decide_False by lia. rewrite decide_True by lia. done.
    + rewrite bool_decide_eq_false_2 by done. rewrite andb_false_r.
      repeat case_decide; try lia.
Qed.

(** Counts grow with the test, strictly when one more index passes. *)
Lemma count_range_mono p q lo n :
  (∀ i, (lo ≤ i < lo + n)%nat → p i = true → q i = true) →
  (count_range p lo n ≤ count_range q lo n)%nat.
Proof.
  induction n as [|n IH]; intros H; simpl; [done|].
  specialize (IH ltac:(intros; apply H; [lia|done])).
  specialize (H (lo + n)%nat ltac:(lia)).
  destruct (p _), (q _); try lia; by specialize (H eq_refl).
Qed.

Lemma count_range_strict p q lo n m :
  (∀ i, (lo ≤ i < lo + n)%nat → p i = true → q i = true) →
  (lo ≤ m < lo + n)%nat → p m = false → q m = true →
  (count_range p lo n < count_range q lo n)%nat.
Proof.
  induction n as [|n IH]; intros H Hm Hp Hq; [lia|]. simpl.
  pose proof (count_range_mono p q lo n ltac:(intros; apply H; [lia|done])).
  destruct (decide (m = lo + n)%nat) as [->|Hne].
  - rewrite Hp, Hq. lia.
  - specialize (IH ltac:(intros; apply H; [lia|done]) ltac:(lia) Hp Hq).
    specialize (H (lo + n)%nat ltac:(lia)).
    destruct (p _), (q _); try lia; by specialize (H eq_refl).
Qed.

(** ** Pairwise ranking *)

Lemma wrap16_succ a : wrap16 (wrap16 a + 1) = wrap16 (a + 1).
Proof. apply wrap16_add_l. Qed.

(** The inner loop: the comparisons of axis [i] with [i+1 .. i+n]. *)
Lemma rank_inner_spec pd e y i n (a : nat → Z) R :
  (i + n ≤ pd)%nat → length R = (pd + 1)%nat →
  (∀ k, (k ≤ pd)%nat → R !!! k = wrap16 (a k)) →
  let R' :=
    for_range (i + 1) n
      (λ j rank,
         if Qltb (remainder e y i) (remainder e y j)
         then <[i := wrap16 (rank !!! i + 1)]> rank
         else <[j := wrap16 (rank !!! j + 1)]> rank) R in
  length R' = (pd + 1)%nat ∧
  ∀ k, (k ≤ pd)%nat →
    R' !!! k =
    wrap16 (a k + Z.of_nat (count_range (pair_credit e y i k) (i + 1) n)).
Proof.
  intros Hn Hlen HR. induction n as [|n IH]; cbn zeta.
  - rewrite for_range_0. split; [done|]. intros k Hk. simpl.
    rewrite Z.add_0_r. by apply HR.
  - destruct IH as [IHl IHs]; [lia|]. rewrite for_range_S.
    set (R1 := for_range (i + 1) n _ R) in *.
    cbn [count_range]. unfold pair_credit at 2. unfold rem_lt.
    destruct (Qltb (remainder e y i) (remainder e y (i + 1 + n))).
    + split; [by rewrite length_insert|]. intros k Hk.
      destruct (decide (k = i)) as [->|Hne].
      * rewrite list_lookup_total_insert_eq by lia.
        rewrite IHs, wrap16_succ by lia.
        rewrite bool_decide_eq_true_2 by done. f_equal. lia.
      * rewrite list_lookup_total_insert_ne by done.
        rewrite IHs by lia. rewrite bool_decide_eq_false_2 by done.
        f_equal. lia.
    + split; [by rewrite length_insert|]. intros k Hk.
      destruct (decide (k = i + 1 + n)%nat) as [->|Hne].
      * rewrite list_lookup_total_insert_eq by lia.
        rewrite IHs, wrap16_succ by lia.
        rewrite bool_decide_eq_true_2 by done. f_equal. lia.
      * rewrite list_lookup_total_insert_ne by done.
        rewrite IHs by lia. rewrite bool_decide_eq_false_2 by done.
        f_equal. lia.
Qed.

(** What one round adds to each axis. *)
Lemma pair_credit_count pd e y m k :
  (m < pd)%nat → (k ≤ pd)%nat →
  (partial_rank pd e y m k
   + count_range (pair_credit e y m k) (m + 1) (pd - m))%nat =
  partial_rank pd e y (S m) k.
Proof.
  intros Hm Hk. unfold partial_rank.
  destruct (decide (k < m)%nat) as [Hlt|Hge].
  - rewrite decide_True by lia.
    rewrite count_range_false; [lia|]. intros j Hj. unfold pair_credit.
    destruct (rem_lt e y m j); apply bool_decide_eq_false_2; lia.
  - destruct (decide (k = m)) as [->|Hne].
    + rewrite decide_True by lia. unfold rank_spec. f_equal.
      apply count_range_ext. intros j Hj. unfold pair_credit.
      destruct (rem_lt e y m j).
      * by apply bool_decide_eq_true_2.
      * apply bool_decide_eq_false_2. lia.
    + rewrite decide_False by lia. cbn [count_range]. f_equal.
      rewrite (count_range_ext _
        (λ j, negb (rem_lt e y m j) && bool_decide (k = j))).
      * rewrite count_range_single, decide_True by lia. done.
      * intros j Hj. unfold pair_credit.
        destruct (rem_lt e y m j); [|done]. simpl.
        apply bool_decide_eq_false_2. lia.
Qed.

Lemma rank_pairs_spec pd e y R :
  length R = (pd + 1)%nat → (∀ k, (k ≤ pd)%nat → R !!! k = 0) →
  length (rank_pairs pd e y R) = (pd + 1)%nat ∧
  ∀ k, (k ≤ pd)%nat →
    rank_pairs pd e y R !!! k = wrap16 (Z.of_nat (rank_spec pd e y k)).
Proof.
  intros Hlen H0. unfold rank_pairs.
  pose (P := λ (m : nat) (rank : list Z),
    length rank = (pd + 1)%nat ∧
    ∀ k, (k ≤ pd)%nat →
      rank !!! k = wrap16 (Z.of_nat (partial_rank pd e y m k))).
  assert (HP : P pd (for_range 0 pd
    (λ i rank,
       for_range (i + 1) (pd - i)
         (λ j rank,
            if Qltb (remainder e y i) (remainder e y j)
            then <[i := wrap16 (rank !!! i + 1)]> rank
            else <[j := wrap16 (rank !!! j + 1)]> rank) rank) R)).
  { apply for_range_ind.
    - split; [done|]. intros k Hk. rewrite H0 by done.
      unfold partial_rank. rewrite decide_False by lia. done.
    - intros m rank Hm [Hl Hs]. simpl.
      destruct (rank_inner_spec pd e y m (pd - m)
                  (λ k, Z.of_nat (partial_rank pd e y m k)) rank)
        as [Hl' Hs']; [lia|done|done|].
      cbn zeta in Hl', Hs'. split; [done|]. intros k Hk.
      rewrite Hs' by done. rewrite <- pair_credit_count by done.
      f_equal. lia. }
  destruct HP as [Hl Hs]. split; [done|]. intros k Hk.
  rewrite Hs by done. f_equal. f_equal. unfold partial_rank.
  case_decide; [done|]. replace k with pd by lia. unfold rank_spec.
  rewrite Nat.sub_diag. simpl. lia.
Qed.

Lemma rank_spec_le pd e y k : (k ≤ pd)%nat → (rank_spec pd e y k ≤ pd)%nat.
Proof.
  intros Hk. unfold rank_spec.
  pose proof (count_range_le (λ i, negb (rem_lt e y i k)) 0 k).
  pose proof (count_range_le (λ j, rem_lt e y k j) (k + 1) (pd - k)).
  lia.
Qed.

(** ** The ranks form a permutation *)

Lemma Qltb_lt a b : Qltb a b = true ↔ (a < b)%Q.
Proof.
  unfold Qltb. rewrite negb_true_iff, <- not_true_iff_false, Qle_bool_iff.
  split; [apply Qnot_le_lt|apply Qlt_not_le].
Qed.

Lemma rem_lt_spec e y i j :
  rem_lt e y i j = true ↔ (remainder e y i < remainder e y j)%Q.
Proof. apply Qltb_lt. Qed.

Lemma precedes_spec e y m k :
  precedes e y m k = true ↔
  (remainder e y k < remainder e y m)%Q ∨
  ((remainder e y m == remainder e y k)%Q ∧ (m < k)%nat).
Proof.
  unfold precedes. repeat case_decide.
  - rewrite negb_true_iff, <- not_true_iff_false, rem_lt_spec.
    split.
    + intros Hn. apply Qnot_lt_le in Hn.
      destruct (Qlt_le_dec (remainder e y k) (remainder e y m)); [by left|].
      right. split; [lra|done].
    + intros [Hlt|[Heq _]]; lra.
  - rewrite rem_lt_spec. split; [by left|]. intros [?|[_ ?]]; [done|lia].
  - replace m with k by lia. split; [done|]. intros [?|[_ ?]]; [lra|lia].
Qed.

Lemma precedes_irrefl e y k : precedes e y k k = false.
Proof. unfold precedes. repeat case_decide; lia || done. Qed.

Lemma precedes_trans e y m k l :
  precedes e y m k = true → precedes e y k l = true →
  precedes e y m l = true.
Proof.
  rewrite !precedes_spec.
  intros [H1|[H1 H1']] [H2|[H2 H2']].
  - left. lra.
  - left. lra.
  - left. lra.
  - right. split; [lra|lia].
Qed.

Lemma precedes_total e y m k :
  m ≠ k → precedes e y m k = true ∨ precedes e y k m = true.
Proof.
  intros Hne. rewrite !precedes_spec.
  destruct (Qlt_le_dec (remainder e y k) (remainder e y m)); [by left; left|].
  destruct (Qlt_le_dec (remainder e y m) (remainder e y k));
    [by right; left|].
  destruct (decide (m < k)%nat).
  - left. right. split; [lra|done].
  - right. right. split; [lra|lia].
Qed.

(** The rank of an axis is the number of axes that come before it. *)
Lemma rank_spec_precedes pd e y k :
  (k ≤ pd)%nat →
  rank_spec pd e y k = count_range (λ m, precedes e y m k) 0 (pd + 1).
Proof.
  intros Hk. unfold rank_spec.
  replace (pd + 1)%nat with (k + (1 + (pd - k)))%nat by lia.
  rewrite !count_range_app. simpl count_range at 4.
  rewrite Nat.add_0_r, precedes_irrefl.
  rewrite (count_range_ext (λ m, precedes e y m k)
             (λ i, negb (rem_lt e y i k)) 0 k).
  2:{ intros i Hi. unfold precedes. by rewrite decide_True by lia. }
  rewrite (count_range_ext (λ m, precedes e y m k)
             (λ j, rem_lt e y k j) (0 + k + 1) (pd - k)).
  2:{ intros i Hi. unfold precedes.
      rewrite decide_False by lia. by rewrite decide_True by lia. }
  simpl. lia.
Qed.

Lemma rank_spec_lt pd e y k l :
  (k ≤ pd)%nat → (l ≤ pd)%nat → precedes e y k l = true →
  (rank_spec pd e y k < rank_spec pd e y l)%nat.
Proof.
  intros Hk Hl Hkl. rewrite !rank_spec_precedes by done.
  apply (count_range_strict _ _ 0 (pd + 1) k).
  - intros i _ Hi. by eapply precedes_trans.
  - lia.
  - apply precedes_irrefl.
  - done.
Qed.

Lemma rank_spec_inj pd e y k l :
  (k ≤ pd)%nat → (l ≤ pd)%nat →
  rank_spec pd e y k = rank_spec pd e y l → k = l.
Proof.
  intros Hk Hl Heq. destruct (decide (k = l)) as [|Hne]; [done|].
  destruct (precedes_total e y k l Hne) as [H|H];
    eapply rank_spec_lt in H; try done; lia.
Qed.

Lemma rank_spec_Permutation pd e y :
  rank_spec pd e y <$> seq 0 (pd + 1) ≡ₚ seq 0 (pd + 1).
Proof.
  apply NoDup_Permutation_bis.
  - apply NoDup_ListNoDup, NoDup_fmap_2_strong; [|apply NoDup_seq].
    intros k l Hk%elem_of_seq Hl%elem_of_seq.
    apply rank_spec_inj; lia.
  - by rewrite length_fmap.
  - intros x Hx%list_elem_of_In. apply list_elem_of_fmap in Hx as (k & -> & Hk).
    apply elem_of_seq in Hk. apply in_seq.
    pose proof (rank_spec_le pd e y k). lia.
Qed.

(** ** Rank correction *)

Lemma rank_correct_range pd h y rank :
  length y = (pd + 1)%nat → length rank = (pd + 1)%nat →
  Z.of_nat pd ≤ 32767 → - (Z.of_nat pd + 1) ≤ h ≤ Z.of_nat pd + 1 →
  (∀ k, (k ≤ pd)%nat → 0 ≤ rank !!! k ≤ Z.of_nat pd) →
  length (rank_correct pd h (y, rank)).1 = (pd + 1)%nat ∧
  length (rank_correct pd h (y, rank)).2 = (pd + 1)%nat ∧
  ∀ k, (k ≤ pd)%nat →
    0 ≤ (rank_correct pd h (y, rank)).2 !!! k ≤ Z.of_nat pd.
Proof.
  intros Hy Hr Hpd Hh Hrank.
  pose (P := λ (m : nat) (yr : list Z * list Z),
    length yr.1 = (pd + 1)%nat ∧ length yr.2 = (pd + 1)%nat ∧
    (∀ k, (k < m)%nat → 0 ≤ yr.2 !!! k ≤ Z.of_nat pd) ∧
    (∀ k, (m ≤ k ≤ pd)%nat → yr.2 !!! k = rank !!! k)).
  assert (HP0 : P 0%nat (y, rank)).
  { unfold P. simpl. split_and!; try done. intros; lia. }
  assert (Hfin : ∀ yr, P (pd + 1)%nat yr →
    length yr.1 = (pd + 1)%nat ∧ length yr.2 = (pd + 1)%nat ∧
    ∀ k, (k ≤ pd)%nat → 0 ≤ yr.2 !!! k ≤ Z.of_nat pd).
  { intros yr (H1 & H2 & H3 & _). split_and!; try done.
    intros k Hk. apply H3. lia. }
  unfold rank_correct. cbn zeta.
  destruct (decide (h > 0)); [|destruct (decide (h < 0))].
  - apply Hfin, for_range_ind; [done|].
    intros m [y1 r1] Hm (H1 & H2 & H3 & H4). simpl in *.
    specialize (Hrank m ltac:(lia)). specialize (H4 m ltac:(lia)) as Hm4.
    case_decide; unfold P; simpl; rewrite ?length_insert;
      (split_and!; try done; intros k Hk;
       [destruct (decide (k = m)) as [->|];
        [rewrite list_lookup_total_insert_eq by lia;
         rewrite wrap16_id by (unfold int16_range; lia); lia
        |rewrite list_lookup_total_insert_ne by done; apply H3; lia]
       |rewrite list_lookup_total_insert_ne by lia; apply H4; lia]).
  - apply Hfin, for_range_ind; [done|].
    intros m [y1 r1] Hm (H1 & H2 & H3 & H4). simpl in *.
    specialize (Hrank m ltac:(lia)). specialize (H4 m ltac:(lia)) as Hm4.
    case_decide; unfold P; simpl; rewrite ?length_insert;
      (split_and!; try done; intros k Hk;
       [destruct (decide (k = m)) as [->|];
        [rewrite list_lookup_total_insert_eq by lia;
         rewrite wrap16_id by (unfold int16_range; lia); lia
        |rewrite list_lookup_total_insert_ne by done; apply H3; lia]
       |rewrite list_lookup_total_insert_ne by lia; apply H4; lia]).
  - simpl. split_and!; done.
Qed.

(** ** Barycentric weights *)

Lemma sumQ_cons x l : (sumQ (x :: l) == x + sumQ l)%Q.
Proof. reflexivity. Qed.

Lemma sumQ_app l k : (sumQ (l ++ k) == sumQ l + sumQ k)%Q.
Proof.
  induction l as [|x l IH].
  - change (sumQ ([] ++ k)) with (sumQ k). change (sumQ []) with 0%Q. ring.
  - change ((x :: l) ++ k) with (x :: (l ++ k)).
    rewrite !sumQ_cons, IH. ring.
Qed.

Lemma sumQ_insert l i v :
  (i < length l)%nat → (sumQ (<[i := v]> l) == sumQ l - l !!! i + v)%Q.
Proof.
  revert i. induction l as [|x l IH]; intros i Hi; simpl in Hi; [lia|].
  destruct i as [|i].
  - change (<[0%nat:=v]> (x :: l)) with (v :: l).
    rewrite !sumQ_cons. change ((x :: l) !!! 0%nat) with x. ring.
  - change (<[S i:=v]> (x :: l)) with (x :: <[i:=v]> l).
    rewrite !sumQ_cons, IH by lia.
    change ((x :: l) !!! S i) with (l !!! i). ring.
Qed.

Lemma sumQ_zeros l :
  (∀ i, (i < length l)%nat → l !!! i = 0%Q) → (sumQ l == 0)%Q.
Proof.
  induction l as [|x l IH]; intros H; [reflexivity|].
  rewrite sumQ_cons, IH.
  - pose proof (H 0%nat ltac:(simpl; lia)) as H0.
    change ((x :: l) !!! 0%nat) with x in H0. rewrite H0. reflexivity.
  - intros i Hi. apply (H (S i)). simpl; lia.
Qed.

Lemma sumQ_take_last l n :
  length l = S n → (sumQ l == sumQ (take n l) + l !!! n)%Q.
Proof.
  intros Hl. rewrite <- (take_drop n l) at 1. rewrite sumQ_app.
  apply Qplus_comp; [reflexivity|].
  destruct (drop n l) as [|x [|??]] eqn:E.
  - apply (f_equal length) in E. rewrite length_drop in E. simpl in E. lia.
  - rewrite sumQ_cons. change (sumQ []) with 0%Q.
    assert (l !! n = Some x) as Hx.
    { rewrite <- (Nat.add_0_r n), <- lookup_drop, E. done. }
    rewrite (list_lookup_total_correct _ _ _ Hx). ring.
  - apply (f_equal length) in E. rewrite length_drop in E. simpl in E. lia.
Qed.

(** One round of the weight loop keeps the total of the row. *)
Lemma barycentric_step_sum (b b' : list Q) (i1 i2 : Z) (delta : Q) :
  (v1 ← load b i1;
   b1 ← store b i1 (v1 + delta)%Q;
   v2 ← load b1 i2;
   store b1 i2 (v2 - delta)%Q) = Some b' →
  length b' = length b ∧ (sumQ b' == sumQ b)%Q.
Proof.
  intros Hstep.
  destruct (load b i1) as [v1|] eqn:E1; [|done].
  cbn [mbind option_bind] in Hstep.
  destruct (store b i1 (v1 + delta)%Q) as [b1|] eqn:E2; [|done].
  cbn [mbind option_bind] in Hstep.
  destruct (load b1 i2) as [v2|] eqn:E3; [|done].
  cbn [mbind option_bind] in Hstep.
  apply load_inv in E1 as [H1 ->]. apply store_inv in E2 as [_ ->].
  apply load_inv in E3 as [H3 ->]. apply store_inv in Hstep as [_ ->].
  rewrite length_insert in H3.
  rewrite !length_insert. split; [done|].
  rewrite sumQ_insert by (rewrite length_insert; lia).
  rewrite sumQ_insert by lia. ring.
Qed.

Lemma barycentric_sum pd e y rank bary b :
  length bary = (pd + 2)%nat → (sumQ bary == 0)%Q →
  barycentric pd e y rank bary = Some b →
  length b = (pd + 2)%nat ∧ (sumQ (take (pd + 1) b) == 1)%Q.
Proof.
  intros Hlen Hsum. unfold barycentric.
  destruct (for_rangeM 0 (pd + 1) _ bary) as [b1|] eqn:E; [|done].
  cbn [mbind option_bind]. intros [= <-].
  assert (length b1 = (pd + 2)%nat ∧ (sumQ b1 == 0)%Q) as [Hl1 Hs1].
  { eapply (for_rangeM_ind
             (λ _ b, length b = (pd + 2)%nat ∧ (sumQ b == 0)%Q));
      [exact E|done|].
    intros k s s' _ [Hl Hs] Hbody.
    apply barycentric_step_sum in Hbody as [Hl' Hs'].
    split; [congruence|]. by rewrite Hs'. }
  rewrite length_insert. split; [done|].
  set (b' := <[0%nat := _]> b1).
  assert (Hb' : (sumQ b' == 1 + b1 !!! (pd + 1)%nat)%Q).
  { unfold b'. rewrite sumQ_insert by lia. rewrite Hs1. ring. }
  rewrite (sumQ_take_last b' (pd + 1)) in Hb'
    by (unfold b'; rewrite length_insert; lia).
  unfold b' in Hb' at 2.
  rewrite list_lookup_total_insert_ne in Hb' by lia. lra.
Qed.

Lemma barycentric_total pd e y rank bary :
  length bary = (pd + 2)%nat →
  (∀ k, (k ≤ pd)%nat → 0 ≤ rank !!! k ≤ Z.of_nat pd) →
  is_Some (barycentric pd e y rank bary).
Proof.
  intros Hlen Hrank. unfold barycentric.
  match goal with
  | |- context [for_rangeM ?lo ?n ?body ?s] =>
      destruct (for_rangeM_total (λ _ b, length b = (pd + 2)%nat)
                  lo n body s) as (b1 & E & _)
  end; [done| |].
  - intros k b Hk Hb. simpl. specialize (Hrank k ltac:(lia)).
    rewrite load_Some by lia. cbn [mbind option_bind].
    unfold store at 2. rewrite decide_True by lia.
    cbn [mbind option_bind].
    rewrite load_Some by (rewrite length_insert; lia).
    cbn [mbind option_bind].
    unfold store. rewrite decide_True by (rewrite length_insert; lia).
    eexists. split; [done|]. by rewrite !length_insert.
  - rewrite E. done.
Qed.

Lemma corner_key_total pd canonical y rank r key :
  Z.of_nat pd ≤ 32767 →
  length canonical = ((pd + 1) * (pd + 1))%nat → (r ≤ pd)%nat →
  (∀ k, (k ≤ pd)%nat → 0 ≤ rank !!! k ≤ Z.of_nat pd) →
  is_Some (corner_key pd canonical y rank r key).
Proof.
  intros Hpd Hlen Hr Hrank. unfold corner_key.
  match goal with
  | |- context [for_rangeM ?lo ?n ?body ?s] =>
      destruct (for_rangeM_total (λ _ _, True) lo n body s) as (b1 & E & _)
  end; [done| |].
  - intros k s Hk _. simpl. specialize (Hrank k ltac:(lia)).
    unfold int_index. rewrite decide_True by (unfold int_range; nia).
    cbn [mbind option_bind].
    rewrite load_Some by nia. eexists. done.
  - rewrite E. done.
Qed.

(** ** The geometry of a point, stage by stage *)

Lemma rounded_init_zero_sum pd : (sumQ (r_bary (rounded_init pd)) == 0)%Q.
Proof.
  apply sumQ_zeros. intros i Hi. simpl in *.
  rewrite length_replicate in Hi. by apply lookup_total_replicate_2.
Qed.

(** Elevation and rounding succeed on a representable point and leave
    [h] within [-(pd+1), pd+1]. *)
Lemma geometry_stages pd sf pos :
  (1 ≤ pd)%nat → Z.of_nat pd ≤ 32767 → length sf = pd → length pos = pd →
  representable pd sf pos →
  ∃ e st,
    elevate pd sf pos (replicate (pd + 1) 0%Q) = Some e ∧
    round_axes pd e (rounded_init pd) = Some st ∧
    length (r_y st) = (pd + 1)%nat ∧ length (r_rank st) = (pd + 1)%nat ∧
    length (r_bary st) = (pd + 2)%nat ∧
    (∀ i, (i ≤ pd)%nat → r_rank st !!! i = 0) ∧
    - (Z.of_nat pd + 1) ≤ r_h st ≤ Z.of_nat pd + 1.
Proof.
  intros Hpd Hmax Hsf Hpos Hrep.
  destruct (elevate_spec pd sf pos (replicate (pd + 1) 0%Q))
    as (e & He & Hle & Hes); [done|done|done|by rewrite length_replicate|].
  assert (Hrc : ∀ i, (i ≤ pd)%nat →
    rounded_coord pd e i =
    round_half_away (elevated_spec pd sf pos i / inject_Z (Z.of_nat pd + 1))).
  { intros i Hi. unfold rounded_coord. apply round_half_away_comp.
    rewrite (Hes i Hi). reflexivity. }
  assert (Hcast : casts_defined pd e).
  { intros i Hi. rewrite Hrc by done. by apply Hrep. }
  destruct (round_axes_total pd e (rounded_init pd) Hcast) as [st Hst].
  exists e, st. split; [done|]. split; [done|].
  destruct (round_axes_spec pd e (rounded_init pd) st)
    as (_ & Hly & Hlr & Hlb & Hyr & _ & Hh);
    [by simpl; rewrite length_replicate..|done|done|].
  split_and!; try done.
  - intros i Hi. by apply Hyr.
  - rewrite Hh, sumZ_range_scale.
    apply h_bound; [lia|]. apply rounded_sum_bound.
    rewrite (sum_range_ext _ (elevated_spec pd sf pos))
      by (intros; apply Hes; lia).
    by apply elevated_spec_sum.
  - rewrite Hh, sumZ_range_scale.
    apply h_bound; [lia|]. apply rounded_sum_bound.
    rewrite (sum_range_ext _ (elevated_spec pd sf pos))
      by (intros; apply Hes; lia).
    by apply elevated_spec_sum.
Qed.

Lemma list_fmap_seq_eq {A} `{Inhabited A} (l : list A) (f : nat → A) n :
  length l = n → (∀ k, (k < n)%nat → l !!! k = f k) → l = f <$> seq 0 n.
Proof.
  intros Hl Hf. apply list_eq. intros k. rewrite list_lookup_fmap.
  destruct (decide (k < n)%nat) as [Hk|Hk].
  - rewrite lookup_seq_lt by done. simpl. rewrite <- Hf by done.
    apply list_lookup_lookup_total_lt. lia.
  - rewrite lookup_seq_ge by lia. apply lookup_ge_None. lia.
Qed.

(** C3: whenever the geometry of a point is defined, the weights
    [bary[0] .. bary[pd]] of the simplex corners sum to exactly one. *)
Theorem barycentric_weights_sum_to_one (pd : nat) (scaleFactor pos : list Q)
    (g : simplex) :
  splat_geometry pd scaleFactor pos = Some g →
  (sumQ (take (pd + 1) (s_bary g)) == 1)%Q.
Proof.
  unfold splat_geometry. intros Hg.
  destruct (elevate pd scaleFactor pos _) as [e|]; [|done].
  cbn [mbind option_bind] in Hg.
  destruct (round_axes pd e (rounded_init pd)) as [st|] eqn:Est; [|done].
  cbn [mbind option_bind] in Hg.
  destruct (rank_correct pd (r_h st) _) as [y rank].
  destruct (barycentric pd e y rank (r_bary st)) as [b|] eqn:Eb; [|done].
  cbn [mbind option_bind] in Hg. injection Hg as <-. cbn [s_bary].
  destruct (round_axes_spec pd e (rounded_init pd) st)
    as (_ & _ & _ & Hlb & _ & Hz & _);
    [by simpl; rewrite length_replicate..|done|done|].
  eapply barycentric_sum; [exact Hlb| |exact Eb].
  apply sumQ_zeros. intros i Hi. apply Hz. lia.
Qed.

Lemma barycentric_weights_sum_to_one_witness :
  ∃ g, splat_geometry 2 [(1732 # 1000)%Q; 1%Q] [(37 # 10)%Q; (29 # 10)%Q] = Some g ∧
       (sumQ (take 3 (s_bary g)) == 1)%Q.
Proof.
  eexists. split; [vm_compute; reflexivity|].
  apply (barycentric_weights_sum_to_one 2 [(1732 # 1000)%Q; 1%Q]
           [(37 # 10)%Q; (29 # 10)%Q]).
  vm_compute. reflexivity.
Defined.

Lemma ranked_spec pd sf pos e st :
  elevate pd sf pos (replicate (pd + 1) 0%Q) = Some e →
  round_axes pd e (rounded_init pd) = Some st →
  length (r_rank st) = (pd + 1)%nat →
  (∀ i, (i ≤ pd)%nat → r_rank st !!! i = 0) →
  ranked pd sf pos = Some (rank_pairs pd e (r_y st) (r_rank st)) ∧
  length (rank_pairs pd e (r_y st) (r_rank st)) = (pd + 1)%nat ∧
  ∀ k, (k ≤ pd)%nat →
    rank_pairs pd e (r_y st) (r_rank st) !!! k =
    wrap16 (Z.of_nat (rank_spec pd e (r_y st) k)).
Proof.
  intros He Hst Hl H0. unfold ranked. rewrite He. cbn [mbind option_bind].
  rewrite Hst. cbn [mbind option_bind]. split; [done|].
  by apply rank_pairs_spec.
Qed.

(** The ranks of a representable point: the pairwise loop gives axis [k]
    the rank [rank_spec k], and the correction keeps the ranks in range,
    which makes the weight loop succeed. *)
Lemma geometry_defined (pd : nat) (scaleFactor pos : list Q) :
  (1 ≤ pd)%nat → Z.of_nat pd ≤ 32767 →
  length scaleFactor = pd → length pos = pd →
  representable pd scaleFactor pos →
  ∃ e st g,
    ranked pd scaleFactor pos = Some (rank_pairs pd e (r_y st) (r_rank st)) ∧
    length (rank_pairs pd e (r_y st) (r_rank st)) = (pd + 1)%nat ∧
    (∀ k, (k ≤ pd)%nat →
       rank_pairs pd e (r_y st) (r_rank st) !!! k =
       Z.of_nat (rank_spec pd e (r_y st) k)) ∧
    splat_geometry pd scaleFactor pos = Some g ∧
    length (s_bary g) = (pd + 2)%nat ∧
    (∀ i, (i ≤ pd)%nat → 0 ≤ s_rank g !!! i ≤ Z.of_nat pd).
Proof.
  intros Hpd Hmax Hsf Hpos Hrep.
  destruct (geometry_stages pd scaleFactor pos)
    as (e & st & He & Hst & Hly & Hlr & Hlb & Hr0 & Hh); [done..|].
  destruct (ranked_spec pd scaleFactor pos e st)
    as (Hranked & Hlen & Hspec); [done..|].
  set (rank0 := rank_pairs pd e (r_y st) (r_rank st)) in *.
  assert (Hval : ∀ k, (k ≤ pd)%nat →
    rank0 !!! k = Z.of_nat (rank_spec pd e (r_y st) k)).
  { intros k Hk. rewrite Hspec by done. apply wrap16_id.
    pose proof (rank_spec_le pd e (r_y st) k Hk).
    unfold int16_range. lia. }
  assert (Hrange0 : ∀ k, (k ≤ pd)%nat → 0 ≤ rank0 !!! k ≤ Z.of_nat pd).
  { intros k Hk. rewrite Hval by done.
    pose proof (rank_spec_le pd e (r_y st) k Hk). lia. }
  destruct (rank_correct_range pd (r_h st) (r_y st) rank0)
    as (Hly1 & Hlr1 & Hrange1); [done..|].
  destruct (rank_correct pd (r_h st) (r_y st, rank0)) as [y1 rank1] eqn:Erc.
  simpl in Hly1, Hlr1, Hrange1.
  destruct (barycentric_total pd e y1 rank1 (r_bary st)) as [b Hb];
    [done|done|].
  exists e, st,
    {| s_elevated := e; s_y := y1; s_rank := rank1; s_bary := b |}.
  fold rank0. split; [done|]. split; [done|]. split; [done|]. split.
  { unfold splat_geometry. rewrite He. cbn [mbind option_bind].
    rewrite Hst. cbn [mbind option_bind]. fold rank0. rewrite Erc, Hb. done. }
  cbn [s_bary s_rank s_y]. split; [|done].
  destruct (round_axes_spec pd e (rounded_init pd) st)
    as (_ & _ & _ & _ & _ & Hz & _);
    [by simpl; rewrite length_replicate..|done|done|].
  eapply barycentric_sum; [exact Hlb| |exact Hb].
  apply sumQ_zeros. intros i Hi. apply Hz. lia.
Qed.

(** C10, as amended: for a point of dimension [1 ≤ pd ≤ 32767] whose
    rounded coordinates fit [int16_t], the ranks left by the pairwise loop
    are a permutation of [0 .. pd]; after the correction by [h] every rank
    still lies in [0, pd]; and every access addressed by a rank, to [bary]
    in the weight loop and to [canonical] in the key loop, is within
    bounds (the checked accesses succeed). *)
Theorem rank_permutation_and_index_safety (pd : nat)
    (scaleFactor pos : list Q) :
  (1 ≤ pd)%nat → Z.of_nat pd ≤ 32767 →
  length scaleFactor = pd → length pos = pd →
  representable pd scaleFactor pos →
  ∃ rank0 g,
    ranked pd scaleFactor pos = Some rank0 ∧
    rank0 ≡ₚ Z.of_nat <$> seq 0 (pd + 1) ∧
    splat_geometry pd scaleFactor pos = Some g ∧
    length (s_bary g) = (pd + 2)%nat ∧
    (∀ i, (i ≤ pd)%nat → 0 ≤ s_rank g !!! i ≤ Z.of_nat pd) ∧
    (∀ r key, (r ≤ pd)%nat →
       is_Some (corner_key pd (canonical_table pd) (s_y g) (s_rank g) r key)).
Proof.
  intros Hpd Hmax Hsf Hpos Hrep.
  destruct (geometry_defined pd scaleFactor pos Hpd Hmax Hsf Hpos Hrep)
    as (e & st & g & Hranked & Hlen & Hval & Hg & Hlb & Hrange).
  exists (rank_pairs pd e (r_y st) (r_rank st)), g.
  split; [exact Hranked|]. split.
  { rewrite (list_fmap_seq_eq (rank_pairs pd e (r_y st) (r_rank st))
               (λ k, Z.of_nat (rank_spec pd e (r_y st) k)) (pd + 1))
      by (try done; intros; apply Hval; lia).
    rewrite (list_fmap_compose (rank_spec pd e (r_y st)) Z.of_nat).
    apply fmap_Permutation, rank_spec_Permutation. }
  split; [exact Hg|]. split; [exact Hlb|]. split; [exact Hrange|].
  intros r key Hr. apply corner_key_total; [done| |done|done].
  apply length_canonical_table.
Qed.

Lemma rank_permutation_and_index_safety_witness :
  ∃ rank0 g,
    ranked 2 [(1732 # 1000)%Q; 1%Q] [(37 # 10)%Q; (29 # 10)%Q] = Some rank0 ∧
    rank0 ≡ₚ Z.of_nat <$> seq 0 (2 + 1) ∧
    splat_geometry 2 [(1732 # 1000)%Q; 1%Q] [(37 # 10)%Q; (29 # 10)%Q]
      = Some g ∧
    length (s_bary g) = (2 + 2)%nat ∧
    (∀ i, (i ≤ 2)%nat → 0 ≤ s_rank g !!! i ≤ Z.of_nat 2) ∧
    (∀ r key, (r ≤ 2)%nat →
       is_Some (corner_key 2 (canonical_table 2) (s_y g) (s_rank g) r key)).
Proof.
  apply (rank_permutation_and_index_safety 2
           [(1732 # 1000)%Q; 1%Q] [(37 # 10)%Q; (29 # 10)%Q]).
  - lia.
  - lia.
  - reflexivity.
  - reflexivity.
  - intros i Hi. destruct i as [|[|[|i]]]; [..|lia];
      vm_compute; split; discriminate.
Defined.

(** ** Dimension 32768: the ranks leave [int16_t] *)

Lemma count_range_true p lo n :
  (∀ i, (lo ≤ i < lo + n)%nat → p i = true) → count_range p lo n = n.
Proof.
  induction n as [|n IH]; intros H; simpl; [done|].
  rewrite IH by (intros; apply H; lia). rewrite (H (lo + n)%nat) by lia. lia.
Qed.

Lemma sum_range_zero f lo n :
  (∀ i, (lo ≤ i < lo + n)%nat → (f i == 0)%Q) → (sum_range f lo n == 0)%Q.
Proof.
  induction n as [|n IH]; intros H; simpl; [reflexivity|].
  rewrite IH by (intros; apply H; lia). rewrite (H (lo + n)%nat) by lia.
  reflexivity.
Qed.

Lemma sumZ_range_zero f lo n :
  (∀ i, (lo ≤ i < lo + n)%nat → f i = 0) → sumZ_range f lo n = 0.
Proof.
  induction n as [|n IH]; intros H; simpl; [done|].
  rewrite IH by (intros; apply H; lia). rewrite (H (lo + n)%nat) by lia. done.
Qed.

Lemma lookup_total_zeros n k : replicate n 0%Q !!! k = 0%Q.
Proof.
  destruct (decide (k < n)%nat).
  - by apply lookup_total_replicate_2.
  - rewrite list_lookup_total_alt, lookup_ge_None_2; [done|].
    rewrite length_replicate. lia.
Qed.

(** The origin is elevated to the origin. *)
Lemma elevated_spec_origin pd sf i :
  (elevated_spec pd sf (replicate pd 0%Q) i == 0)%Q.
Proof.
  assert (Hq : ∀ k, (scaled sf (replicate pd 0%Q) k == 0)%Q).
  { intros k. unfold scaled. rewrite lookup_total_zeros. ring. }
  assert (Ht : ∀ j, (scaled_tail pd sf (replicate pd 0%Q) j == 0)%Q).
  { intros j. unfold scaled_tail. apply sum_range_zero. intros; apply Hq. }
  destruct i as [|i]; cbn [elevated_spec].
  - apply Ht.
  - rewrite Ht, Hq. ring.
Qed.

Lemma round_half_away_origin (x d : Q) :
  (x == 0)%Q → round_half_away (x / d) = 0.
Proof.
  intros Hx. rewrite (round_half_away_comp (x / d) 0); [reflexivity|].
  rewrite Hx. unfold Qdiv. ring.
Qed.

(** At the origin all remainders are equal and axis [k] gets rank [k]. *)
Lemma origin_stages pd sf :
  (1 ≤ pd)%nat → length sf = pd →
  ∃ e st,
    elevate pd sf (replicate pd 0%Q) (replicate (pd + 1) 0%Q) = Some e ∧
    round_axes pd e (rounded_init pd) = Some st ∧
    length (r_rank st) = (pd + 1)%nat ∧
    length (r_bary st) = (pd + 2)%nat ∧
    (∀ i, (i ≤ pd)%nat → r_rank st !!! i = 0) ∧
    r_h st = 0 ∧
    ∀ k, (k ≤ pd)%nat → rank_spec pd e (r_y st) k = k.
Proof.
  intros Hpd Hsf.
  destruct (elevate_spec pd sf (replicate pd 0%Q) (replicate (pd + 1) 0%Q))
    as (e & He & Hle & Hes); [done|by rewrite length_replicate|done
                             |by rewrite length_replicate|].
  assert (He0 : ∀ i, (i ≤ pd)%nat → (e !!! i == 0)%Q).
  { intros i Hi. rewrite (Hes i Hi). apply elevated_spec_origin. }
  assert (Hrc : ∀ i, (i ≤ pd)%nat → rounded_coord pd e i = 0).
  { intros i Hi. unfold rounded_coord. by apply round_half_away_origin, He0. }
  assert (Hcast : casts_defined pd e).
  { intros i Hi. rewrite Hrc by done. unfold int16_range. lia. }
  destruct (round_axes_total pd e (rounded_init pd) Hcast) as [st Hst].
  destruct (round_axes_spec pd e (rounded_init pd) st)
    as (_ & Hly & Hlr & Hlb & Hyr & _ & Hh);
    [by simpl; rewrite length_replicate..|done|done|].
  exists e, st. split_and!; try done.
  - intros i Hi. by apply Hyr.
  - rewrite Hh, sumZ_range_zero.
    + change (wrap16 0) with 0. rewrite Z.quot_0_l by lia. done.
    + intros i Hi. rewrite Hrc by lia. done.
  - intros k Hk.
    assert (Hrem : ∀ i j, (i ≤ pd)%nat → (j ≤ pd)%nat →
      rem_lt e (r_y st) i j = false).
    { intros i j Hi Hj. apply not_true_iff_false. rewrite rem_lt_spec.
      unfold remainder.
      rewrite (proj1 (Hyr i Hi)), (proj1 (Hyr j Hj)), !Hrc by done.
      rewrite (He0 i Hi), (He0 j Hj). simpl. apply Qlt_irrefl. }
    unfold rank_spec.
    rewrite count_range_true
      by (intros i Hi; rewrite Hrem by lia; done).
    rewrite count_range_false by (intros j Hj; apply Hrem; lia). lia.
Qed.

(** A rank below [-1] sends the weight loop outside the row [bary]. *)
Lemma barycentric_out_of_bounds pd e y rank bary :
  length bary = (pd + 2)%nat → rank !!! pd < -1 →
  barycentric pd e y rank bary = None.
Proof.
  intros Hlen Hrank. unfold barycentric.
  rewrite Nat.add_1_r, for_rangeM_S.
  destruct (for_rangeM 0 pd _ bary) as [b|] eqn:E; [|done].
  assert (Hb : length b = (pd + 2)%nat).
  { eapply (for_rangeM_ind (λ _ b, length b = (pd + 2)%nat));
      [exact E|done|].
    intros k s s' _ Hl Hbody.
    apply barycentric_step_sum in Hbody as [Hl' _]. congruence. }
  cbn [mbind option_bind]. rewrite Nat.add_0_l.
  assert (Hoob : load b (Z.of_nat pd - rank !!! pd) = None).
  { unfold load. rewrite decide_True by lia. apply lookup_ge_None_2. lia. }
  rewrite Hoob. done.
Qed.

(** In dimension 32768 the rank of the last axis of the origin wraps. *)
Lemma origin_rank_wraps pd sf :
  Z.of_nat pd = 32768 → length sf = pd →
  ∃ rank0,
    ranked pd sf (replicate pd 0%Q) = Some rank0 ∧
    rank0 !!! pd = -32768 ∧
    ¬ rank0 ≡ₚ Z.of_nat <$> seq 0 (pd + 1) ∧
    splat_geometry pd sf (replicate pd 0%Q) = None.
Proof.
  intros Hpd Hsf.
  destruct (origin_stages pd sf)
    as (e & st & He & Hst & Hlr & Hlb & Hr0 & Hh & Hrk); [lia|exact Hsf|].
  destruct (ranked_spec pd sf (replicate pd 0%Q) e st He Hst Hlr Hr0)
    as (Hranked & Hlen & Hspec).
  set (rank0 := rank_pairs pd e (r_y st) (r_rank st)) in *.
  assert (Hlast : rank0 !!! pd = -32768).
  { rewrite Hspec, Hrk, Hpd by lia. reflexivity. }
  exists rank0.
  split; [exact Hranked|]. split; [exact Hlast|]. split.
  - intros Hperm.
    assert (Hin : Z.of_nat pd ∈ rank0).
    { rewrite Hperm. apply list_elem_of_fmap. exists pd. split; [reflexivity|].
      apply elem_of_seq. lia. }
    apply list_elem_of_lookup in Hin as [k Hk].
    pose proof (lookup_lt_Some _ _ _ Hk) as Hlt.
    apply list_lookup_total_correct in Hk.
    rewrite Hspec in Hk by lia.
    pose proof (wrap16_range (Z.of_nat (rank_spec pd e (r_y st) k))) as Hw.
    unfold int16_range in Hw. lia.
  - unfold splat_geometry. rewrite He. cbn [mbind option_bind].
    rewrite Hst. cbn [mbind option_bind]. fold rank0.
    unfold rank_correct. rewrite Hh. cbn zeta.
    rewrite decide_False by lia. rewrite decide_False by lia.
    rewrite barycentric_out_of_bounds; [reflexivity|exact Hlb|lia].
Qed.

(** C10 as stated, for every input point, fails in dimension
    [pd = 32768] at the origin: the rank of the last axis wraps to
    [-32768], the ranks are not a permutation of [0 .. pd], and the weight
    loop addresses [bary] outside the row. *)
Lemma rank_int16_overflow :
  let pd := Z.to_nat 32768 in
  let scaleFactor := replicate pd 1%Q in
  let pos := replicate pd 0%Q in
  ∃ rank0,
    ranked pd scaleFactor pos = Some rank0 ∧
    rank0 !!! pd = -32768 ∧
    ¬ rank0 ≡ₚ Z.of_nat <$> seq 0 (pd + 1) ∧
    splat_geometry pd scaleFactor pos = None.
Proof.
  intros pd scaleFactor pos.
  apply (origin_rank_wraps pd scaleFactor).
  - apply Z2Nat.id. discriminate.
  - apply length_replicate.
Qed.

(** ** The slice stage *)

(** A launch in which thread [k] rewrites cell [k] only. *)
Lemma for_rangeM_cellwise {A} (P : nat → Prop) `{∀ k, Decision (P k)}
    (f : nat → A → option A) n0 (s s' : list A) :
  for_rangeM 0 n0
    (λ k s, if decide (P k) then Some s
            else x ← s !! k; y ← f k x; Some (<[k := y]> s)) s = Some s' →
  length s' = length s ∧
  ∀ k x, s !! k = Some x →
    ((k < n0)%nat → ¬ P k → ∃ y, f k x = Some y ∧ s' !! k = Some y) ∧
    ((n0 ≤ k)%nat ∨ P k → s' !! k = Some x).
Proof.
  revert s'. induction n0 as [|n0 IH]; intros s' Hrun.
  - injection Hrun as <-. split; [done|]. intros k x Hk.
    split; [lia|done].
  - rewrite for_rangeM_S in Hrun.
    destruct (for_rangeM 0 n0 _ s) as [s1|] eqn:E; [|done].
    destruct (IH s1 eq_refl) as [Hl1 Hc1]. clear IH.
    cbn [mbind option_bind] in Hrun. rewrite Nat.add_0_l in Hrun.
    destruct (decide (P n0)) as [HP|HP].
    + injection Hrun as <-. split; [done|]. intros k x Hk.
      destruct (Hc1 k x Hk) as [Hd Hu]. split.
      * intros Hlt HnP. apply Hd; [|done].
        destruct (decide (k = n0)) as [->|]; [done|lia].
      * intros [Hge|HPk]; apply Hu; [left; lia|by right].
    + destruct (s1 !! n0) as [x0|] eqn:E0; [|done].
      cbn [mbind option_bind] in Hrun.
      destruct (f n0 x0) as [y0|] eqn:Ef; [|done].
      cbn [mbind option_bind] in Hrun. injection Hrun as <-.
      rewrite length_insert. split; [done|]. intros k x Hk.
      destruct (Hc1 k x Hk) as [Hd Hu].
      destruct (decide (k = n0)) as [->|Hne].
      * rewrite list_lookup_insert_eq by (by eapply lookup_lt_Some).
        rewrite Hu in E0 by (left; lia). injection E0 as <-.
        split; [intros _ _; by exists y0|]. intros [?|?]; [lia|done].
      * rewrite list_lookup_insert_ne by done. split.
        -- intros Hlt HnP. apply Hd; [lia|done].
        -- intros [Hge|HPk]; apply Hu; [left; lia|by right].
Qed.

(** The channel loop of one corner. *)
Lemma slice_channels vals base w c vd out0 out :
  for_rangeM 0 vd
    (λ j out,
       v ← load vals (base + Z.of_nat j);
       Some (<[j := (out !!! j + w * v / c)%Q]> out)) out0 = Some out →
  (vd ≤ length out0)%nat →
  length out = length out0 ∧
  ∀ j, (j < vd)%nat →
    out !!! j =
    (out0 !!! j + w * vals !!! Z.to_nat (base + Z.of_nat j) / c)%Q.
Proof.
  intros Hrun Hvd.
  pose (P := λ (k : nat) (o : list Q),
    length o = length out0 ∧
    (∀ j, (j < k)%nat →
       o !!! j =
       (out0 !!! j + w * vals !!! Z.to_nat (base + Z.of_nat j) / c)%Q) ∧
    (∀ j, (k ≤ j)%nat → o !!! j = out0 !!! j)).
  assert (HP : P vd out).
  { eapply for_rangeM_ind; [exact Hrun| |].
    - unfold P. split_and!; try done. intros; lia.
    - intros k o o' Hk (Hl & Hd & Hu) Hbody. simpl in Hbody.
      destruct (load vals (base + Z.of_nat k)) as [v|] eqn:Ev; [|done].
      apply load_inv in Ev as [_ ->].
      cbn [mbind option_bind] in Hbody. injection Hbody as <-.
      unfold P. rewrite length_insert. split_and!; try done.
      + intros j Hj. destruct (decide (j = k)) as [->|].
        * rewrite list_lookup_total_insert_eq by lia.
          rewrite Hu by lia. done.
        * rewrite list_lookup_total_insert_ne by done. apply Hd. lia.
      + intros j Hj. rewrite list_lookup_total_insert_ne by lia.
        apply Hu. lia. }
  destruct HP as (Hl & Hd & _). done.
Qed.

(** One thread of the slice kernel, corner by corner. *)
Lemma slice_point_spec d n out0 out :
  slice_point d n out0 = Some out →
  length out0 = t_vd (table d) →
  length out = t_vd (table d) ∧
  ∀ j, (j < t_vd (table d))%nat →
    (out !!! j ==
     out0 !!! j + sum_range (slice_term d n j) 0 (t_pd (table d) + 1))%Q.
Proof.
  intros Hrun Hlen. unfold slice_point in Hrun.
  pose (P := λ (k : nat) (o : list Q),
    length o = t_vd (table d) ∧
    ∀ j, (j < t_vd (table d))%nat →
      (o !!! j == out0 !!! j + sum_range (slice_term d n j) 0 k)%Q).
  assert (HP : P (t_pd (table d) + 1)%nat out).
  { eapply for_rangeM_ind; [exact Hrun| |].
    - split; [done|]. intros j Hj. simpl. ring.
    - intros k o o' Hk [Hl Hs] Hbody. simpl in Hbody.
      destruct (replay d !! (n * (t_pd (table d) + 1) + k)%nat)
        as [e|] eqn:Ee; [|done].
      cbn [mbind option_bind] in Hbody.
      unfold lookupValue in Hbody.
      destruct (entry2nid (table d) !! entry e) as [s|] eqn:Es; [|done].
      cbn [mbind option_bind] in Hbody.
      unfold int_index in Hbody. case_decide; [|done].
      cbn [mbind option_bind] in Hbody.
      apply slice_channels in Hbody as [Hl' Hc]; [|lia].
      split; [congruence|]. intros j Hj.
      rewrite Hc by done. rewrite (Hs j Hj). cbn [sum_range].
      rewrite Nat.add_0_l.
      assert (Ht : slice_term d n j k =
        (weight e
         * values (table d)
             !!! Z.to_nat (s * Z.of_nat (t_vd (table d)) + Z.of_nat j)
         / slice_norm (t_pd (table d)))%Q).
      { unfold slice_term. cbn zeta.
        rewrite (list_lookup_total_correct _ _ _ Ee).
        rewrite (list_lookup_total_correct _ _ _ Es). done. }
      rewrite Ht. ring. }
  destruct HP as [Hl Hs]. done.
Qed.

Lemma grid_ge N : (N ≤ grid N)%nat.
Proof.
  unfold grid, BLOCK_SIZE.
  pose proof (Nat.div_mod_eq (N + 1024 - 1) 1024) as E.
  pose proof (Nat.mod_upper_bound (N + 1024 - 1) 1024 ltac:(lia)).
  lia.
Qed.

(** Row [n] of the result of [slice] is what thread [n] makes of the
    zero row. *)
Lemma slice_row_thread (L : PermutohedralLatticeGPU) (d : device)
    (src result : list (list Q)) (n : nat) (feature : list Q) :
  slice L d src = Some result →
  t_N (table d) = l_N L → (n < l_N L)%nat →
  src !! n = Some feature →
  ∃ out, result !! n = Some out ∧
         slice_point d n (replicate (length feature) 0%Q) = Some out.
Proof.
  intros Hrun HN Hn Hsrc. unfold slice in Hrun.
  apply for_rangeM_cellwise in Hrun as [_ Hc].
  destruct (Hc n (replicate (length feature) 0%Q)) as [Hd _].
  { rewrite list_lookup_fmap, Hsrc. done. }
  destruct Hd as (out & Hout & Hres).
  { pose proof (grid_ge (l_N L)). lia. }
  { lia. }
  by exists out.
Qed.

(** The normalisation constant, as [float] holds it: [1 + 2^-pd] as long
    as [2^-pd] is within the 24 bits of [1], and [1] from [pd = 24] on. *)
Lemma slice_norm_small pd :
  (pd ≤ 23)%nat → (slice_norm pd == 1 + 2 ^ (- Z.of_nat pd))%Q.
Proof.
  intros Hpd.
  do 24 (destruct pd as [|pd]; [vm_compute; reflexivity|]). lia.
Qed.

Lemma slice_norm_large pd : (24 ≤ pd)%nat → (slice_norm pd == 1)%Q.
Proof.
  intros Hpd.
  do 24 (destruct pd as [|pd]; [lia|]).
  do 126 (destruct pd as [|pd]; [vm_compute; reflexivity|]).
  unfold slice_norm, powf_2_neg. rewrite decide_False by lia.
  vm_compute. reflexivity.
Qed.

(** The slice launch returns on a state in which every replay entry names
    a bucket owned by a slot of the table. *)
Lemma slice_returns L d src :
  table_wf (table d) → t_N (table d) = l_N L → length src = l_N L →
  (∀ i, (i < l_N L * (t_pd (table d) + 1))%nat →
     ∃ e s, replay d !! i = Some e ∧
            entry2nid (table d) !! entry e = Some s ∧
            0 ≤ s < Z.of_nat (capacity (table d))) →
  is_Some (slice L d src).
Proof.
  intros Hwf HN Hsrc Hrep. unfold slice.
  match goal with
  | |- context [for_rangeM ?lo ?n ?body ?s] =>
      destruct (for_rangeM_total
                  (λ _ (res : list (list Q)), length res = l_N L)
                  lo n body s) as (res & E & _)
  end; [by rewrite length_fmap| |by rewrite E].
  intros n res Hn Hlen. simpl. case_decide as Hskip.
  { by exists res. }
  destruct (lookup_lt_is_Some_2 res n ltac:(lia)) as [out0 Hout0].
  rewrite Hout0. cbn [mbind option_bind].
  assert (Hpoint : is_Some (slice_point d n out0)).
  { unfold slice_point. cbn zeta.
    match goal with
    | |- context [for_rangeM ?lo ?n ?body ?s] =>
        destruct (for_rangeM_total (λ _ _, True) lo n body s) as (o & E & _)
    end; [done| |by rewrite E].
    intros r o Hr _. simpl.
    destruct (Hrep (n * (t_pd (table d) + 1) + r)%nat ltac:(nia))
      as (e & s & He & Hs & Hsr).
    rewrite He. cbn [mbind option_bind].
    unfold lookupValue. rewrite Hs. cbn [mbind option_bind].
    rewrite int_index_Some.
    2:{ pose proof (wf_values_int _ Hwf). unfold int_range. nia. }
    cbn [mbind option_bind].
    match goal with
    | |- context [for_rangeM ?lo ?n ?body ?s] =>
        destruct (for_rangeM_total (λ _ _, True) lo n body s)
          as (o' & E' & _)
    end; [done| |by exists o'].
    intros j o1 Hj _. simpl.
    rewrite load_Some by (rewrite (wf_values _ Hwf); nia).
    by eexists. }
  destruct Hpoint as [out Hout].
  rewrite Hout. cbn [mbind option_bind]. eexists. split; [done|].
  by rewrite length_insert.
Qed.

(** C7, as amended: [slice] returns on every state in which the replay
    entries of the [N] points name buckets owned by slots of the table.
    Row [n] of its result is the zero row to which each of the [pd + 1]
    corners [r] has added, on each of the [vd] channels,
    [replay[n*(pd+1)+r].weight] times the cell of the slot addressed by
    [replay[n*(pd+1)+r].entry], divided by the value of
    [1 + powf(2, -pd)] in single precision: [1 + 2^-pd] up to [pd = 23],
    and [1] from [pd = 24] on. *)
Theorem slice_rows_accumulate (L : PermutohedralLatticeGPU) (d : device)
    (src : list (list Q)) :
  t_N (table d) = l_N L →
  let pd := t_pd (table d) in
  let vd := t_vd (table d) in
  (table_wf (table d) → length src = l_N L →
   (∀ i, (i < l_N L * (pd + 1))%nat →
      ∃ e s, replay d !! i = Some e ∧
             entry2nid (table d) !! entry e = Some s ∧
             0 ≤ s < Z.of_nat (capacity (table d))) →
   is_Some (slice L d src)) ∧
  (∀ result n feature,
     slice L d src = Some result → (n < l_N L)%nat →
     src !! n = Some feature → length feature = vd →
     ∃ out,
       result !! n = Some out ∧ length out = vd ∧
       ∀ j, (j < vd)%nat →
         (out !!! j ==
          sum_range
            (λ r, let e := replay d !!! (n * (pd + 1) + r)%nat in
                  weight e
                  * values (table d)
                      !!! Z.to_nat (entry2nid (table d) !!! entry e
                                    * Z.of_nat vd + Z.of_nat j)
                  / slice_norm pd)
            0 (pd + 1))%Q) ∧
  ((pd ≤ 23)%nat → (slice_norm pd == 1 + 2 ^ (- Z.of_nat pd))%Q) ∧
  ((24 ≤ pd)%nat → (slice_norm pd == 1)%Q).
Proof.
  intros HN pd vd.
  split; [|split; [|split; [apply slice_norm_small|apply slice_norm_large]]].
  { intros Hwf Hsrc Hrep. by apply slice_returns. }
  intros result n feature Hrun Hn Hsrc Hlen.
  destruct (slice_row_thread L d src result n feature Hrun HN Hn Hsrc)
    as (out & Hres & Hout).
  apply slice_point_spec in Hout as [Hl Hs];
    [|by rewrite length_replicate].
  exists out. split; [exact Hres|]. split; [exact Hl|].
  intros j Hj. rewrite (Hs j Hj), lookup_total_zeros.
  change (sum_range (slice_term d n j) 0 (t_pd (table d) + 1))
    with (sum_range
            (λ r, let e := replay d !!! (n * (pd + 1) + r)%nat in
                  (weight e
                   * values (table d)
                       !!! Z.to_nat (entry2nid (table d) !!! entry e
                                     * Z.of_nat vd + Z.of_nat j)
                   / slice_norm pd)%Q)
            0 (pd + 1)).
  ring.
Qed.

Lemma slice_rows_accumulate_witness :
  let t := {| t_pd := 1; t_vd := 1; t_N := 1; capacity := 2;
              keys := [0; 1]; values := [1%Q; 0%Q]; entry2nid := [0; 1] |} in
  let d := {| table := t;
              replay := [{| entry := 0; weight := 1%Q |};
                         {| entry := 1; weight := 0%Q |}] |} in
  let L := PermutohedralLatticeGPU_new sqrt_6 1 1 1 in
  ∃ result out,
    slice L d [[1%Q]] = Some result ∧
    result !! 0%nat = Some out ∧ length out = 1%nat ∧
    (∀ j, (j < 1)%nat →
       (out !!! j ==
        sum_range
          (λ r, let e := replay d !!! (0 * (1 + 1) + r)%nat in
                weight e
                * values t !!! Z.to_nat (entry2nid t !!! entry e * Z.of_nat 1
                                         + Z.of_nat j)
                / slice_norm 1)
          0 (1 + 1))%Q) ∧
    (slice_norm 1 == 1 + 2 ^ (- Z.of_nat 1))%Q.
Proof.
  intros t d L.
  destruct (slice_rows_accumulate L d [[1%Q]] eq_refl)
    as (Hreturns & Hrows & Hsmall & _).
  destruct Hreturns as [result Hrun].
  { split; try reflexivity; try (simpl; lia).
    intros [|[|h]] e; simpl; intros [= <-]; lia. }
  { reflexivity. }
  { intros [|[|i]] Hi; simpl in Hi; [| |lia].
    - exists {| entry := 0; weight := 1%Q |}, 0. simpl. split_and!; done.
    - exists {| entry := 1; weight := 0%Q |}, 1. simpl. split_and!; done. }
  destruct (Hrows result 0%nat [1%Q] Hrun) as (out & Hout & Hlen & Hsum);
    [simpl; lia|reflexivity|reflexivity|].
  exists result, out. split; [exact Hrun|]. split; [exact Hout|].
  split; [exact Hlen|]. split; [exact Hsum|]. apply Hsmall. simpl. lia.
Defined.

(** C7 as stated fails from [pd = 24] on: in the state left by the splat
    of one point at the origin of dimension 24 with feature [1], the only
    corner of weight [1] owns a slot holding [1], and [slice] returns [1],
    the sum of the products, not that sum over [1 + 2^-24]. *)
Lemma slice_divides_by_one_at_24 :
  let L := PermutohedralLatticeGPU_new sqrt_6 24 1 1 in
  ∃ d0 out,
    splat L [[1%Q]] [replicate 24 0%Q] = Some d0 ∧
    let d := lowest_terms d0 in
    let product r :=
      let e := replay d !!! r in
      (weight e
       * values (table d) !!! Z.to_nat (entry2nid (table d) !!! entry e))%Q in
    slice L d [[1%Q]] = Some [[out]] ∧
    (out == sum_range product 0 25)%Q ∧ (out == 1)%Q ∧
    ¬ (out == sum_range (λ r, product r / (1 + 2 ^ (-24)))%Q 0 25)%Q.
Proof.
  intros L. eexists _, _. split; [vm_compute; reflexivity|].
  split; [vm_compute; reflexivity|]. split; [vm_compute; reflexivity|].
  split; [vm_compute; reflexivity|]. vm_compute. discriminate.
Qed.

(** ** The hash table, run without interference *)

Lemma same_dims_refl t : same_dims t t.
Proof. done. Qed.

Lemma same_dims_trans t1 t2 t3 :
  same_dims t1 t2 → same_dims t2 t3 → same_dims t1 t3.
Proof. unfold same_dims. intros (?&?&?&?) (?&?&?&?). split_and!; congruence. Qed.

(** The copy loop writes the key into slot [nid] and nothing else. *)
Lemma write_key_spec t nid key :
  length (keys t) = (capacity t * t_pd t)%nat →
  Z.of_nat (capacity t * t_pd t) ≤ 2147483647 →
  0 ≤ nid < Z.of_nat (capacity t) →
  ∃ t', write_key t nid key = Some t' ∧
        same_dims t t' ∧ values t' = values t ∧ entry2nid t' = entry2nid t ∧
        length (keys t') = length (keys t) ∧
        (∀ i, (i < t_pd t)%nat →
           keys t' !!! Z.to_nat (nid * Z.of_nat (t_pd t) + Z.of_nat i)
           = key !!! i) ∧
        (∀ k, ¬ (nid * Z.of_nat (t_pd t) ≤ Z.of_nat k
                 < (nid + 1) * Z.of_nat (t_pd t)) →
           keys t' !!! k = keys t !!! k).
Proof.
  intros Hlen Hint Hnid. unfold write_key.
  pose (P := λ (m : nat) (t' : HashTableGPU),
    same_dims t t' ∧ values t' = values t ∧ entry2nid t' = entry2nid t ∧
    length (keys t') = length (keys t) ∧
    (∀ i, (i < m)%nat →
       keys t' !!! Z.to_nat (nid * Z.of_nat (t_pd t) + Z.of_nat i)
       = key !!! i) ∧
    (∀ k, ¬ (nid * Z.of_nat (t_pd t) ≤ Z.of_nat k
             < nid * Z.of_nat (t_pd t) + Z.of_nat m) →
       keys t' !!! k = keys t !!! k)).
  destruct (for_rangeM_total P 0 (t_pd t)
    (λ i t0,
       ix ← int_index (nid * Z.of_nat (t_pd t0) + Z.of_nat i);
       ks ← store (keys t0) ix (key !!! i);
       Some (set_keys t0 ks)) t) as (t' & Ht' & HP).
  - unfold P. split_and!; try done. intros; lia.
  - intros k t0 Hk (Hd & Hv & He & Hl & Hw & Hu). simpl.
    destruct Hd as (Hpd & Hvd & HN & Hcap). rewrite Hpd.
    rewrite int_index_Some by (unfold int_range; nia).
    cbn [mbind option_bind]. unfold store.
    rewrite decide_True by (rewrite Hl, Hlen; nia).
    cbn [mbind option_bind]. eexists. split; [done|].
    unfold P, same_dims. simpl. rewrite length_insert.
    split_and!; try done.
    + intros i Hi. destruct (decide (i = k)) as [->|Hne].
      * rewrite list_lookup_total_insert_eq by (rewrite Hl, Hlen; nia). done.
      * rewrite list_lookup_total_insert_ne by nia. apply Hw. lia.
    + intros j Hj. rewrite list_lookup_total_insert_ne by nia.
      apply Hu. lia.
  - exists t'. split; [done|]. destruct HP as (Hd & Hv & He & Hl & Hw & Hu).
    split_and!; try done. intros k Hk. apply Hu. lia.
Qed.

(** The comparison loop is defined on every owned bucket. *)
Lemma key_match_total t cas key :
  length (keys t) = (capacity t * t_pd t)%nat →
  Z.of_nat (capacity t * t_pd t) ≤ 2147483647 →
  0 ≤ cas < Z.of_nat (capacity t) →
  is_Some (key_match t cas key).
Proof.
  intros Hlen Hint Hcas. unfold key_match.
  match goal with
  | |- context [for_rangeM ?lo ?n ?body ?s] =>
      destruct (for_rangeM_total (λ _ _, True) lo n body s) as (b & E & _)
  end; [done| |by rewrite E].
  intros k m Hk _. simpl. destruct m; [|by eexists].
  rewrite int_index_Some by (unfold int_range; nia).
  cbn [mbind option_bind]. rewrite load_Some by (rewrite Hlen; nia).
  by eexists.
Qed.

Lemma next_bucket_lt t h :
  (h < capacity t)%nat → (next_bucket t h < capacity t)%nat.
Proof. intros. unfold next_bucket. case_decide; lia. Qed.

Lemma next_bucket_mod t h :
  (h < capacity t)%nat → next_bucket t h = ((h + 1) `mod` capacity t)%nat.
Proof.
  intros Hh. unfold next_bucket. case_decide as E.
  - rewrite E, Nat.Div0.mod_same. done.
  - rewrite Nat.mod_small by lia. done.
Qed.

(** A successful comparison: the stored key equals the probing key. *)
Lemma key_match_true t cas key :
  key_match t cas key = Some true →
  ∀ i, (i < t_pd t)%nat →
    keys t !!! Z.to_nat (cas * Z.of_nat (t_pd t) + Z.of_nat i) = key !!! i.
Proof.
  unfold key_match. intros Hrun.
  pose (P := λ (m : nat) (b : bool),
    b = true →
    ∀ i, (i < m)%nat →
      keys t !!! Z.to_nat (cas * Z.of_nat (t_pd t) + Z.of_nat i) = key !!! i).
  assert (HP : P (t_pd t) true).
  { eapply for_rangeM_ind; [exact Hrun| |].
    - intros _ i Hi. lia.
    - intros k b b' Hk Hb Hbody. simpl in Hbody. destruct b.
      + destruct (int_index _) as [ix|] eqn:Eix; [|done].
        apply int_index_inv in Eix as [-> _].
        cbn [mbind option_bind] in Hbody.
        destruct (load (keys t) _) as [v|] eqn:Ev; [|done].
        apply load_inv in Ev as [_ ->].
        cbn [mbind option_bind] in Hbody. injection Hbody as <-.
        intros Heq%bool_decide_eq_true i Hi.
        destruct (decide (i = k)) as [->|]; [done|].
        apply Hb; [done|lia].
      + injection Hbody as <-. intros [=]. }
  by apply HP.
Qed.

(** One round of the loop on a well-formed table. *)
Lemma probe_spec t key nid h :
  table_wf t → (h < capacity t)%nat → 0 ≤ nid < Z.of_nat (capacity t) →
  ∃ r, probe t key nid h = Some r ∧
    match r with
    | Advances h' =>
        h' = next_bucket t h ∧ entry2nid t !! h ≠ Some (-1)
    | Returns h' t' =>
        h' = h ∧ (claims t key nid h t' ∨ ∃ cas, finds t key h t' cas)
    end.
Proof.
  intros Hwf Hh Hnid. unfold probe.
  destruct (entry2nid t !! h) as [cas|] eqn:Ecas.
  2:{ apply lookup_ge_None in Ecas. rewrite (wf_entry2nid t Hwf) in Ecas. lia. }
  cbn [mbind option_bind].
  destruct (decide (cas = -2)) as [->|Hn2].
  { eexists. split; [done|]. split; [done|]. by intros [=]. }
  destruct (decide (cas = -1)) as [->|Hn1].
  - destruct (write_key_spec
                (set_entry2nid t (<[h := -2]> (entry2nid t))) nid key)
      as (t2 & Ht2 & Hd & Hv & He & Hl & Hw & Hu);
      [apply Hwf..|done|].
    rewrite Ht2. cbn [mbind option_bind]. eexists. split; [done|].
    split; [done|]. left. unfold claims. simpl in *.
    split_and!; try done.
    rewrite He, list_insert_insert_eq. done.
  - destruct (wf_buckets t Hwf h cas Ecas) as [?|[?|Hrange]]; [done..|].
    destruct (key_match_total t cas key) as [m Hm]; [apply Hwf..|done|].
    rewrite Hm. cbn [mbind option_bind]. destruct m.
    + eexists. split; [done|]. split; [done|]. right. exists cas.
      unfold finds. split; [done|]. split; [done|]. split; [lia|].
      by apply key_match_true.
    + eexists. split; [done|]. split; [done|]. congruence.
Qed.

(** What a call that returns has done. *)
Lemma insert_loop_inv t key nid fuel :
  table_wf t → 0 ≤ nid < Z.of_nat (capacity t) →
  ∀ h h' t',
    (h < capacity t)%nat →
    insert_loop fuel t key nid h = Some (h', t') →
    (h' < capacity t)%nat ∧
    (claims t key nid h' t' ∨ ∃ cas, finds t key h' t' cas).
Proof.
  intros Hwf Hnid. induction fuel as [|fuel IH]; intros h h' t' Hh Hrun.
  { done. }
  cbn [insert_loop] in Hrun.
  destruct (probe_spec t key nid h Hwf Hh Hnid) as (r & Hr & Hspec).
  rewrite Hr in Hrun. cbn [mbind option_bind] in Hrun.
  destruct r as [h1 t1|h1].
  - injection Hrun as <- <-. destruct Hspec as [-> Hspec]. done.
  - destruct Hspec as [-> _]. eapply IH; [|done].
    by apply next_bucket_lt.
Qed.

(** The loop returns by the time it reaches an empty bucket: with an
    empty bucket [j] rounds ahead, [j + 1] rounds are enough. *)
Lemma insert_loop_returns t key nid fuel :
  table_wf t → 0 ≤ nid < Z.of_nat (capacity t) →
  ∀ h j,
    (h < capacity t)%nat → (j < fuel)%nat →
    entry2nid t !! ((h + j) `mod` capacity t)%nat = Some (-1) →
    is_Some (insert_loop fuel t key nid h).
Proof.
  intros Hwf Hnid. induction fuel as [|fuel IH]; intros h j Hh Hj Hempty.
  { lia. }
  cbn [insert_loop].
  destruct (probe_spec t key nid h Hwf Hh Hnid) as (r & Hr & Hspec).
  rewrite Hr. cbn [mbind option_bind].
  destruct r as [h1 t1|h1]; [done|].
  destruct Hspec as [-> Hne].
  destruct j as [|j].
  { rewrite Nat.add_0_r, Nat.mod_small in Hempty by done. done. }
  apply (IH _ j); [by apply next_bucket_lt|lia|].
  rewrite next_bucket_mod by done.
  rewrite Nat.Div0.add_mod_idemp_l.
  replace (h + 1 + j)%nat with (h + S j)%nat by lia. done.
Qed.

Lemma insert_loop_mono t key nid fuel fuel' h r :
  insert_loop fuel t key nid h = Some r → (fuel ≤ fuel')%nat →
  insert_loop fuel' t key nid h = Some r.
Proof.
  revert fuel' h. induction fuel as [|fuel IH]; intros fuel' h Hrun Hle.
  { done. }
  destruct fuel' as [|fuel']; [lia|]. cbn [insert_loop] in *.
  destruct (probe t key nid h) as [[h1 t1|h1]|]; try done.
  cbn [mbind option_bind] in *. apply IH; [done|lia].
Qed.

(** A call that has not returned after [fuel] rounds has moved on at each
    of the buckets it visited. *)
Lemma insert_loop_None_advances t key nid fuel :
  table_wf t → 0 ≤ nid < Z.of_nat (capacity t) →
  ∀ h, (h < capacity t)%nat →
    insert_loop fuel t key nid h = None →
    ∀ j, (j < fuel)%nat →
      probe t key nid ((h + j) `mod` capacity t)%nat =
      Some (Advances (next_bucket t ((h + j) `mod` capacity t)%nat)).
Proof.
  intros Hwf Hnid. induction fuel as [|fuel IH]; intros h Hh Hrun j Hj.
  { lia. }
  cbn [insert_loop] in Hrun.
  destruct (probe_spec t key nid h Hwf Hh Hnid) as (r & Hr & Hspec).
  rewrite Hr in Hrun. cbn [mbind option_bind] in Hrun.
  destruct r as [h1 t1|h1]; [done|]. destruct Hspec as [-> _].
  destruct j as [|j].
  - rewrite Nat.add_0_r, Nat.mod_small by done. done.
  - specialize (IH _ (next_bucket_lt t h Hh) Hrun j ltac:(lia)).
    rewrite next_bucket_mod, Nat.Div0.add_mod_idemp_l in IH by done.
    replace (h + 1 + j)%nat with (h + S j)%nat in IH by lia. done.
Qed.

(** The rounds of [insert] are all there is: when [capacity] rounds do
    not return, no number of rounds does. *)
Lemma insert_loop_stuck t key nid h :
  table_wf t → 0 ≤ nid < Z.of_nat (capacity t) → (h < capacity t)%nat →
  insert_loop (capacity t) t key nid h = None →
  ∀ fuel, insert_loop fuel t key nid h = None.
Proof.
  intros Hwf Hnid Hh Hnone.
  assert (Hadv : ∀ h', (h' < capacity t)%nat →
    probe t key nid h' = Some (Advances (next_bucket t h'))).
  { intros h' Hh'.
    pose proof (insert_loop_None_advances t key nid (capacity t) Hwf Hnid
                  h Hh Hnone ((h' + capacity t - h) `mod` capacity t)%nat)
      as Hj.
    rewrite Nat.Div0.add_mod_idemp_r in Hj.
    replace (h + (h' + capacity t - h))%nat with (h' + 1 * capacity t)%nat
      in Hj by lia.
    rewrite Nat.Div0.mod_add, (Nat.mod_small h') in Hj by done.
    apply Hj. apply Nat.mod_upper_bound. lia. }
  intros fuel. clear Hnone. revert h Hh.
  induction fuel as [|fuel IH]; intros h Hh; [done|].
  cbn [insert_loop]. rewrite Hadv by done. cbn [mbind option_bind].
  apply IH. by apply next_bucket_lt.
Qed.

(** ** The number of claimed buckets *)

Lemma count_range_lt_exists p lo n :
  (count_range p lo n < n)%nat → ∃ i, (lo ≤ i < lo + n)%nat ∧ p i = false.
Proof.
  induction n as [|n IH]; simpl; [lia|]. intros Hlt.
  destruct (p (lo + n)%nat) eqn:E.
  - destruct IH as (i & Hi & Hp); [lia|]. exists i. split; [lia|done].
  - exists (lo + n)%nat. split; [lia|done].
Qed.

Lemma count_range_change_one p q lo n h :
  (∀ i, i ≠ h → q i = p i) →
  (count_range q lo n ≤ count_range p lo n + 1)%nat.
Proof.
  intros Hpq. induction n as [|n IH]; simpl; [lia|].
  destruct (decide (lo + n = h)%nat) as [<-|Hne].
  - rewrite (count_range_ext q p lo n) by (intros; apply Hpq; lia).
    destruct (p _), (q _); lia.
  - rewrite (Hpq (lo + n)%nat Hne).
    assert (count_range q lo n ≤ count_range p lo n + 1)%nat by done.
    destruct (p _); lia.
Qed.

Lemma claimed_has_empty t :
  length (entry2nid t) = capacity t → (claimed t < capacity t)%nat →
  ∃ e, (e < capacity t)%nat ∧ entry2nid t !! e = Some (-1).
Proof.
  intros Hlen Hlt. apply count_range_lt_exists in Hlt as (e & He & Hp).
  exists e. split; [lia|].
  apply bool_decide_eq_false in Hp.
  rewrite list_lookup_lookup_total_lt by lia. f_equal.
  destruct (decide (entry2nid t !!! e = -1)); [done|]. by destruct Hp.
Qed.

(** ** What [insert] leaves behind *)

Lemma claims_wf t key nid h t' :
  table_wf t → 0 ≤ nid < Z.of_nat (capacity t) → claims t key nid h t' →
  table_wf t'.
Proof.
  intros Hwf Hnid (He & (Hpd & Hvd & HN & Hcap) & Hv & He' & Hl & _).
  destruct Hwf as [H1 H2 H3 H4 H5 H6 H7].
  split; rewrite ?Hpd, ?Hvd, ?Hcap, ?Hv, ?He', ?Hl, ?length_insert; try done.
  intros h0 e. rewrite list_lookup_insert.
  case_decide; [|by apply H7]. intros [= <-]. right. right. done.
Qed.

Lemma claims_claimed t key nid h t' :
  claims t key nid h t' → (claimed t' ≤ claimed t + 1)%nat.
Proof.
  intros (He & (Hpd & Hvd & HN & Hcap) & Hv & He' & _).
  unfold claimed. rewrite Hcap, He'.
  apply (count_range_change_one _ _ _ _ h).
  intros i Hi. by rewrite list_lookup_total_insert_ne.
Qed.

Lemma claims_keeps_buckets t key nid h t' h0 e :
  claims t key nid h t' → entry2nid t !! h0 = Some e → e ≠ -1 →
  entry2nid t' !! h0 = Some e.
Proof.
  intros (He & _ & _ & He' & _) Hh0 Hne. rewrite He'.
  rewrite list_lookup_insert_ne; [done|]. intros ->. congruence.
Qed.

Lemma insert_inv t key nid h t' :
  table_wf t → 0 ≤ nid < Z.of_nat (capacity t) →
  insert t key nid = Some (h, t') →
  (h < capacity t)%nat ∧
  (claims t key nid h t' ∨ ∃ cas, finds t key h t' cas).
Proof.
  intros Hwf Hnid. unfold insert. case_decide as Hcap; [done|].
  apply insert_loop_inv; [done..|].
  pose proof (Z.mod_pos_bound (hash (t_pd t) key) (Z.of_nat (capacity t))).
  lia.
Qed.

Lemma insert_total t key nid :
  table_wf t → 0 ≤ nid < Z.of_nat (capacity t) →
  (claimed t < capacity t)%nat →
  ∃ probes, (probes ≤ capacity t)%nat ∧
    is_Some (insert_loop probes t key nid
               (Z.to_nat (hash (t_pd t) key `mod` Z.of_nat (capacity t)))).
Proof.
  intros Hwf Hnid Hlt.
  destruct (claimed_has_empty t (wf_entry2nid t Hwf) Hlt) as (e & He & Hempty).
  set (h := Z.to_nat (hash (t_pd t) key `mod` Z.of_nat (capacity t))).
  assert (Hh : (h < capacity t)%nat).
  { pose proof (Z.mod_pos_bound (hash (t_pd t) key) (Z.of_nat (capacity t))).
    unfold h. lia. }
  set (j := ((e + capacity t - h) `mod` capacity t)%nat).
  assert (Hj : (j < capacity t)%nat) by (apply Nat.mod_upper_bound; lia).
  exists (S j). split; [lia|].
  apply (insert_loop_returns t key nid (S j) Hwf Hnid h j); [done|lia|].
  unfold j. rewrite Nat.Div0.add_mod_idemp_r.
  replace (h + (e + capacity t - h))%nat with (e + 1 * capacity t)%nat by lia.
  rewrite Nat.Div0.mod_add, Nat.mod_small by done. done.
Qed.

(** What a call that returns leaves of the table. *)
Lemma insert_preserves t key nid h t' :
  table_wf t → 0 ≤ nid < Z.of_nat (capacity t) →
  insert t key nid = Some (h, t') →
  (h < capacity t)%nat ∧ table_wf t' ∧
  (claimed t' ≤ claimed t + 1)%nat ∧
  ∀ h0 e, entry2nid t !! h0 = Some e → e ≠ -1 →
          entry2nid t' !! h0 = Some e.
Proof.
  intros Hwf Hnid Hins.
  destruct (insert_inv t key nid h t' Hwf Hnid Hins) as [Hh Hcase].
  split_and!; try done.
  - destruct Hcase as [Hc|(cas & -> & _)]; [|done]. by eapply claims_wf.
  - destruct Hcase as [Hc|(cas & -> & _)]; [|lia]. by eapply claims_claimed.
  - intros h0 e He Hne.
    destruct Hcase as [Hc|(cas & -> & _)]; [|done].
    by eapply claims_keeps_buckets.
Qed.

(** [insert] returns on a well-formed table with an empty bucket. *)
Lemma insert_returns t key nid :
  table_wf t → 0 ≤ nid < Z.of_nat (capacity t) →
  (claimed t < capacity t)%nat →
  is_Some (insert t key nid).
Proof.
  intros Hwf Hnid Hlt.
  destruct (insert_total t key nid Hwf Hnid Hlt) as (probes & Hle & [r Hr]).
  exists r. unfold insert. rewrite decide_False by lia.
  by apply (insert_loop_mono _ _ _ probes).
Qed.

(** A call run without interference: on a well-formed table with fewer
    claimed buckets than its capacity (every call claims at most one
    bucket and none is ever freed, so this holds for each of the
    [capacity] calls of a splat), [insert] returns, after at most
    [capacity] rounds of its loop; it leaves the table well-formed, claims
    at most one more bucket, and keeps every bucket that was claimed. *)
Lemma insert_alone_terminates (t : HashTableGPU) (key : list Z) (nid : Z) :
  table_wf t → 0 ≤ nid < Z.of_nat (capacity t) →
  (claimed t < capacity t)%nat →
  ∃ probes h t',
    (probes ≤ capacity t)%nat ∧
    insert_loop probes t key nid
      (Z.to_nat (hash (t_pd t) key `mod` Z.of_nat (capacity t)))
      = Some (h, t') ∧
    insert t key nid = Some (h, t') ∧
    (h < capacity t)%nat ∧ table_wf t' ∧
    (claimed t' ≤ claimed t + 1)%nat ∧
    ∀ h0 e, entry2nid t !! h0 = Some e → e ≠ -1 →
            entry2nid t' !! h0 = Some e.
Proof.
  intros Hwf Hnid Hlt.
  destruct (insert_total t key nid Hwf Hnid Hlt)
    as (probes & Hle & [[h t'] Hr]).
  assert (Hins : insert t key nid = Some (h, t')).
  { unfold insert. rewrite decide_False by lia.
    by apply (insert_loop_mono _ _ _ probes). }
  exists probes, h, t'.
  split; [exact Hle|]. split; [exact Hr|]. split; [exact Hins|].
  by apply (insert_preserves t key nid).
Qed.

Lemma HashTableGPU_new_wf pd vd N :
  Z.of_nat (N * (pd + 1)) ≤ 2147483647 →
  Z.of_nat (N * (pd + 1) * pd) ≤ 2147483647 →
  Z.of_nat (N * (pd + 1) * vd) ≤ 2147483647 →
  table_wf (HashTableGPU_new pd vd N).
Proof.
  intros H1 H2 H3. split; simpl; rewrite ?length_replicate; try done.
  intros h e He. apply lookup_replicate in He as [-> _]. by left.
Qed.

Lemma HashTableGPU_new_claimed pd vd N :
  claimed (HashTableGPU_new pd vd N) = 0%nat.
Proof.
  unfold claimed. apply count_range_false. intros h Hh. simpl in *.
  apply bool_decide_eq_false. intros Hne. apply Hne.
  apply lookup_total_replicate_2. lia.
Qed.

Lemma insert_alone_terminates_example :
  ∃ probes h t',
    (probes ≤ capacity (HashTableGPU_new 1 1 1))%nat ∧
    insert_loop probes (HashTableGPU_new 1 1 1) [5] 0
      (Z.to_nat (hash 1 [5] `mod` 2)) = Some (h, t') ∧
    insert (HashTableGPU_new 1 1 1) [5] 0 = Some (h, t') ∧
    (h < 2)%nat ∧ table_wf t' ∧
    (claimed t' ≤ claimed (HashTableGPU_new 1 1 1) + 1)%nat ∧
    ∀ h0 e, entry2nid (HashTableGPU_new 1 1 1) !! h0 = Some e → e ≠ -1 →
            entry2nid t' !! h0 = Some e.
Proof.
  apply (insert_alone_terminates (HashTableGPU_new 1 1 1) [5] 0).
  - apply HashTableGPU_new_wf; simpl; lia.
  - simpl. lia.
  - rewrite HashTableGPU_new_claimed. simpl. lia.
Defined.

(** ** The splat stage *)

(** The channel loop of [splat_kernel] adds [w * value[i]] to the [vd]
    cells of the slot at [base] and touches nothing else. *)
Lemma accumulate_spec t base w value t' :
  accumulate t base w value = Some t' →
  same_dims t t' ∧ keys t' = keys t ∧ entry2nid t' = entry2nid t ∧
  length (values t') = length (values t) ∧
  (∀ i, (i < t_vd t)%nat →
     values t' !!! Z.to_nat (base + Z.of_nat i) =
     (values t !!! Z.to_nat (base + Z.of_nat i) + w * value !!! i)%Q) ∧
  (∀ k, ¬ (base ≤ Z.of_nat k < base + Z.of_nat (t_vd t)) →
     values t' !!! k = values t !!! k).
Proof.
  unfold accumulate. intros Hrun.
  pose (P := λ (m : nat) (t' : HashTableGPU),
    same_dims t t' ∧ keys t' = keys t ∧ entry2nid t' = entry2nid t ∧
    length (values t') = length (values t) ∧
    (m ≠ 0%nat → 0 ≤ base) ∧
    (∀ i, (i < m)%nat →
       values t' !!! Z.to_nat (base + Z.of_nat i) =
       (values t !!! Z.to_nat (base + Z.of_nat i) + w * value !!! i)%Q) ∧
    (∀ k, ¬ (base ≤ Z.of_nat k < base + Z.of_nat m) →
       values t' !!! k = values t !!! k)).
  assert (HP : P (t_vd t) t').
  { eapply for_rangeM_ind; [exact Hrun| |].
    - unfold P. split_and!; try done. intros; lia.
    - intros k t0 t1 Hk (Hd & Hks & He & Hl & Hb & Hw & Hu) Hbody.
      simpl in Hbody.
      destruct (load (values t0) _) as [v|] eqn:Ev; [|done].
      apply load_inv in Ev as [Hix ->].
      cbn [mbind option_bind] in Hbody.
      destruct (store (values t0) _ _) as [vs|] eqn:Es; [|done].
      apply store_inv in Es as [_ ->].
      cbn [mbind option_bind] in Hbody. injection Hbody as <-.
      assert (Hbase : 0 ≤ base).
      { destruct k as [|k]; [lia|]. apply Hb. lia. }
      unfold P, same_dims. simpl. rewrite length_insert.
      split_and!; try done; try apply Hd.
      + intros i Hi. destruct (decide (i = k)) as [->|Hne].
        * rewrite list_lookup_total_insert_eq by lia.
          rewrite Hu by lia. done.
        * rewrite list_lookup_total_insert_ne by lia. apply Hw. lia.
      + intros j Hj. rewrite list_lookup_total_insert_ne by lia.
        apply Hu. lia. }
  destruct HP as (Hd & Hks & He & Hl & _ & Hw & Hu). split_and!; done.
Qed.

Lemma accumulate_total t base w value :
  0 ≤ base → base + Z.of_nat (t_vd t) ≤ Z.of_nat (length (values t)) →
  is_Some (accumulate t base w value).
Proof.
  intros Hb Hlen. unfold accumulate.
  destruct (for_rangeM_total
    (λ _ t', t_vd t' = t_vd t ∧ length (values t') = length (values t))
    0 (t_vd t)
    (λ i t0,
       v ← load (values t0) (base + Z.of_nat i);
       vs ← store (values t0) (base + Z.of_nat i) (v + w * value !!! i)%Q;
       Some (set_values t0 vs)) t) as (t' & Ht' & _); [done| |by rewrite Ht'].
  intros k t0 Hk [Hvd Hl]. simpl.
  rewrite load_Some by lia. cbn [mbind option_bind].
  unfold store. rewrite decide_True by lia. cbn [mbind option_bind].
  eexists. split; [done|]. simpl. by rewrite length_insert.
Qed.

Lemma wrap32_id x : int_range x → wrap32 x = x.
Proof.
  unfold int_range, wrap32. intros H. rewrite Z.mod_small by lia. lia.
Qed.

(** The steps of one round of the corner loop that returns. *)
Lemma splat_corner_inv canonical n value g r key0 d key d' :
  (n * (t_pd (table d) + 1) + r < capacity (table d))%nat →
  table_wf (table d) →
  splat_corner canonical n value g r (key0, d) = Some (key, d') →
  corner_key (t_pd (table d)) canonical (s_y g) (s_rank g) r key0 = Some key ∧
  ∃ h t1 base,
    insert (table d) key (Z.of_nat (n * (t_pd (table d) + 1) + r))
      = Some (h, t1) ∧
    (n * (t_pd (table d) + 1) + r < length (replay d))%nat ∧
    replay d' = <[(n * (t_pd (table d) + 1) + r)%nat :=
                   {| entry := h; weight := s_bary g !!! r |}]> (replay d) ∧
    lookupValue t1 h = Some base ∧
    accumulate t1 base (s_bary g !!! r) value = Some (table d').
Proof.
  intros Hnid Hwf. unfold splat_corner. cbn zeta.
  rewrite wrap32_id.
  2:{ pose proof (wf_capacity_int _ Hwf). unfold int_range. lia. }
  destruct (corner_key _ _ _ _ _ _) as [key1|] eqn:Ekey; [|done].
  cbn [mbind option_bind].
  destruct (insert _ _ _) as [[h t1]|] eqn:Eins; [|done].
  cbn [mbind option_bind].
  destruct (store (replay d) _ _) as [rp|] eqn:Erp; [|done].
  apply store_inv in Erp as [Hrp ->]. rewrite Nat2Z.id.
  cbn [mbind option_bind].
  destruct (lookupValue t1 h) as [base|] eqn:Elv; [|done].
  cbn [mbind option_bind].
  destruct (accumulate t1 base _ value) as [t2|] eqn:Eacc; [|done].
  cbn [mbind option_bind]. intros [= <- <-]. simpl.
  split; [done|]. exists h, t1, base. split_and!; try done. lia.
Qed.


(** One round of the corner loop returns and keeps the invariant. *)
Lemma splat_corner_total t0 canonical n value g r key0 d :
  let pd := t_pd t0 in
  let k := (n * (pd + 1) + r)%nat in
  device_inv t0 k d → (k < capacity t0)%nat →
  Z.of_nat pd ≤ 32767 → length canonical = ((pd + 1) * (pd + 1))%nat →
  (r ≤ pd)%nat →
  (∀ i, (i ≤ pd)%nat → 0 ≤ s_rank g !!! i ≤ Z.of_nat pd) →
  ∃ key d',
    splat_corner canonical n value g r (key0, d) = Some (key, d') ∧
    device_inv t0 (S k) d'.
Proof.
  intros pd k [(Hpd & Hvd & HN & Hcap) Hwf Hcl Hrl Hown Hrep] Hk Hmax Hcan
    Hr Hrank.
  unfold splat_corner. cbn zeta. rewrite Hpd. fold pd. fold k.
  rewrite wrap32_id.
  2:{ pose proof (wf_capacity_int _ Hwf). unfold int_range. lia. }
  destruct (corner_key_total pd canonical (s_y g) (s_rank g) r key0)
    as [key Hkey]; [done..|].
  rewrite Hkey. cbn [mbind option_bind].
  assert (Hslot : 0 ≤ Z.of_nat k < Z.of_nat (capacity (table d))) by lia.
  destruct (insert_returns (table d) key (Z.of_nat k) Hwf Hslot)
    as [[h t1] Hins]; [lia|].
  destruct (insert_preserves _ _ _ _ _ Hwf Hslot Hins)
    as (Hh & Hwf1 & Hcl1 & Hkeep).
  rewrite Hins. cbn [mbind option_bind].
  unfold store. rewrite decide_True by lia. cbn [mbind option_bind].
  rewrite Nat2Z.id.
  destruct (insert_inv _ _ _ _ _ Hwf Hslot Hins) as [_ Hcase].
  assert (Hd1 : same_dims (table d) t1).
  { destruct Hcase as [Hc|(cas & -> & _)]; [apply Hc|done]. }
  destruct Hd1 as (Hpd1 & Hvd1 & HN1 & Hcap1).
  assert (Hs : ∃ s, entry2nid t1 !! h = Some s ∧
                    0 ≤ s < Z.of_nat (capacity t1) ∧
                    (s = Z.of_nat k ∨ 0 ≤ s < Z.of_nat k)).
  { destruct Hcase as [Hc|(cas & -> & Hcas & Hrange & _)].
    - exists (Z.of_nat k). destruct Hc as (_ & _ & _ & -> & _).
      rewrite list_lookup_insert_eq by (rewrite (wf_entry2nid _ Hwf); lia).
      split; [done|]. split; [lia|by left].
    - exists cas. split; [done|]. split; [done|].
      destruct (Hown h cas Hcas) as [->|?]; [lia|by right]. }
  destruct Hs as (s & Hs & Hsr & Hsk).
  unfold lookupValue. rewrite Hs. cbn [mbind option_bind].
  rewrite int_index_Some.
  2:{ pose proof (wf_values_int _ Hwf1). unfold int_range. nia. }
  cbn [mbind option_bind].
  destruct (accumulate_total t1 (s * Z.of_nat (t_vd t1)) (s_bary g !!! r) value)
    as [t2 Hacc]; [nia|rewrite (wf_values _ Hwf1); nia|].
  rewrite Hacc. cbn [mbind option_bind].
  destruct (accumulate_spec _ _ _ _ _ Hacc)
    as ((Hpd2 & Hvd2 & HN2 & Hcap2) & Hk2 & He2 & Hl2 & _ & _).
  eexists _, _. split; [done|].
  split; simpl.
  - unfold same_dims. split_and!; congruence.
  - destruct Hwf1 as [W1 W2 W3 W4 W5 W6 W7].
    split; rewrite ?Hpd2, ?Hvd2, ?Hcap2, ?Hk2, ?He2, ?Hl2; done.
  - unfold claimed in *. rewrite Hcap2, He2. lia.
  - rewrite length_insert. congruence.
  - intros h0 s0. rewrite He2. intros Hh0.
    destruct Hcase as [Hc|(cas & -> & _)].
    + destruct Hc as (_ & _ & _ & He1 & _). rewrite He1 in Hh0.
      rewrite list_lookup_insert in Hh0. case_decide.
      * injection Hh0 as <-. right. lia.
      * destruct (Hown h0 s0 Hh0) as [?|?]; [by left|right; lia].
    + destruct (Hown h0 s0 Hh0) as [?|?]; [by left|right; lia].
  - intros m Hm. destruct (decide (m = k)) as [->|Hne].
    + eexists _, s. rewrite list_lookup_insert_eq by lia.
      split; [done|]. simpl. rewrite He2, Hcap2. done.
    + destruct (Hrep m ltac:(lia)) as (e & s0 & He & Hs0 & Hr0).
      exists e, s0. rewrite list_lookup_insert_ne by done.
      split; [done|]. rewrite He2, Hcap2, Hcap1. split; [|done].
      apply Hkeep; [done|lia].
Qed.

(** One thread of the splat kernel returns and keeps the invariant. *)
Lemma splat_point_total t0 sf canonical n pos value d :
  let pd := t_pd t0 in
  device_inv t0 (n * (pd + 1)) d → ((n + 1) * (pd + 1) ≤ capacity t0)%nat →
  (1 ≤ pd)%nat → Z.of_nat pd ≤ 32767 →
  length canonical = ((pd + 1) * (pd + 1))%nat →
  length sf = pd → length pos = pd → representable pd sf pos →
  ∃ d', splat_point sf canonical n pos value d = Some d' ∧
        device_inv t0 ((n + 1) * (pd + 1)) d'.
Proof.
  intros pd Hinv Hcap Hpd Hmax Hcan Hsf Hpos Hrep.
  unfold splat_point. cbn zeta.
  assert (Hpd' : t_pd (table d) = pd) by apply (inv_dims _ _ _ Hinv).
  rewrite Hpd'.
  destruct (geometry_defined pd sf pos Hpd Hmax Hsf Hpos Hrep)
    as (_ & _ & g & _ & _ & _ & Hg & _ & Hrank).
  rewrite Hg. cbn [mbind option_bind].
  destruct (for_rangeM_total
    (λ r (st : list Z * device), device_inv t0 (n * (pd + 1) + r) st.2)
    0 (pd + 1) (splat_corner canonical n value g) (replicate pd 0, d))
    as (st & Hst & HP).
  - simpl. by rewrite Nat.add_0_r.
  - intros r [key d1] Hr Hd1. simpl in Hd1.
    destruct (splat_corner_total t0 canonical n value g r key d1)
      as (key' & d' & Hrun & Hinv'); [done|nia|done|done|lia|done|].
    exists (key', d'). split; [done|]. simpl.
    replace (n * (pd + 1) + S r)%nat with (S (n * (pd + 1) + r)) by lia.
    done.
  - rewrite Hst. cbn [mbind option_bind]. exists st.2. split; [done|].
    replace ((n + 1) * (pd + 1))%nat with (n * (pd + 1) + (pd + 1))%nat
      by lia.
    done.
Qed.

Lemma device_inv_init pd vd N rp :
  Z.of_nat (N * (pd + 1)) ≤ 2147483647 →
  Z.of_nat (N * (pd + 1) * pd) ≤ 2147483647 →
  Z.of_nat (N * (pd + 1) * vd) ≤ 2147483647 →
  length rp = (N * (pd + 1))%nat →
  device_inv (HashTableGPU_new pd vd N) 0
    {| table := HashTableGPU_new pd vd N; replay := rp |}.
Proof.
  intros H1 H2 H3 Hrp. split; simpl.
  - done.
  - by apply HashTableGPU_new_wf.
  - by rewrite HashTableGPU_new_claimed.
  - done.
  - intros h s Hs. apply lookup_replicate in Hs as [-> _]. by left.
  - intros m Hm. lia.
Qed.

(** The splat launch returns on a call that meets the preconditions. *)
Lemma splat_total L pd vd N src ref :
  filter_pre L pd vd N src ref →
  ∃ d, splat L src ref = Some d ∧
       device_inv (HashTableGPU_new pd vd N) (N * (pd + 1)) d.
Proof.
  intros [HN Ht Hc Hsf Hrp Hpd Hmax Hcap Hk Hv Hsrc Href Hfeat Hpts].
  unfold splat. rewrite HN, Ht.
  set (t0 := HashTableGPU_new pd vd N).
  destruct (for_rangeM_total
    (λ n d, device_inv t0 (n `min` N * (pd + 1)) d) 0 (grid N)
    (λ n d,
       if decide (length ref ≤ n)%nat then Some d
       else
         pos ← ref !! n;
         value ← src !! n;
         splat_point (scaleFactor L) (canonical L) n pos value d)
    {| table := t0; replay := l_replay L |}) as (d & Hd & HP).
  - simpl. by apply device_inv_init.
  - intros n d Hn Hinv. rewrite Nat.add_0_l. case_decide as Hskip.
    + exists d. split; [done|].
      replace (S n `min` N)%nat with (n `min` N)%nat by lia. done.
    + destruct (lookup_lt_is_Some_2 ref n ltac:(lia)) as [pos Hp].
      destruct (lookup_lt_is_Some_2 src n ltac:(lia)) as [value Hval].
      rewrite Hp, Hval. cbn [mbind option_bind].
      destruct (Hpts n pos Hp) as [Hlp Hrep].
      replace (n `min` N)%nat with n in Hinv by lia.
      destruct (splat_point_total t0 (scaleFactor L) (canonical L) n pos
                  value d) as (d' & Hd' & Hinv');
        [done|simpl; nia|done|done
        |rewrite Hc; apply length_canonical_table|done|done|done|].
      exists d'. split; [done|].
      replace (S n `min` N)%nat with (n + 1)%nat by lia. done.
  - exists d. split; [done|].
    pose proof (grid_ge N).
    replace (grid N `min` N)%nat with N in HP by lia. done.
Qed.

(** One thread of the slice kernel returns after a complete splat. *)
Lemma slice_point_total t0 k d n out0 :
  device_inv t0 k d → ((n + 1) * (t_pd t0 + 1) ≤ k)%nat →
  is_Some (slice_point d n out0).
Proof.
  intros [(Hpd & Hvd & HN & Hcap) Hwf _ _ _ Hrep] Hk.
  unfold slice_point. cbn zeta. rewrite Hpd, Hvd.
  match goal with
  | |- context [for_rangeM ?lo ?n ?body ?s] =>
      destruct (for_rangeM_total (λ _ _, True) lo n body s) as (o & E & _)
  end; [done| |by rewrite E].
  intros r o Hr _. simpl.
  destruct (Hrep (n * (t_pd t0 + 1) + r)%nat ltac:(nia))
    as (e & s & He & Hs & Hsr).
  rewrite He. cbn [mbind option_bind].
  unfold lookupValue. rewrite Hs. cbn [mbind option_bind].
  rewrite int_index_Some.
  2:{ pose proof (wf_values_int _ Hwf). unfold int_range. nia. }
  cbn [mbind option_bind].
  match goal with
  | |- context [for_rangeM ?lo ?n ?body ?s] =>
      destruct (for_rangeM_total (λ _ _, True) lo n body s) as (o' & E' & _)
  end; [done| |by exists o'].
  intros j o1 Hj _. simpl.
  rewrite load_Some by (rewrite (wf_values _ Hwf); nia).
  by eexists.
Qed.

(** The slice launch returns after a complete splat. *)
Lemma slice_total L pd vd N d src :
  l_N L = N → length src = N →
  device_inv (HashTableGPU_new pd vd N) (N * (pd + 1)) d →
  is_Some (slice L d src).
Proof.
  intros HN Hsrc Hinv. unfold slice.
  match goal with
  | |- context [for_rangeM ?lo ?n ?body ?s] =>
      destruct (for_rangeM_total (λ _ (res : list (list Q)), length res = N)
                  lo n body s) as (res & E & _)
  end; [by rewrite length_fmap| |by rewrite E].
  intros n res Hn Hlen. simpl. case_decide as Hskip.
  { by exists res. }
  assert (HtN : t_N (table d) = N) by apply (inv_dims _ _ _ Hinv).
  destruct (lookup_lt_is_Some_2 res n ltac:(lia)) as [out0 Hout0].
  rewrite Hout0. cbn [mbind option_bind].
  destruct (slice_point_total _ _ d n out0 Hinv) as [out Hout];
    [simpl; nia|].
  rewrite Hout. cbn [mbind option_bind]. eexists. split; [done|].
  by rewrite length_insert.
Qed.

(** The threads of the splat kernel taken one after the other: on a call
    that meets the preconditions, [filter] returns a buffer of the shape
    of [features]; row [n] holds, on each channel, the recombination of
    the lattice contributions computed by the slice stage from the state
    left by the splat stage. *)
Lemma filter_in_order (L : PermutohedralLatticeGPU) (pd vd N : nat)
    (src ref : list (list Q)) :
  filter_pre L pd vd N src ref →
  ∃ d out,
    splat L src ref = Some d ∧ slice L d src = Some out ∧
    filter L src ref = Some out ∧
    length out = length src ∧
    ∀ n feature, src !! n = Some feature →
      ∃ row,
        out !! n = Some row ∧ length row = length feature ∧
        ∀ j, (j < vd)%nat →
          (row !!! j == sum_range (slice_term d n j) 0 (pd + 1))%Q.
Proof.
  intros Hpre.
  destruct (splat_total L pd vd N src ref Hpre) as (d & Hd & Hinv).
  destruct (slice_total L pd vd N d src (pre_N _ _ _ _ _ _ Hpre)
              (pre_src _ _ _ _ _ _ Hpre) Hinv) as [out Hout].
  exists d, out. split; [done|]. split; [done|]. split.
  { unfold filter. rewrite Hd. done. }
  destruct (inv_dims _ _ _ Hinv) as (Hpd & Hvd & HtN & Hcap).
  simpl in Hpd, Hvd, HtN.
  split.
  { apply for_rangeM_cellwise in Hout as [Hlen _].
    by rewrite Hlen, length_fmap. }
  intros n feature Hn.
  pose proof (lookup_lt_Some _ _ _ Hn) as Hlt.
  rewrite (pre_src _ _ _ _ _ _ Hpre) in Hlt.
  pose proof (pre_features _ _ _ _ _ _ Hpre n feature Hn) as Hfl.
  destruct (slice_row_thread L d src out n feature Hout)
    as (row & Hrow & Hpoint).
  - rewrite (pre_N _ _ _ _ _ _ Hpre). done.
  - rewrite (pre_N _ _ _ _ _ _ Hpre). done.
  - done.
  - apply slice_point_spec in Hpoint as [Hl Hs];
      [|rewrite length_replicate; congruence].
    exists row. split; [done|]. split; [congruence|].
    intros j Hj. rewrite (Hs j ltac:(lia)), lookup_total_zeros, <- Hpd.
    ring.
Qed.


(** ** End-to-end scenario B *)

(** The line lattice ([pd = 1]), whatever the scale factor [s]. *)
Lemma elevate_line (s p : Q) :
  ∃ e0 e1, elevate 1 [s] [p] [0%Q; 0%Q] = Some [e0; e1] ∧
    (e0 == p * s)%Q ∧ (e1 == - (p * s))%Q.
Proof.
  eexists _, _. split; [reflexivity|].
  cbn -[Qplus Qmult Qminus Qopp Qdiv]. unfold Qnat. simpl inject_Z.
  split; ring.
Qed.

Lemma round_axes_line (x0 x1 : Q) :
  (x0 == 0)%Q → (x1 == 0)%Q →
  round_axes 1 [x0; x1] (rounded_init 1) =
    Some {| r_y := [0; 0]; r_rank := [0; 0]; r_bary := [0%Q; 0%Q; 0%Q];
            r_h := 0 |}.
Proof.
  intros H0 H1. unfold round_axes, for_rangeM.
  cbn [seq foldl Nat.add].
  cbn -[Qdiv round_half_away cast_int16 wrap16 Z.quot].
  rewrite !round_half_away_origin by done. reflexivity.
Qed.

(** Equal remainders: the comparison fails and the later axis is ranked
    higher. *)
Lemma rank_pairs_line (x0 x1 : Q) :
  (x0 == 0)%Q → (x1 == 0)%Q →
  rank_pairs 1 [x0; x1] [0; 0] [0; 0] = [0; 1].
Proof.
  intros H0 H1. unfold rank_pairs, for_range. cbn [seq foldl Nat.add Nat.sub].
  assert (E : Qltb (remainder [x0; x1] [0; 0] 0) (remainder [x0; x1] [0; 0] 1)
              = false).
  { unfold Qltb. apply negb_false_iff, Qle_bool_iff.
    unfold remainder. cbn -[Qminus]. rewrite H0, H1. apply Qle_refl. }
  rewrite E. reflexivity.
Qed.

Lemma barycentric_line (x0 x1 : Q) :
  (x0 == 0)%Q → (x1 == 0)%Q →
  ∃ b0 b1 b2,
    barycentric 1 [x0; x1] [0; 0] [0; 1] [0%Q; 0%Q; 0%Q] = Some [b0; b1; b2] ∧
    (b0 == 1)%Q ∧ (b1 == 0)%Q.
Proof.
  intros H0 H1.
  lazy -[Qplus Qmult Qminus Qopp Qdiv Qinv Qeq inject_Z].
  eexists _, _, _. split; [reflexivity|].
  rewrite H0, H1. split; reflexivity.
Qed.

(** The origin of the line lies on a lattice vertex: weight [1] on
    corner [0], weight [0] on corner [1]. *)
Lemma geometry_line (s : Q) :
  ∃ e b0 b1 b2,
    splat_geometry 1 [s] [0%Q] =
      Some {| s_elevated := e; s_y := [0; 0]; s_rank := [0; 1];
              s_bary := [b0; b1; b2] |} ∧
    (b0 == 1)%Q ∧ (b1 == 0)%Q.
Proof.
  destruct (elevate_line s 0) as (e0 & e1 & He & H0 & H1).
  assert (H0' : (e0 == 0)%Q) by (rewrite H0; ring).
  assert (H1' : (e1 == 0)%Q) by (rewrite H1; ring).
  destruct (barycentric_line e0 e1 H0' H1')
    as (b0 & b1 & b2 & Hb & Hb0 & Hb1).
  exists [e0; e1], b0, b1, b2. split; [|done].
  unfold splat_geometry. change (replicate (1 + 1) 0%Q) with [0%Q; 0%Q].
  rewrite He. cbn [mbind option_bind].
  rewrite round_axes_line by done.
  cbn [mbind option_bind r_y r_rank r_h r_bary].
  rewrite rank_pairs_line by done.
  change (rank_correct 1 0 ([0; 0], [0; 1])) with ([0; 0], [0; 1]).
  cbv iota beta. rewrite Hb. reflexivity.
Qed.

(** The device after the splat of one point at the origin of the line:
    corner [0] owns bucket [0] and slot [0], corner [1] bucket [1] and
    slot [1]. *)
Lemma splat_line (sqrt_scalar : Q → Q) (v : Q) :
  ∃ b0 b1,
    splat (PermutohedralLatticeGPU_new sqrt_scalar 1 1 1) [[v]] [[0%Q]]
      = Some {| table :=
                  {| t_pd := 1; t_vd := 1; t_N := 1; capacity := 2;
                     keys := [0; 1];
                     values := [(0 + b0 * v)%Q; (0 + b1 * v)%Q];
                     entry2nid := [0; 1] |};
                replay := [ {| entry := 0; weight := b0 |};
                            {| entry := 1; weight := b1 |} ] |} ∧
    (b0 == 1)%Q ∧ (b1 == 0)%Q.
Proof.
  unfold splat. change (grid _) with (1 + 1023)%nat.
  rewrite for_rangeM_idle.
  2:{ intros k d Hk. rewrite decide_True; [done|simpl; lia]. }
  unfold for_rangeM. cbn [seq foldl mbind option_bind].
  rewrite decide_False by (simpl; lia).
  cbn [lookup list_lookup mbind option_bind].
  unfold splat_point.
  cbn [table hashTable PermutohedralLatticeGPU_new HashTableGPU_new t_pd
       scaleFactor].
  change (scale_factors sqrt_scalar 1)
    with [(Qnat 2 * sqrt_scalar (2 # 3) / sqrt_scalar (Qnat 2))%Q].
  destruct (geometry_line
              (Qnat 2 * sqrt_scalar (2 # 3) / sqrt_scalar (Qnat 2)))
    as (e & b0 & b1 & b2 & Hg & Hb0 & Hb1).
  rewrite Hg. cbn [mbind option_bind].
  exists b0, b1. split; [|done].
  lazy -[Qplus Qmult Qminus Qopp Qdiv Qinv Qeq inject_Z].
  reflexivity.
Qed.

(** The slice of that device. *)
Lemma slice_line (sqrt_scalar : Q → Q) (v b0 b1 : Q) :
  slice (PermutohedralLatticeGPU_new sqrt_scalar 1 1 1)
    {| table :=
         {| t_pd := 1; t_vd := 1; t_N := 1; capacity := 2;
            keys := [0; 1];
            values := [(0 + b0 * v)%Q; (0 + b1 * v)%Q];
            entry2nid := [0; 1] |};
       replay := [ {| entry := 0; weight := b0 |};
                   {| entry := 1; weight := b1 |} ] |} [[v]]
  = Some [[(0 + b0 * (0 + b0 * v) / slice_norm 1
              + b1 * (0 + b1 * v) / slice_norm 1)%Q]].
Proof.
  unfold slice. change (grid _) with (1 + 1023)%nat.
  rewrite for_rangeM_idle.
  2:{ intros k d Hk. rewrite decide_True; [done|simpl; lia]. }
  lazy -[Qplus Qmult Qminus Qopp Qdiv Qinv Qeq inject_Z Qpower slice_norm].
  reflexivity.
Qed.

(** C2, as amended: on the line lattice ([pd = 1], [vd = 1]) a single
    point at position [0] with feature [v] comes back as
    [v / (1 + 2^-1)], two thirds of [v], whatever the square root used
    for the scale factor: the point lies on a lattice vertex, its weights
    are [1] and [0], and [slice] divides by the normalisation constant,
    which nothing compensates. *)
Theorem filter_single_point_is_two_thirds (sqrt_scalar : Q → Q) (v : Q) :
  ∃ out,
    filter (PermutohedralLatticeGPU_new sqrt_scalar 1 1 1) [[v]] [[0%Q]]
      = Some [[out]] ∧
    (out == v / (1 + 2 ^ (-1)))%Q ∧ (out == (2 # 3) * v)%Q.
Proof.
  destruct (splat_line sqrt_scalar v) as (b0 & b1 & Hs & Hb0 & Hb1).
  eexists. split.
  { unfold filter. rewrite Hs. cbn [mbind option_bind]. apply slice_line. }
  assert (Hnorm : (slice_norm 1 == 3 # 2)%Q) by (vm_compute; reflexivity).
  rewrite Hb0, Hb1, Hnorm. change (2 ^ (-1))%Q with (1 # 2)%Q.
  split; field.
Qed.

(** C2 as stated fails: a single point at position [0] with feature [1]
    comes back as [2/3], not [1]. *)
Lemma filter_single_point_is_not_one :
  ∃ out,
    filter (PermutohedralLatticeGPU_new sqrt_6 1 1 1) [[1%Q]] [[0%Q]]
      = Some [[out]] ∧
    (out == 2 # 3)%Q ∧ ¬ (out == 1)%Q.
Proof.
  eexists. split; [vm_compute; reflexivity|]. split.
  - vm_compute. reflexivity.
  - vm_compute. discriminate.
Qed.

(** ** The entry point *)

(** Membership in a trace given by its events. *)
Ltac trace_in H := apply list_elem_of_In in H; cbn [In] in H.

Ltac trace_out :=
  let H := fresh in
  intros [H|H]; trace_in H; intuition discriminate.

(** The guarded calls of the entry point, one verdict after the other. *)
Ltac host_cases :=
  unfold gpuErrchk_malloc, gpuErrchk_synchronize, launch;
  repeat (match goal with
          | |- context [match int_index ?x with _ => _ end] =>
              destruct (int_index x) eqn:?
          | |- context [if ?f ?b then _ else _] => destruct (f b) eqn:?
          end; cbn [fst snd]).

Lemma gpuErrchk_malloc_refused alloc bytes rest :
  alloc bytes = false → gpuErrchk_malloc alloc bytes rest = ([Malloc bytes], Exit).
Proof. intros H. unfold gpuErrchk_malloc. by rewrite H. Qed.




(** ** Interleaved executions *)

Lemma run_cons i schedule m : run (i :: schedule) m = step i m ≫= run schedule.
Proof.
  unfold run. simpl. destruct (step i m) as [m'|]; [done|].
  simpl. induction schedule as [|j l IH]; [done|]. simpl. done.
Qed.

Lemma run_app l1 l2 m : run (l1 ++ l2) m = run l1 m ≫= run l2.
Proof.
  revert m. induction l1 as [|i l1 IH]; intros m; [done|].
  rewrite <- app_comm_cons, !run_cons.
  destruct (step i m) as [m'|]; [|done]. simpl. apply IH.
Qed.

Lemma set_pc_set_pc th p q : set_pc (set_pc th p) q = set_pc th q.
Proof. done. Qed.

(** A thread that runs alone performs [insert]: the interleaved
    semantics restricted to one thread is the loop of [insert_loop]. *)
Lemma solo_insert fuel :
  ∀ m i th h h' t',
    m_threads m !! i = Some th → th_pc th = Probing h →
    insert_loop fuel (m_table m) (th_key th)
      (wrap32 (Z.of_nat (th_slot th))) h = Some (h', t') →
    ∃ k,
      run (replicate k i) m =
      Some {| m_table := t'; m_replay := m_replay m;
              m_threads := <[i := set_pc th (Returned h')]> (m_threads m) |}.
Proof.
  induction fuel as [|fuel IH]; intros m i th h h' t' Hth Hpc Hrun; [done|].
  cbn [insert_loop] in Hrun. unfold probe in Hrun.
  assert (Hi : (i < length (m_threads m))%nat) by (by eapply lookup_lt_Some).
  destruct (entry2nid (m_table m) !! h) as [cas|] eqn:Ecas; [|done].
  cbn [mbind option_bind] in Hrun.
  (* the machine after one step that moves on to the next bucket *)
  assert (Hadv :
    step i m = Some {| m_table := m_table m; m_replay := m_replay m;
                       m_threads := <[i := set_pc th
                                            (Probing (next_bucket (m_table m) h))]>
                                      (m_threads m) |} →
    insert_loop fuel (m_table m) (th_key th)
      (wrap32 (Z.of_nat (th_slot th))) (next_bucket (m_table m) h)
      = Some (h', t') →
    ∃ k, run (replicate k i) m =
         Some {| m_table := t'; m_replay := m_replay m;
                 m_threads := <[i := set_pc th (Returned h')]> (m_threads m) |}).
  { intros Hstep Hrest.
    set (m1 := {| m_table := m_table m; m_replay := m_replay m;
                  m_threads := <[i := set_pc th
                                        (Probing (next_bucket (m_table m) h))]>
                                 (m_threads m) |}) in *.
    destruct (IH m1 i (set_pc th (Probing (next_bucket (m_table m) h)))
                (next_bucket (m_table m) h) h' t') as [k Hk].
    - unfold m1. cbn [m_threads]. by apply list_lookup_insert_eq.
    - done.
    - exact Hrest.
    - exists (S k). cbn [replicate]. rewrite run_cons, Hstep.
      cbn [mbind option_bind]. rewrite Hk. unfold m1.
      cbn [m_table m_replay m_threads].
      rewrite list_insert_insert_eq. done. }
  destruct (decide (cas = -2)) as [->|Hn2].
  { apply Hadv; [|done]. unfold step. rewrite Hth. cbn [mbind option_bind].
    rewrite Hpc, Ecas. cbn [mbind option_bind].
    rewrite decide_True by done. done. }
  destruct (decide (cas = -1)) as [->|Hn1].
  - destruct (write_key _ _ _) as [t2|] eqn:Ew; [|done].
    cbn [mbind option_bind] in Hrun. injection Hrun as <- <-.
    exists 3%nat. cbn [replicate]. rewrite run_cons.
    unfold step at 1. rewrite Hth. cbn [mbind option_bind].
    rewrite Hpc, Ecas. cbn [mbind option_bind].
    rewrite decide_False by done. rewrite decide_True by done.
    cbn [mbind option_bind]. rewrite run_cons.
    unfold step at 1. cbn [m_threads m_table m_replay].
    rewrite list_lookup_insert_eq by done. cbn [mbind option_bind].
    cbn [th_pc set_pc th_key th_slot]. rewrite Ew.
    cbn [mbind option_bind]. rewrite run_cons.
    unfold step at 1. cbn [m_threads m_table m_replay].
    rewrite list_lookup_insert_eq by (by rewrite length_insert).
    cbn [mbind option_bind th_pc set_pc th_key th_slot].
    rewrite !list_insert_insert_eq. done.
  - destruct (key_match _ _ _) as [[|]|] eqn:Em; [| |done].
    + cbn [mbind option_bind] in Hrun. injection Hrun as <- <-.
      exists 1%nat. cbn [replicate]. rewrite run_cons.
      unfold step. rewrite Hth. cbn [mbind option_bind].
      rewrite Hpc, Ecas. cbn [mbind option_bind].
      rewrite !decide_False by done. rewrite Em. done.
    + apply Hadv; [|done]. unfold step. rewrite Hth.
      cbn [mbind option_bind]. rewrite Hpc, Ecas. cbn [mbind option_bind].
      rewrite !decide_False by done. rewrite Em. done.
Qed.

Lemma solo_insert_witness :
  let th := {| th_key := [5]; th_slot := 0; th_weight := 1%Q;
               th_value := [1%Q]; th_pc := Probing 0 |} in
  let m := {| m_table := HashTableGPU_new 1 1 1; m_replay := [];
              m_threads := [th] |} in
  ∃ h' t',
    insert_loop 2 (m_table m) [5] 0 0 = Some (h', t') ∧
    ∃ k, run (replicate k 0%nat) m =
         Some {| m_table := t'; m_replay := [];
                 m_threads := [set_pc th (Returned h')] |}.
Proof.
  intros th m. eexists _, _. split; [vm_compute; reflexivity|].
  apply (solo_insert 2 m 0%nat th 0%nat); [reflexivity|reflexivity|].
  vm_compute. reflexivity.
Defined.

(** C1 fails on the code: two points at the same position compute the
    same key for corner 0; when the second thread probes the bucket while
    the first holds it locked, it moves on to the next bucket and claims
    it.  The two instances then return different buckets, owned by
    different slots, and their contributions are accumulated apart. *)
Theorem insert_race_splits_key :
  let L := PermutohedralLatticeGPU_new sqrt_6 1 1 2 in
  ∃ th0 th1 m,
    corner_thread (scaleFactor L) (canonical L) (hashTable L)
      0 [0%Q] [1%Q] 0 = Some th0 ∧
    corner_thread (scaleFactor L) (canonical L) (hashTable L)
      1 [0%Q] [1%Q] 0 = Some th1 ∧
    th_key th0 = th_key th1 ∧
    run [0; 1; 1; 1; 1; 1; 0; 0; 0]%nat
      {| m_table := hashTable L; m_replay := l_replay L;
         m_threads := [th0; th1] |} = Some m ∧
    th_pc <$> m_threads m = [Finished 0 0; Finished 1 2] ∧
    entry2nid (m_table m) = [0; 2; -1; -1] ∧
    Forall2 Qeq (values (m_table m)) [1%Q; 0%Q; 1%Q; 0%Q].
Proof.
  intros L. eexists _, _, _.
  split; [vm_compute; reflexivity|].
  split; [vm_compute; reflexivity|].
  split; [reflexivity|].
  split; [vm_compute; reflexivity|].
  split; [reflexivity|]. split; [reflexivity|].
  repeat constructor.
Qed.

(** The same two instances one after the other share bucket and slot. *)
Lemma insert_in_turn_shares_slot :
  let L := PermutohedralLatticeGPU_new sqrt_6 1 1 2 in
  ∃ th0 th1 m,
    corner_thread (scaleFactor L) (canonical L) (hashTable L)
      0 [0%Q] [1%Q] 0 = Some th0 ∧
    corner_thread (scaleFactor L) (canonical L) (hashTable L)
      1 [0%Q] [1%Q] 0 = Some th1 ∧
    run [0; 0; 0; 0; 1; 1]%nat
      {| m_table := hashTable L; m_replay := l_replay L;
         m_threads := [th0; th1] |} = Some m ∧
    th_pc <$> m_threads m = [Finished 0 0; Finished 0 0] ∧
    entry2nid (m_table m) = [0; -1; -1; -1] ∧
    Forall2 Qeq (values (m_table m)) [2%Q; 0%Q; 0%Q; 0%Q].
Proof.
  intros L. eexists _, _, _.
  split; [vm_compute; reflexivity|].
  split; [vm_compute; reflexivity|].
  split; [vm_compute; reflexivity|].
  split; [reflexivity|]. split; [reflexivity|].
  repeat constructor.
Qed.

(** ** Termination of [insert] under interleaving *)

Lemma thread_inv_grows t t' th c :
  table_grows t t' → thread_inv t th c → thread_inv t' th c.
Proof.
  intros (Hpd & Hcap & Hne & Hpos) (Hs & Hc & Hpc).
  unfold thread_inv, start_bucket in *. rewrite Hpd, Hcap.
  split; [done|]. split; [done|].
  destruct (th_pc th); [|destruct Hpc; split; auto..|done].
  destruct Hpc as [Hh Hk]. split; [done|]. intros k Hlt. by apply Hne, Hk.
Qed.

Lemma table_grows_refl t : table_grows t t.
Proof. done. Qed.

Lemma table_grows_trans t1 t2 t3 :
  table_grows t1 t2 → table_grows t2 t3 → table_grows t1 t3.
Proof.
  intros (Hpd & Hcap & Hne & Hpos) (Hpd' & Hcap' & Hne' & Hpos').
  split; [congruence|]. split; [congruence|]. split; auto.
Qed.

(** A thread that has passed every bucket has seen a full table. *)
Lemma passed_all_full t h0 :
  length (entry2nid t) = capacity t →
  (∀ k, (k < capacity t)%nat →
     entry2nid t !!! ((h0 + k) `mod` capacity t)%nat ≠ -1) →
  claimed t = capacity t.
Proof.
  intros Hlen Hall. unfold claimed. apply count_range_true.
  intros e He. apply bool_decide_eq_true.
  set (k := ((e + capacity t - h0 `mod` capacity t) `mod` capacity t)%nat).
  assert (Hk : (k < capacity t)%nat) by (apply Nat.mod_upper_bound; lia).
  specialize (Hall k Hk).
  replace ((h0 + k) `mod` capacity t)%nat with e in Hall; [done|].
  unfold k. rewrite <- (Nat.Div0.add_mod_idemp_l h0).
  rewrite Nat.Div0.add_mod_idemp_r.
  pose proof (Nat.mod_upper_bound h0 (capacity t) ltac:(lia)).
  replace (h0 `mod` capacity t + (e + capacity t - h0 `mod` capacity t))%nat
    with (e + 1 * capacity t)%nat by lia.
  rewrite Nat.Div0.mod_add, Nat.mod_small by lia. done.
Qed.

Lemma claimed_fill t t' h v :
  capacity t' = capacity t → entry2nid t' = <[h := v]> (entry2nid t) →
  (claimed t' ≤ claimed t + 1)%nat.
Proof.
  intros Hcap He. unfold claimed. rewrite Hcap, He.
  apply (count_range_change_one _ _ _ _ h).
  intros i Hi. by rewrite list_lookup_total_insert_ne.
Qed.

Lemma claimed_refill t t' h v :
  length (entry2nid t) = capacity t →
  capacity t' = capacity t → entry2nid t' = <[h := v]> (entry2nid t) →
  entry2nid t !!! h ≠ -1 → v ≠ -1 →
  claimed t' = claimed t.
Proof.
  intros Hlen Hcap He Hh Hv. unfold claimed. rewrite Hcap, He.
  apply count_range_ext. intros i Hi.
  destruct (decide (i = h)) as [->|Hne].
  - rewrite list_lookup_total_insert_eq by lia.
    rewrite !bool_decide_eq_true_2; done.
  - by rewrite list_lookup_total_insert_ne.
Qed.

Lemma claimed_same t t' :
  capacity t' = capacity t → entry2nid t' = entry2nid t →
  claimed t' = claimed t.
Proof. intros Hcap He. unfold claimed. by rewrite Hcap, He. Qed.

Lemma probing_leave threads i th p :
  threads !! i = Some th → is_probing (th_pc th) = true →
  is_probing p = false →
  (probing (<[i := set_pc th p]> threads) + 1 ≤ probing threads)%nat.
Proof.
  intros Hi Hp Hq. unfold probing. rewrite length_insert.
  pose proof (lookup_lt_Some _ _ _ Hi) as Hlt.
  assert ((count_range
            (λ j, is_probing (th_pc (<[i := set_pc th p]> threads !!! j)))
            0 (length threads)
          < count_range (λ j, is_probing (th_pc (threads !!! j)))
              0 (length threads))%nat); [|lia].
  apply (count_range_strict _ _ _ _ i).
  - intros j Hj. destruct (decide (j = i)) as [->|Hne].
    + rewrite list_lookup_total_insert_eq by lia. simpl. by rewrite Hq.
    + by rewrite list_lookup_total_insert_ne.
  - lia.
  - rewrite list_lookup_total_insert_eq by lia. done.
  - by rewrite (list_lookup_total_correct _ _ _ Hi).
Qed.

Lemma probing_keep threads i th p :
  threads !! i = Some th → is_probing p = is_probing (th_pc th) →
  probing (<[i := set_pc th p]> threads) = probing threads.
Proof.
  intros Hi Hp. unfold probing. rewrite length_insert.
  pose proof (lookup_lt_Some _ _ _ Hi) as Hlt.
  apply count_range_ext. intros j Hj.
  destruct (decide (j = i)) as [->|Hne].
  - rewrite list_lookup_total_insert_eq by lia.
    by rewrite (list_lookup_total_correct _ _ _ Hi).
  - by rewrite list_lookup_total_insert_ne.
Qed.

Lemma probing_le threads : (probing threads ≤ length threads)%nat.
Proof. apply count_range_le. Qed.

Lemma probing_pos threads i th :
  threads !! i = Some th → is_probing (th_pc th) = true →
  (1 ≤ probing threads)%nat.
Proof.
  intros Hi Hp.
  pose proof (probing_leave threads i th (Locked 0) Hi Hp eq_refl). lia.
Qed.

(** The invariant after a step of thread [i] that leaves the table
    growing. *)
Lemma machine_inv_step m c i th t' rp' p c' :
  machine_inv m c → m_threads m !! i = Some th →
  table_wf t' → table_grows (m_table m) t' → length rp' = capacity t' →
  length c' = length c → (∀ j, j ≠ i → c' !!! j = c !!! j) →
  thread_inv t' (set_pc th p) (c' !!! i) →
  (claimed t' + probing (<[i := set_pc th p]> (m_threads m))
   ≤ capacity t')%nat →
  machine_inv {| m_table := t'; m_replay := rp';
                 m_threads := <[i := set_pc th p]> (m_threads m) |} c' ∧
  table_grows (m_table m) t'.
Proof.
  intros [Hwf Hrp Hlc Hth Hroom] Hi Hwf' Hgrow Hrp' Hlc' Hframe Hinv' Hroom'.
  split; [|done].
  split; cbn [m_table m_replay m_threads]; try done.
  - rewrite length_insert. congruence.
  - intros j thj Hj. destruct (decide (j = i)) as [->|Hne].
    + rewrite list_lookup_insert_eq in Hj by (by eapply lookup_lt_Some).
      injection Hj as <-. done.
    + rewrite list_lookup_insert_ne in Hj by done.
      rewrite Hframe by done. eapply thread_inv_grows; [done|]. by apply Hth.
Qed.

(** A round that moves on. *)
Lemma machine_inv_move m c i th h :
  machine_inv m c → m_threads m !! i = Some th → th_pc th = Probing h →
  entry2nid (m_table m) !!! h ≠ -1 →
  machine_inv
    {| m_table := m_table m; m_replay := m_replay m;
       m_threads :=
         <[i := set_pc th (Probing (next_bucket (m_table m) h))]>
           (m_threads m) |}
    (<[i := S (c !!! i)]> c) ∧
  table_grows (m_table m) (m_table m).
Proof.
  intros Hinv Hi Hpc Hne.
  pose proof Hinv as [Hwf Hrp Hlc Hth Hroom].
  pose proof (lookup_lt_Some _ _ _ Hi) as Hlt.
  destruct (Hth i th Hi) as (Hslot & Hc & Hp). rewrite Hpc in Hp.
  destruct Hp as [Hh Hpassed].
  set (t := m_table m) in *. set (h0 := start_bucket t th) in *.
  assert (Hpassed' : ∀ k, (k < S (c !!! i))%nat →
            entry2nid t !!! ((h0 + k) `mod` capacity t)%nat ≠ -1).
  { intros k Hk. destruct (decide (k = c !!! i)) as [->|Hne'].
    - by rewrite <- Hh.
    - apply Hpassed. lia. }
  assert (Hnext : (S (c !!! i) < capacity t)%nat).
  { destruct (decide (S (c !!! i) < capacity t)%nat) as [|Hge]; [done|].
    assert (claimed t = capacity t) as Hfull.
    { apply (passed_all_full t h0); [apply Hwf|].
      intros k Hk. apply Hpassed'. lia. }
    pose proof (probing_pos (m_threads m) i th Hi) as Hpos.
    rewrite Hpc in Hpos. specialize (Hpos eq_refl). lia. }
  apply (machine_inv_step m c i th); try done.
  - by rewrite length_insert.
  - intros j Hj. by rewrite list_lookup_total_insert_ne.
  - rewrite list_lookup_total_insert_eq by lia.
    split; [done|]. split; [done|]. cbn [set_pc th_pc].
    change (start_bucket t (set_pc th _)) with h0. split; [|done].
    rewrite next_bucket_mod by (rewrite Hh; apply Nat.mod_upper_bound; lia).
    rewrite Hh, Nat.Div0.add_mod_idemp_l. f_equal. lia.
  - rewrite probing_keep; [done|done|]. by rewrite Hpc.
Qed.

(** Every thread that has not finished can take its next step, whatever
    the other threads have done, and the invariant is kept. *)
Lemma step_counting_inv m c i th :
  machine_inv m c → m_threads m !! i = Some th →
  phase (th_pc th) ≠ 4%nat →
  ∃ m' c', step_counting i (m, c) = Some (m', c') ∧ machine_inv m' c' ∧
           table_grows (m_table m) (m_table m').
Proof.
  intros Hinv Hi Hph.
  pose proof Hinv as [Hwf Hrp Hlc Hth Hroom].
  pose proof (lookup_lt_Some _ _ _ Hi) as Hlt.
  destruct (Hth i th Hi) as (Hslot & Hc & Hp).
  assert (Hnid : wrap32 (Z.of_nat (th_slot th)) = Z.of_nat (th_slot th)).
  { apply wrap32_id. pose proof (wf_capacity_int _ Hwf).
    unfold int_range. lia. }
  unfold step_counting. cbn [fst snd]. unfold step. rewrite Hi.
  cbn [mbind option_bind]. rewrite Hnid.
  rewrite (list_lookup_total_correct _ _ _ Hi).
  destruct (th_pc th) as [h|h|h|h|h base] eqn:Hpc; [| | | |done].
  - (* Probing *)
    destruct Hp as [Hh Hpassed].
    assert (Hhlt : (h < capacity (m_table m))%nat).
    { rewrite Hh. apply Nat.mod_upper_bound. lia. }
    destruct (lookup_lt_is_Some_2 (entry2nid (m_table m)) h) as [cas Hcas].
    { rewrite (wf_entry2nid _ Hwf). done. }
    pose proof (list_lookup_total_correct _ _ _ Hcas) as Hcas'.
    rewrite Hcas. cbn [mbind option_bind].
    destruct (decide (cas = -2)) as [->|Hn2].
    { eexists _, _. split; [reflexivity|]. cbn [m_table m_threads].
      rewrite list_lookup_total_insert_eq by done. cbn [set_pc th_pc moved].
      apply machine_inv_move; try done. rewrite Hcas'. done. }
    destruct (decide (cas = -1)) as [->|Hn1].
    { eexists _, _. split; [reflexivity|]. cbn [m_table m_threads].
      rewrite list_lookup_total_insert_eq by done. cbn [set_pc th_pc moved].
      set (t' := set_entry2nid (m_table m) (<[h:=-2]> (entry2nid (m_table m)))).
      apply (machine_inv_step m c i th); try done.
      - destruct Hwf as [H1 H2 H3 H4 H5 H6 H7].
        split; cbn; rewrite ?length_insert; try done.
        intros h1 e. rewrite list_lookup_insert.
        case_decide; [|by apply H7]. intros [= <-]. auto.
      - split; [done|]. split; [done|]. cbn. split.
        + intros h1 Hne. destruct (decide (h1 = h)) as [->|Hd].
          * rewrite list_lookup_total_insert_eq; [done|].
            rewrite (wf_entry2nid _ Hwf). done.
          * by rewrite list_lookup_total_insert_ne.
        + intros h1 Hpos. destruct (decide (h1 = h)) as [->|Hd].
          * rewrite Hcas' in Hpos. lia.
          * by rewrite list_lookup_total_insert_ne.
      - split; [done|]. split; [done|]. cbn [set_pc th_pc].
        split; [done|]. cbn.
        rewrite list_lookup_total_insert_eq; [done|].
        rewrite (wf_entry2nid _ Hwf). done.
      - pose proof (claimed_fill (m_table m) t' h (-2) eq_refl eq_refl).
        pose proof (probing_leave (m_threads m) i th (Locked h) Hi) as Hl.
        rewrite Hpc in Hl. specialize (Hl eq_refl eq_refl).
        change (capacity t') with (capacity (m_table m)). lia. }
    assert (Hrange : 0 ≤ cas < Z.of_nat (capacity (m_table m))).
    { destruct (wf_buckets _ Hwf h cas Hcas) as [?|[?|?]]; done. }
    destruct (key_match_total (m_table m) cas (th_key th))
      as [b Hb]; [apply Hwf..|done|].
    rewrite Hb. cbn [mbind option_bind]. destruct b.
    + eexists _, _. split; [reflexivity|]. cbn [m_table m_threads].
      rewrite list_lookup_total_insert_eq by done. cbn [set_pc th_pc moved].
      apply (machine_inv_step m c i th); try done.
      * split; [done|]. split; [done|]. cbn [set_pc th_pc].
        split; [done|]. rewrite Hcas'. lia.
      * pose proof (probing_leave (m_threads m) i th (Returned h) Hi) as Hl.
        rewrite Hpc in Hl. specialize (Hl eq_refl eq_refl). lia.
    + eexists _, _. split; [reflexivity|]. cbn [m_table m_threads].
      rewrite list_lookup_total_insert_eq by done. cbn [set_pc th_pc moved].
      apply machine_inv_move; try done. rewrite Hcas'. lia.
  - (* Locked *)
    destruct Hp as [Hhlt Hne].
    destruct (write_key_spec (m_table m) (Z.of_nat (th_slot th)) (th_key th))
      as (t' & Hw & Hdims & Hv & He & Hlk & _); [apply Hwf..|lia|].
    rewrite Hw. cbn [mbind option_bind].
    eexists _, _. split; [reflexivity|]. cbn [m_table m_threads].
    rewrite list_lookup_total_insert_eq by done. cbn [set_pc th_pc moved].
    destruct Hdims as (Hpd & Hvd & HN & Hcap).
    apply (machine_inv_step m c i th); try done.
    + destruct Hwf as [H1 H2 H3 H4 H5 H6 H7].
      split; rewrite ?Hpd, ?Hvd, ?Hcap, ?Hv, ?He, ?Hlk; done.
    + split; [done|]. split; [done|]. rewrite He. done.
    + congruence.
    + split; [by rewrite Hcap|]. split; [by rewrite Hcap|].
      cbn [set_pc th_pc]. rewrite Hcap, He. done.
    + rewrite (claimed_same _ _ Hcap He), Hcap.
      rewrite probing_keep; [done|done|]. by rewrite Hpc.
  - (* Publishing *)
    destruct Hp as [Hhlt Hne].
    eexists _, _. split; [reflexivity|]. cbn [m_table m_threads].
    rewrite list_lookup_total_insert_eq by done. cbn [set_pc th_pc moved].
    set (t' := set_entry2nid (m_table m)
                 (<[h:=Z.of_nat (th_slot th)]> (entry2nid (m_table m)))).
    apply (machine_inv_step m c i th); try done.
    + destruct Hwf as [H1 H2 H3 H4 H5 H6 H7].
      split; cbn; rewrite ?length_insert; try done.
      intros h1 e. rewrite list_lookup_insert.
      case_decide; [|by apply H7]. intros [= <-]. right. right. lia.
    + split; [done|]. split; [done|]. cbn. split.
      * intros h1 Hne1. destruct (decide (h1 = h)) as [->|Hd].
        -- rewrite list_lookup_total_insert_eq; [lia|].
           rewrite (wf_entry2nid _ Hwf). done.
        -- by rewrite list_lookup_total_insert_ne.
      * intros h1 Hpos. destruct (decide (h1 = h)) as [->|Hd].
        -- rewrite list_lookup_total_insert_eq; [lia|].
           rewrite (wf_entry2nid _ Hwf). done.
        -- by rewrite list_lookup_total_insert_ne.
    + split; [done|]. split; [done|]. cbn [set_pc th_pc].
      split; [done|]. cbn.
      rewrite list_lookup_total_insert_eq; [lia|].
      rewrite (wf_entry2nid _ Hwf). done.
    + rewrite (claimed_refill (m_table m) t' h (Z.of_nat (th_slot th)));
        [|apply Hwf|done|done|done|lia].
      rewrite probing_keep; [done|done|]. by rewrite Hpc.
  - (* Returned *)
    destruct Hp as [Hhlt Hpos].
    unfold store. rewrite decide_True by lia. cbn [mbind option_bind].
    destruct (lookup_lt_is_Some_2 (entry2nid (m_table m)) h) as [s Hs].
    { rewrite (wf_entry2nid _ Hwf). done. }
    pose proof (list_lookup_total_correct _ _ _ Hs) as Hs'.
    rewrite Hs' in Hpos.
    assert (Hrange : 0 ≤ s < Z.of_nat (capacity (m_table m))).
    { destruct (wf_buckets _ Hwf h s Hs) as [?|[?|?]]; [lia|lia|done]. }
    pose proof (wf_values_int _ Hwf) as Hvi.
    pose proof (wf_values _ Hwf) as Hvl.
    unfold lookupValue. rewrite Hs. cbn [mbind option_bind].
    rewrite int_index_Some by (unfold int_range; nia).
    cbn [mbind option_bind].
    destruct (accumulate_total (m_table m) (s * Z.of_nat (t_vd (m_table m)))
                (th_weight th) (th_value th)) as [t' Ht']; [nia|nia|].
    rewrite Ht'. cbn [mbind option_bind].
    eexists _, _. split; [reflexivity|]. cbn [m_table m_threads].
    rewrite list_lookup_total_insert_eq by done. cbn [set_pc th_pc moved].
    apply accumulate_spec in Ht'
      as ((Hpd & Hvd & HN & Hcap) & Hk & He & Hlv & _).
    apply (machine_inv_step m c i th); try done.
    + destruct Hwf as [H1 H2 H3 H4 H5 H6 H7].
      split; rewrite ?Hpd, ?Hvd, ?Hcap, ?Hk, ?He, ?Hlv; done.
    + split; [done|]. split; [done|]. rewrite He. done.
    + rewrite length_insert. congruence.
    + split; [by rewrite Hcap|]. split; [by rewrite Hcap|]. done.
    + rewrite (claimed_same _ _ Hcap He), Hcap.
      rewrite probing_keep; [done|done|]. by rewrite Hpc.
Qed.

Lemma run_counting_cons i schedule mc :
  run_counting (i :: schedule) mc
  = step_counting i mc ≫= run_counting schedule.
Proof.
  unfold run_counting. simpl.
  destruct (step_counting i mc) as [mc'|]; [done|].
  simpl. induction schedule as [|j l IH]; [done|]. simpl. exact IH.
Qed.

(** The counters do not disturb the execution. *)
Lemma run_counting_run schedule m c :
  fst <$> run_counting schedule (m, c) = run schedule m.
Proof.
  revert m c. induction schedule as [|i l IH]; intros m c; [done|].
  rewrite run_counting_cons, run_cons. unfold step_counting. cbn [fst snd].
  destruct (step i m) as [m'|]; [|done]. cbn [mbind option_bind]. apply IH.
Qed.

(** The invariant holds throughout an execution, and buckets only fill
    up. *)
Lemma run_counting_inv schedule m c m' c' :
  machine_inv m c → run_counting schedule (m, c) = Some (m', c') →
  machine_inv m' c' ∧ table_grows (m_table m) (m_table m').
Proof.
  revert m c. induction schedule as [|i l IH]; intros m c Hinv Hrun.
  - injection Hrun as <- <-. done.
  - rewrite run_counting_cons in Hrun.
    destruct (step_counting i (m, c)) as [[m1 c1]|] eqn:Hstep; [|done].
    cbn [mbind option_bind] in Hrun.
    assert (machine_inv m1 c1 ∧ table_grows (m_table m) (m_table m1))
      as [Hinv1 Hgrow1].
    { destruct (m_threads m !! i) as [th|] eqn:Hi.
      - destruct (decide (phase (th_pc th) = 4%nat)) as [Hfin|Hph].
        + unfold step_counting, step in Hstep. cbn [fst] in Hstep.
          rewrite Hi in Hstep. cbn [mbind option_bind] in Hstep.
          destruct (th_pc th); done.
        + destruct (step_counting_inv m c i th Hinv Hi Hph)
            as (m2 & c2 & Hstep2 & Hinv2).
          rewrite Hstep in Hstep2. injection Hstep2 as <- <-. done.
      - unfold step_counting, step in Hstep. cbn [fst] in Hstep.
        rewrite Hi in Hstep. done. }
    destruct (IH m1 c1 Hinv1 Hrun) as [Hinv' Hgrow'].
    split; [done|]. by eapply table_grows_trans.
Qed.

(** Every step of a thread is a round that moves on or takes the thread
    to a later phase. *)
Lemma step_counting_measure j i m c m' c' :
  length c = length (m_threads m) → (i < length (m_threads m))%nat →
  step_counting j (m, c) = Some (m', c') →
  length c' = length (m_threads m') ∧
  length (m_threads m') = length (m_threads m) ∧
  ((if decide (j = i) then 1 else 0) + c !!! i
   + phase (th_pc (m_threads m !!! i))
   ≤ c' !!! i + phase (th_pc (m_threads m' !!! i)))%nat.
Proof.
  intros Hlc Hi Hstep. unfold step_counting in Hstep. cbn [fst snd] in Hstep.
  destruct (step j m) as [m1|] eqn:Hs; [|done].
  cbn [mbind option_bind] in Hstep. injection Hstep as <- <-.
  unfold step in Hs.
  destruct (m_threads m !! j) as [th|] eqn:Hj; [|done].
  cbn [mbind option_bind] in Hs.
  pose proof (lookup_lt_Some _ _ _ Hj) as Hjlt.
  pose proof (list_lookup_total_correct _ _ _ Hj) as Hj'.
  assert (∃ t' rp' p,
    m1 = {| m_table := t'; m_replay := rp';
            m_threads := <[j := set_pc th p]> (m_threads m) |} ∧
    (phase (th_pc th) < phase p ∨ moved (th_pc th) p = true)%nat)
    as (t' & rp' & p & -> & Hp).
  { destruct (th_pc th) as [h|h|h|h|h base] eqn:Hpc; [| | | |done].
    - destruct (entry2nid (m_table m) !! h) as [cas|]; [|done].
      cbn [mbind option_bind] in Hs.
      repeat case_decide; try (injection Hs as <-; eexists _, _, _;
        split; [reflexivity|]; simpl; auto with lia).
      destruct (key_match _ _ _) as [[]|]; [| |done];
        injection Hs as <-; eexists _, _, _;
        (split; [reflexivity|]); simpl; auto with lia.
    - destruct (write_key _ _ _); [|done]. injection Hs as <-.
      eexists _, _, _. split; [reflexivity|]. simpl. auto with lia.
    - injection Hs as <-.
      eexists _, _, _. split; [reflexivity|]. simpl. auto with lia.
    - destruct (store _ _ _); [|done]. cbn [mbind option_bind] in Hs.
      destruct (lookupValue _ _); [|done]. cbn [mbind option_bind] in Hs.
      destruct (accumulate _ _ _ _); [|done]. injection Hs as <-.
      eexists _, _, _. split; [reflexivity|]. simpl. auto with lia. }
  cbn [m_threads]. rewrite length_insert.
  rewrite Hj', (list_lookup_total_insert_eq _ j) by done.
  cbn [set_pc th_pc].
  destruct (decide (j = i)) as [->|Hne].
  - rewrite Hj', list_lookup_total_insert_eq by done. cbn [set_pc th_pc].
    destruct (moved (th_pc th) p) eqn:Hm.
    + rewrite length_insert, list_lookup_total_insert_eq by lia.
      split; [done|]. split; [done|].
      destruct (th_pc th), p; simpl in *; try done; lia.
    + split; [done|]. split; [done|]. destruct Hp as [Hp|Hp]; [lia|done].
  - rewrite (list_lookup_total_insert_ne _ j i) by done.
    destruct (moved (th_pc th) p).
    + rewrite length_insert, list_lookup_total_insert_ne by done.
      split; [done|]. split; [done|]. lia.
    + split; [done|]. split; [done|]. lia.
Qed.

Lemma run_counting_measure schedule i m c m' c' :
  length c = length (m_threads m) → (i < length (m_threads m))%nat →
  run_counting schedule (m, c) = Some (m', c') →
  length (m_threads m') = length (m_threads m) ∧
  (count_occ Nat.eq_dec schedule i + c !!! i
   + phase (th_pc (m_threads m !!! i))
   ≤ c' !!! i + phase (th_pc (m_threads m' !!! i)))%nat.
Proof.
  revert m c. induction schedule as [|j l IH]; intros m c Hlc Hi Hrun.
  - injection Hrun as <- <-. simpl. lia.
  - rewrite run_counting_cons in Hrun.
    destruct (step_counting j (m, c)) as [[m1 c1]|] eqn:Hstep; [|done].
    cbn [mbind option_bind] in Hrun.
    destruct (step_counting_measure j i m c m1 c1 Hlc Hi Hstep)
      as (Hlc1 & Hlen1 & Hle).
    destruct (IH m1 c1 Hlc1 ltac:(lia) Hrun) as [Hlen' IH'].
    split; [lia|].
    cbn [count_occ]. destruct (Nat.eq_dec j i) as [->|Hne].
    + rewrite decide_True in Hle by done. lia.
    + rewrite decide_False in Hle by done. lia.
Qed.

Lemma step_length j m m' :
  step j m = Some m' → length (m_threads m') = length (m_threads m).
Proof.
  unfold step. intros Hs.
  destruct (m_threads m !! j) as [th|]; [|done].
  cbn [mbind option_bind] in Hs.
  destruct (th_pc th) as [h|h|h|h|h base]; [| | | |done].
  - destruct (entry2nid (m_table m) !! h) as [cas|]; [|done].
    cbn [mbind option_bind] in Hs.
    repeat case_decide;
      try (injection Hs as <-; cbn [m_threads]; by rewrite length_insert).
    destruct (key_match _ _ _) as [[]|]; [| |done];
      injection Hs as <-; cbn [m_threads]; by rewrite length_insert.
  - destruct (write_key _ _ _); [|done]. injection Hs as <-.
    cbn [m_threads]. by rewrite length_insert.
  - injection Hs as <-. cbn [m_threads]. by rewrite length_insert.
  - destruct (store _ _ _); [|done]. cbn [mbind option_bind] in Hs.
    destruct (lookupValue _ _); [|done]. cbn [mbind option_bind] in Hs.
    destruct (accumulate _ _ _ _); [|done]. injection Hs as <-.
    cbn [m_threads]. by rewrite length_insert.
Qed.

Lemma run_counting_length schedule m c m' c' :
  run_counting schedule (m, c) = Some (m', c') →
  length (m_threads m') = length (m_threads m).
Proof.
  revert m c. induction schedule as [|j l IH]; intros m c Hrun.
  - by injection Hrun as <- <-.
  - rewrite run_counting_cons in Hrun. unfold step_counting in Hrun.
    cbn [fst snd] in Hrun.
    destruct (step j m) as [m1|] eqn:Hs; [|done].
    cbn [mbind option_bind] in Hrun.
    rewrite (IH _ _ Hrun). by eapply step_length.
Qed.

Lemma phase_le p : (phase p ≤ 4)%nat.
Proof. destruct p; simpl; lia. Qed.

(** The threads about to call [insert] on a well-formed table with room
    for each of them. *)
Lemma machine_inv_init t rp threads :
  table_wf t → length rp = capacity t →
  (∀ i th, threads !! i = Some th →
     (th_slot th < capacity t)%nat ∧ th_pc th = Probing (start_bucket t th)) →
  (claimed t + length threads ≤ capacity t)%nat →
  machine_inv {| m_table := t; m_replay := rp; m_threads := threads |}
    (replicate (length threads) 0%nat).
Proof.
  intros Hwf Hrp Hth Hroom. split; cbn [m_table m_replay m_threads]; try done.
  - by rewrite length_replicate.
  - intros i th Hi. destruct (Hth i th Hi) as [Hslot Hpc].
    pose proof (lookup_lt_Some _ _ _ Hi) as Hlt.
    rewrite lookup_total_replicate_2 by done.
    split; [done|]. split; [lia|]. rewrite Hpc. split; [|lia].
    rewrite Nat.add_0_r, Nat.mod_small; [done|].
    unfold start_bucket.
    pose proof (Z.mod_pos_bound (hash (t_pd t) (th_key th))
                  (Z.of_nat (capacity t))). lia.
  - pose proof (probing_le threads). lia.
Qed.

(** C5 under interleaving: threads about to call [insert] on a
    well-formed table with room for each of them, run under any
    schedule.  Whatever the other threads do, a thread moves on to the
    next bucket fewer than [capacity] times (at most [capacity] probes),
    takes at most [capacity + 3] steps in all, can always take its next
    step until it has finished, and no bucket that was claimed is empty
    again. *)
Theorem insert_terminates_interleaved t rp threads schedule m c :
  table_wf t → length rp = capacity t →
  (∀ i th, threads !! i = Some th →
     (th_slot th < capacity t)%nat ∧ th_pc th = Probing (start_bucket t th)) →
  (claimed t + length threads ≤ capacity t)%nat →
  run_counting schedule
    ({| m_table := t; m_replay := rp; m_threads := threads |},
     replicate (length threads) 0%nat) = Some (m, c) →
  (∀ i th, m_threads m !! i = Some th →
     (c !!! i + 1 ≤ capacity t)%nat ∧
     (count_occ Nat.eq_dec schedule i ≤ capacity t + 3)%nat ∧
     (phase (th_pc th) ≠ 4%nat → is_Some (step i m))) ∧
  (∀ h, entry2nid t !!! h ≠ -1 → entry2nid (m_table m) !!! h ≠ -1).
Proof.
  intros Hwf Hrp Hth Hroom Hrun.
  pose proof (machine_inv_init t rp threads Hwf Hrp Hth Hroom) as Hinit.
  destruct (run_counting_inv _ _ _ _ _ Hinit Hrun) as [Hinv Hgrow].
  cbn [m_table] in Hgrow. destruct Hgrow as (Hpd & Hcap & Hne & _).
  split; [|exact Hne].
  intros i th Hi.
  destruct (mi_threads _ _ Hinv i th Hi) as (_ & Hc & _).
  rewrite Hcap in Hc.
  pose proof (lookup_lt_Some _ _ _ Hi) as Hlt.
  pose proof (phase_le (th_pc (m_threads m !!! i))) as Hphase.
  assert (Hlt0 : (i < length threads)%nat).
  { rewrite (run_counting_length _ _ _ _ _ Hrun) in Hlt. done. }
  destruct (run_counting_measure schedule i
              {| m_table := t; m_replay := rp; m_threads := threads |}
              (replicate (length threads) 0%nat) m c
              ltac:(by rewrite length_replicate) Hlt0 Hrun) as [_ Hm].
  rewrite lookup_total_replicate_2 in Hm by done.
  split; [lia|]. split; [lia|].
  intros Hph.
  destruct (step_counting_inv m c i th Hinv Hi Hph) as (m' & c' & Hs & _).
  unfold step_counting in Hs. cbn [fst] in Hs.
  destruct (step i m) as [m1|]; [by exists m1|done].
Qed.

Lemma insert_terminates_interleaved_witness :
  let t := HashTableGPU_new 1 1 2 in
  let rp := replicate 4 {| entry := 0; weight := 0%Q |} in
  let th slot :=
    {| th_key := [0]; th_slot := slot; th_weight := 1%Q; th_value := [1%Q];
       th_pc := Probing 0 |} in
  let schedule := [0; 1; 1; 1; 1; 1; 0; 0; 0]%nat in
  ∃ m c,
    run_counting schedule
      ({| m_table := t; m_replay := rp; m_threads := [th 0%nat; th 2%nat] |},
       replicate 2 0%nat) = Some (m, c) ∧
    c = [0; 1]%nat ∧
    (∀ i th, m_threads m !! i = Some th →
       (c !!! i + 1 ≤ capacity t)%nat ∧
       (count_occ Nat.eq_dec schedule i ≤ capacity t + 3)%nat ∧
       (phase (th_pc th) ≠ 4%nat → is_Some (step i m))) ∧
    (∀ h, entry2nid t !!! h ≠ -1 → entry2nid (m_table m) !!! h ≠ -1).
Proof.
  intros t rp th schedule. eexists _, _.
  split; [vm_compute; reflexivity|]. split; [reflexivity|].
  apply (insert_terminates_interleaved t rp [th 0%nat; th 2%nat] schedule).
  - apply HashTableGPU_new_wf; simpl; lia.
  - reflexivity.
  - intros [|[|i]] th' Hi; [injection Hi as <-..|done];
      (split; [simpl; lia|reflexivity]).
  - unfold t. rewrite HashTableGPU_new_claimed. simpl. lia.
  - vm_compute. reflexivity.
Defined.

(** ** More on the geometry *)

(** [splat_geometry], stage by stage. *)
Lemma splat_geometry_inv pd sf pos g :
  splat_geometry pd sf pos = Some g →
  ∃ e st,
    elevate pd sf pos (replicate (pd + 1) 0%Q) = Some e ∧
    round_axes pd e (rounded_init pd) = Some st ∧
    s_elevated g = e ∧
    (s_y g, s_rank g) =
      rank_correct pd (r_h st)
        (r_y st, rank_pairs pd e (r_y st) (r_rank st)) ∧
    barycentric pd e (s_y g) (s_rank g) (r_bary st) = Some (s_bary g).
Proof.
  unfold splat_geometry. intros Hg.
  destruct (elevate pd sf pos _) as [e|]; [|done].
  cbn [mbind option_bind] in Hg.
  destruct (round_axes pd e (rounded_init pd)) as [st|] eqn:Est; [|done].
  cbn [mbind option_bind] in Hg.
  destruct (rank_correct pd (r_h st) _) as [y rank] eqn:Erc.
  destruct (barycentric pd e y rank (r_bary st)) as [b|] eqn:Eb; [|done].
  cbn [mbind option_bind] in Hg. injection Hg as <-.
  exists e, st. done.
Qed.

(** The elevated point lies on the hyperplane of coordinates summing to
    zero, whatever the position and the scale factors. *)
Theorem elevate_on_hyperplane (pd : nat) (scaleFactor pos e0 e : list Q) :
  (1 ≤ pd)%nat → length pos = pd → length scaleFactor = pd →
  length e0 = (pd + 1)%nat →
  elevate pd scaleFactor pos e0 = Some e →
  length e = (pd + 1)%nat ∧ (sumQ e == 0)%Q.
Proof.
  intros Hpd Hpos Hsf He0 He.
  destruct (elevate_spec pd scaleFactor pos e0 Hpd Hpos Hsf He0)
    as (e' & He' & Hlen & Hspec).
  rewrite He in He'. injection He' as <-. split; [done|].
  rewrite sumQ_sum_range, Hlen.
  rewrite (sum_range_ext _ (elevated_spec pd scaleFactor pos)).
  - by apply elevated_spec_sum.
  - intros i Hi. apply Hspec. lia.
Qed.

Lemma elevate_on_hyperplane_witness :
  ∃ e, elevate 2 [(1732 # 1000)%Q; 1%Q] [(37 # 10)%Q; (29 # 10)%Q]
         [0%Q; 0%Q; 0%Q] = Some e ∧
       length e = 3%nat ∧ (sumQ e == 0)%Q.
Proof.
  eexists. split; [vm_compute; reflexivity|].
  apply (elevate_on_hyperplane 2 [(1732 # 1000)%Q; 1%Q]
           [(37 # 10)%Q; (29 # 10)%Q] [0%Q; 0%Q; 0%Q]);
    [lia|reflexivity|reflexivity|reflexivity|vm_compute; reflexivity].
Defined.

(** ** More on the table, run without interference *)

Lemma for_rangeM_ext {St} lo n (f g : nat → St → option St) s :
  (∀ i s, (lo ≤ i < lo + n)%nat → f i s = g i s) →
  for_rangeM lo n f s = for_rangeM lo n g s.
Proof.
  induction n as [|n IH]; intros H; [done|].
  rewrite !for_rangeM_S, IH by (intros; apply H; lia).
  destruct (for_rangeM lo n g s) as [s'|]; [|done]. simpl. apply H. lia.
Qed.

(** The comparison loop reads the cells of slot [cas] only. *)
Lemma key_match_ext t t' cas key :
  t_pd t' = t_pd t →
  (∀ i, (i < t_pd t)%nat →
     load (keys t') (cas * Z.of_nat (t_pd t) + Z.of_nat i)
     = load (keys t) (cas * Z.of_nat (t_pd t) + Z.of_nat i)) →
  key_match t' cas key = key_match t cas key.
Proof.
  intros Hpd Hload. unfold key_match. rewrite Hpd.
  apply for_rangeM_ext. intros i [] Hi; [|done].
  destruct (int_index _) as [ix|] eqn:Eix; [|done].
  apply int_index_inv in Eix as [-> _]. cbn [mbind option_bind].
  rewrite Hload by lia. done.
Qed.

(** A failed comparison: some coordinate differs. *)
Lemma key_match_false t cas key :
  key_match t cas key = Some false →
  ∃ i, (i < t_pd t)%nat ∧
    keys t !!! Z.to_nat (cas * Z.of_nat (t_pd t) + Z.of_nat i) ≠ key !!! i.
Proof.
  unfold key_match. intros Hrun.
  apply (for_rangeM_ind
    (λ k (m : bool), m = true ∨
       ∃ i, (i < k)%nat ∧
         keys t !!! Z.to_nat (cas * Z.of_nat (t_pd t) + Z.of_nat i)
         ≠ key !!! i)) in Hrun.
  - destruct Hrun as [?|(i & Hi & Hne)]; [done|]. by exists i.
  - by left.
  - intros k m m' Hk HP Hstep. rewrite Nat.add_0_l in Hstep.
    destruct m.
    + destruct (int_index _) as [ix|] eqn:Eix; [|done].
      apply int_index_inv in Eix as [-> _]. cbn [mbind option_bind] in Hstep.
      destruct (load _ _) as [v|] eqn:Ev; [|done].
      apply load_inv in Ev as [_ ->]. injection Hstep as <-.
      case_bool_decide as Heq; [by left|]. right. exists k. split; [lia|done].
    + injection Hstep as <-. destruct HP as [?|(i & Hi & Hne)]; [done|].
      right. exists i. split; [lia|done].
Qed.

Lemma key_match_equal t cas key :
  length (keys t) = (capacity t * t_pd t)%nat →
  Z.of_nat (capacity t * t_pd t) ≤ 2147483647 →
  0 ≤ cas < Z.of_nat (capacity t) →
  (∀ i, (i < t_pd t)%nat →
     keys t !!! Z.to_nat (cas * Z.of_nat (t_pd t) + Z.of_nat i) = key !!! i) →
  key_match t cas key = Some true.
Proof.
  intros Hlen Hint Hcas Heq.
  destruct (key_match_total t cas key Hlen Hint Hcas) as [[] Hm]; [done|].
  apply key_match_false in Hm as (i & Hi & Hne). destruct Hne. by apply Heq.
Qed.

Lemma load_agree {A} `{Inhabited A} (l l' : list A) (i : Z) :
  length l' = length l →
  (0 ≤ i → l' !!! Z.to_nat i = l !!! Z.to_nat i) →
  load l' i = load l i.
Proof.
  intros Hlen Heq. unfold load. case_decide; [|done].
  destruct (decide (Z.to_nat i < length l)%nat).
  - rewrite !list_lookup_lookup_total_lt by lia. f_equal. by apply Heq.
  - rewrite !lookup_ge_None_2 by lia. done.
Qed.

(** A second call with the same key goes the way of the first one. *)
Lemma insert_loop_again t key nid nid' h t' fuel :
  table_wf t → 0 ≤ nid < Z.of_nat (capacity t) →
  (∀ h0, entry2nid t !! h0 ≠ Some nid) →
  claims t key nid h t' ∨ (∃ cas, finds t key h t' cas) →
  ∀ h0, (h0 < capacity t)%nat →
    insert_loop fuel t key nid h0 = Some (h, t') →
    insert_loop fuel t' key nid' h0 = Some (h, t').
Proof.
  intros Hwf Hnid Hfresh Hcase.
  assert (Hcap : capacity t' = capacity t).
  { destruct Hcase as [(_ & (_ & _ & _ & ?) & _)|(cas & -> & _)]; done. }
  assert (Hpd : t_pd t' = t_pd t).
  { destruct Hcase as [(_ & (? & _) & _)|(cas & -> & _)]; done. }
  assert (Hnext : ∀ h0, next_bucket t' h0 = next_bucket t h0).
  { intros h0. unfold next_bucket. by rewrite Hcap. }
  assert (Hother : ∀ h0 cas, entry2nid t !! h0 = Some cas → cas ≠ -1 →
                     entry2nid t' !! h0 = Some cas).
  { intros h0 cas He Hne.
    destruct Hcase as [Hc|(cas' & -> & _)]; [|done].
    by eapply claims_keeps_buckets. }
  assert (Hmatch : ∀ h0 cas, entry2nid t !! h0 = Some cas →
                     0 ≤ cas < Z.of_nat (capacity t) →
                     key_match t' cas key = key_match t cas key).
  { intros h0 cas He Hr.
    destruct Hcase as [Hc|(cas' & -> & _)]; [|done].
    destruct Hc as (_ & _ & _ & _ & Hlk & _ & Hrest).
    apply key_match_ext; [done|]. intros i Hi.
    apply load_agree; [done|]. intros Hpos.
    apply Hrest. assert (cas ≠ nid) by (intros ->; by eapply Hfresh). nia. }
  induction fuel as [|fuel IH]; intros h0 Hh0 Hrun; [done|].
  cbn [insert_loop] in *. unfold probe in *.
  destruct (entry2nid t !! h0) as [cas|] eqn:Ecas; [|done].
  cbn [mbind option_bind] in *.
  destruct (decide (cas = -2)) as [->|Hn2].
  { rewrite (Hother h0 (-2)) by done. cbn [mbind option_bind].
    rewrite decide_True by done. cbn [mbind option_bind].
    rewrite Hnext. apply IH; [by apply next_bucket_lt|done]. }
  destruct (decide (cas = -1)) as [->|Hn1].
  { destruct (write_key _ _ _) as [t2|]; [|done].
    cbn [mbind option_bind] in Hrun. injection Hrun as <- Ht'.
    destruct Hcase as [Hc|(cas' & _ & He & Hr & _)];
      [|rewrite He in Ecas; injection Ecas as ->; lia].
    pose proof (claims_wf _ _ _ _ _ Hwf Hnid Hc) as Hwf'.
    destruct Hc as (_ & _ & _ & He' & _ & Heq & _).
    rewrite He', list_lookup_insert_eq by (rewrite (wf_entry2nid _ Hwf); lia).
    cbn [mbind option_bind].
    rewrite !decide_False by lia.
    rewrite key_match_equal; [done|apply Hwf'..|lia|].
    rewrite Hpd. done. }
  assert (Hr : 0 ≤ cas < Z.of_nat (capacity t)).
  { destruct (wf_buckets _ Hwf h0 cas Ecas) as [?|[?|?]]; done. }
  rewrite (Hother h0 cas) by done. cbn [mbind option_bind].
  rewrite !decide_False by done.
  rewrite (Hmatch h0 cas) by done.
  destruct (key_match t cas key) as [[]|]; [| |done];
    cbn [mbind option_bind] in *.
  - injection Hrun as <- <-. done.
  - rewrite Hnext. apply IH; [by apply next_bucket_lt|done].
Qed.

(** Run one after the other, two calls with the same key return the same
    bucket: the second call finds the bucket the first one returned and
    leaves the table as the first one left it. *)
Theorem insert_again (t : HashTableGPU) (key : list Z) (nid nid' : Z)
    (h : nat) (t' : HashTableGPU) :
  table_wf t → 0 ≤ nid < Z.of_nat (capacity t) →
  (∀ h0, entry2nid t !! h0 ≠ Some nid) →
  insert t key nid = Some (h, t') →
  insert t' key nid' = Some (h, t').
Proof.
  intros Hwf Hnid Hfresh Hins.
  destruct (insert_inv t key nid h t' Hwf Hnid Hins) as [Hh Hcase].
  assert (capacity t' = capacity t ∧ t_pd t' = t_pd t) as [Hcap Hpd].
  { destruct Hcase as [(_ & (? & _ & _ & ?) & _)|(cas & -> & _)]; done. }
  unfold insert in *. rewrite Hcap, Hpd.
  case_decide; [done|].
  eapply insert_loop_again; try done.
  pose proof (Z.mod_pos_bound (hash (t_pd t) key) (Z.of_nat (capacity t))).
  lia.
Qed.

Lemma insert_again_witness :
  ∃ h t',
    insert (HashTableGPU_new 1 1 2) [5] 0 = Some (h, t') ∧
    insert t' [5] 3 = Some (h, t').
Proof.
  eexists _, _. split; [vm_compute; reflexivity|].
  apply (insert_again (HashTableGPU_new 1 1 2) [5] 0 3).
  - apply HashTableGPU_new_wf; simpl; lia.
  - simpl. lia.
  - intros h0 He. apply lookup_replicate in He as [? _]. done.
  - vm_compute. reflexivity.
Defined.

(** On a table without an empty bucket and without a bucket owning an
    equal key every round of [insert] moves on to the next bucket: the
    call never returns. *)
Theorem insert_full_table_spins (t : HashTableGPU) (key : list Z) (nid : Z) :
  (capacity t ≠ 0)%nat → length (entry2nid t) = capacity t →
  (∀ h cas, entry2nid t !! h = Some cas →
     cas ≠ -1 ∧ (cas = -2 ∨ key_match t cas key = Some false)) →
  (∀ h, (h < capacity t)%nat →
     probe t key nid h = Some (Advances (next_bucket t h))) ∧
  (∀ fuel h, (h < capacity t)%nat → insert_loop fuel t key nid h = None) ∧
  insert t key nid = None.
Proof.
  intros Hcap Hlen Hfull.
  assert (Hprobe : ∀ h, (h < capacity t)%nat →
            probe t key nid h = Some (Advances (next_bucket t h))).
  { intros h Hh. unfold probe.
    destruct (lookup_lt_is_Some_2 (entry2nid t) h) as [cas Hcas]; [lia|].
    rewrite Hcas. cbn [mbind option_bind].
    destruct (Hfull h cas Hcas) as [Hne [->|Hm]]; [done|].
    destruct (decide (cas = -2)); [done|].
    rewrite decide_False by done. rewrite Hm. done. }
  assert (Hloop : ∀ fuel h, (h < capacity t)%nat →
            insert_loop fuel t key nid h = None).
  { induction fuel as [|fuel IH]; intros h Hh; [done|].
    cbn [insert_loop]. rewrite Hprobe by done. cbn [mbind option_bind].
    apply IH. by apply next_bucket_lt. }
  split; [done|]. split; [done|].
  unfold insert. rewrite decide_False by done. apply Hloop.
  pose proof (Z.mod_pos_bound (hash (t_pd t) key) (Z.of_nat (capacity t))).
  lia.
Qed.

Lemma insert_full_table_spins_witness :
  let t := {| t_pd := 1; t_vd := 1; t_N := 1; capacity := 2;
              keys := [7; 8]; values := [0%Q; 0%Q]; entry2nid := [1; -2] |} in
  (∀ h, (h < 2)%nat → probe t [5] 0 h = Some (Advances (next_bucket t h))) ∧
  (∀ fuel h, (h < 2)%nat → insert_loop fuel t [5] 0 h = None) ∧
  insert t [5] 0 = None.
Proof.
  intros t. apply (insert_full_table_spins t [5] 0).
  - simpl. lia.
  - reflexivity.
  - intros [|[|h]] cas He; [injection He as <-..|done].
    + split; [lia|]. right. vm_compute. reflexivity.
    + split; [lia|]. by left.
Defined.

(** A call that finds its key finds it in a table to which another call
    has added a key since. *)
Lemma insert_loop_frame t key nid h' t' k n1 n2 h fuel :
  table_wf t → 0 ≤ nid < Z.of_nat (capacity t) →
  (∀ h0, entry2nid t !! h0 ≠ Some nid) →
  claims t key nid h' t' → 0 ≤ n1 →
  ∀ h0, (h0 < capacity t)%nat →
    insert_loop fuel t k n1 h0 = Some (h, t) →
    insert_loop fuel t' k n2 h0 = Some (h, t').
Proof.
  intros Hwf Hnid Hfresh Hc Hn1.
  pose proof Hc as (Hempty & (Hpd & _ & _ & Hcap) & _ & He' & Hlk & _ & Hrest).
  assert (Hnext : ∀ h0, next_bucket t' h0 = next_bucket t h0).
  { intros h0. unfold next_bucket. by rewrite Hcap. }
  induction fuel as [|fuel IH]; intros h0 Hh0 Hrun; [done|].
  cbn [insert_loop] in *. unfold probe in *.
  destruct (entry2nid t !! h0) as [cas|] eqn:Ecas; [|done].
  cbn [mbind option_bind] in *.
  destruct (decide (cas = -2)) as [->|Hn2].
  { rewrite (claims_keeps_buckets _ _ _ _ _ h0 (-2) Hc) by done.
    cbn [mbind option_bind]. rewrite decide_True by done.
    rewrite Hnext. apply IH; [by apply next_bucket_lt|done]. }
  destruct (decide (cas = -1)) as [->|Hn1'].
  { destruct (write_key _ _ _) as [t2|] eqn:Ew; [|done].
    cbn [mbind option_bind] in Hrun. injection Hrun as <- Ht.
    apply (f_equal entry2nid) in Ht. cbn in Ht.
    assert (entry2nid t2 = <[h0:=-2]> (entry2nid t)) as E2.
    { unfold write_key in Ew.
      apply (for_rangeM_ind (λ _ t2, entry2nid t2 = <[h0:=-2]> (entry2nid t)))
        in Ew; [done|done|].
      intros j s s' _ Hs Hstep.
      destruct (int_index _); [|done]. cbn [mbind option_bind] in Hstep.
      destruct (store _ _ _); [|done]. injection Hstep as <-. done. }
    rewrite E2, list_insert_insert_eq in Ht.
    apply (f_equal (λ l, l !! h0)) in Ht.
    rewrite list_lookup_insert_eq, Ecas in Ht
      by (rewrite (wf_entry2nid _ Hwf); lia).
    injection Ht as ->. lia. }
  rewrite (claims_keeps_buckets _ _ _ _ _ h0 cas Hc) by done.
  cbn [mbind option_bind]. rewrite !decide_False by done.
  assert (Hr : 0 ≤ cas < Z.of_nat (capacity t)).
  { destruct (wf_buckets _ Hwf h0 cas Ecas) as [?|[?|?]]; done. }
  assert (key_match t' cas k = key_match t cas k) as ->.
  { apply key_match_ext; [done|]. intros i Hi.
    apply load_agree; [done|]. intros Hpos.
    apply Hrest. assert (cas ≠ nid) by (intros ->; by eapply Hfresh). nia. }
  destruct (key_match t cas k) as [[]|]; [| |done];
    cbn [mbind option_bind] in *.
  - injection Hrun as <-. done.
  - rewrite Hnext. apply IH; [by apply next_bucket_lt|done].
Qed.

Lemma slot_key_lookup t s i :
  (i < t_pd t)%nat →
  slot_key t s !!! i
  = keys t !!! Z.to_nat (s * Z.of_nat (t_pd t) + Z.of_nat i).
Proof.
  intros Hi. unfold slot_key. apply list_lookup_total_correct.
  rewrite list_lookup_fmap, lookup_seq_lt by done. done.
Qed.

(** Calls of [insert] one after the other keep every stored key where it
    can be found, so that no two buckets ever own equal keys. *)
Theorem insert_keeps_keys_found (t : HashTableGPU) (key : list Z) (nid : Z)
    (h : nat) (t' : HashTableGPU) :
  table_wf t → 0 ≤ nid < Z.of_nat (capacity t) →
  (∀ h0, entry2nid t !! h0 ≠ Some nid) →
  length key = t_pd t →
  keys_found t →
  insert t key nid = Some (h, t') →
  keys_found t' ∧
  ∀ h1 h2 s1 s2,
    entry2nid t' !! h1 = Some s1 → entry2nid t' !! h2 = Some s2 →
    0 ≤ s1 → 0 ≤ s2 → slot_key t' s1 = slot_key t' s2 → h1 = h2.
Proof.
  intros Hwf Hnid Hfresh Hlen Hfound Hins.
  assert (Hfound' : keys_found t').
  { destruct (insert_inv t key nid h t' Hwf Hnid Hins) as [Hh Hcase].
    destruct Hcase as [Hc|(cas & -> & _)]; [|done].
    pose proof Hc as (Hempty & (Hpd & _ & _ & Hcap) & _ & He' & Hlk & Hnew
                      & Hrest).
    intros h1 s n2 Hs Hpos Hn2. rewrite Hcap in Hn2.
    rewrite He' in Hs. rewrite list_lookup_insert in Hs.
    case_decide as Hd.
    - destruct Hd as [-> _]. injection Hs as <-.
      assert (slot_key t' nid = key) as ->.
      { apply list_eq_same_length with (t_pd t); [done| |].
        - unfold slot_key. by rewrite length_fmap, length_seq, Hpd.
        - intros i x y Hi Hx Hy.
          apply list_lookup_total_correct in Hx, Hy.
          rewrite slot_key_lookup in Hx by lia. rewrite Hpd, Hnew in Hx by done.
          congruence. }
      unfold insert in *. rewrite Hcap, Hpd.
      case_decide; [done|].
      apply (insert_loop_again t key nid n2 h1 t'); try done; [by left|].
      pose proof (Z.mod_pos_bound (hash (t_pd t) key)
                    (Z.of_nat (capacity t))).
      lia.
    - assert (s ≠ nid) by (intros ->; by eapply Hfresh).
      assert (slot_key t' s = slot_key t s) as ->.
      { unfold slot_key. rewrite Hpd. apply list_fmap_ext.
        intros j i Hi. apply lookup_seq in Hi as [-> Hj].
        apply Hrest. cbn [Nat.add]. nia. }
      specialize (Hfound h1 s 0 Hs Hpos ltac:(lia)).
      unfold insert in *. rewrite Hcap, Hpd.
      case_decide; [done|].
      apply (insert_loop_frame t key nid h t' (slot_key t s) 0 n2 h1
               (capacity t)); try done.
      pose proof (Z.mod_pos_bound (hash (t_pd t) (slot_key t s))
                    (Z.of_nat (capacity t))).
      lia. }
  split; [done|].
  intros h1 h2 s1 s2 H1 H2 Hp1 Hp2 Heq.
  assert (Hcap' : (0 < capacity t')%nat).
  { destruct (insert_inv t key nid h t' Hwf Hnid Hins) as [Hh Hcase].
    destruct Hcase as [(_ & (_ & _ & _ & ->) & _)|(cas & -> & _)]; lia. }
  pose proof (Hfound' h1 s1 0 H1 Hp1 ltac:(lia)) as F1.
  pose proof (Hfound' h2 s2 0 H2 Hp2 ltac:(lia)) as F2.
  rewrite Heq in F1. congruence.
Qed.

Lemma keys_found_new pd vd N : keys_found (HashTableGPU_new pd vd N).
Proof.
  intros h s nid Hs Hpos _. cbn [HashTableGPU_new entry2nid] in Hs.
  pose proof (proj1 (lookup_replicate _ _ _ _) Hs) as [-> _]. lia.
Qed.

Lemma insert_keeps_keys_found_witness :
  ∃ h t',
    insert (HashTableGPU_new 1 1 2) [5] 0 = Some (h, t') ∧
    keys_found t' ∧
    ∀ h1 h2 s1 s2,
      entry2nid t' !! h1 = Some s1 → entry2nid t' !! h2 = Some s2 →
      0 ≤ s1 → 0 ≤ s2 → slot_key t' s1 = slot_key t' s2 → h1 = h2.
Proof.
  eexists _, _. split; [vm_compute; reflexivity|].
  eapply (insert_keeps_keys_found (HashTableGPU_new 1 1 2) [5] 0).
  - apply HashTableGPU_new_wf; simpl; lia.
  - simpl. lia.
  - intros h0 He. apply lookup_replicate in He as [? _]. done.
  - reflexivity.
  - apply keys_found_new.
  - vm_compute. reflexivity.
Defined.

(** ** Conservation of the splatted features *)

(** The channel loop adds [w] times the feature to the table. *)
Lemma accumulate_sum t base w value t' :
  accumulate t base w value = Some t' →
  (sumQ (values t')
   == sumQ (values t) + w * sum_range (λ j, value !!! j) 0 (t_vd t))%Q.
Proof.
  unfold accumulate. intros Hrun.
  apply (for_rangeM_ind
    (λ k t1, (sumQ (values t1)
              == sumQ (values t) + w * sum_range (λ j, value !!! j) 0 k)%Q))
    in Hrun; [done|simpl; ring|].
  intros k s s' Hk HP Hstep. rewrite Nat.add_0_l in Hstep.
  destruct (load _ _) as [v|] eqn:Ev; [|done].
  cbn [mbind option_bind] in Hstep.
  destruct (store _ _ _) as [vs|] eqn:Es; [|done].
  injection Hstep as <-. cbn [values set_values].
  apply load_inv in Ev as [_ ->]. apply store_inv in Es as [Hr ->].
  rewrite sumQ_insert by lia. rewrite HP. simpl. ring.
Qed.

(** The weights of the corners of a point sum to one. *)
Lemma geometry_weights_sum pd sf pos g :
  splat_geometry pd sf pos = Some g →
  (sum_range (λ r, s_bary g !!! r) 0 (pd + 1) == 1)%Q.
Proof.
  intros Hg.
  destruct (splat_geometry_inv _ _ _ _ Hg) as (e & st & _ & Hst & _ & _ & Hb).
  destruct (round_axes_spec pd e (rounded_init pd) st)
    as (_ & _ & _ & Hlb & _ & Hz & _);
    [by simpl; rewrite length_replicate..|done|done|].
  destruct (barycentric_sum pd e (s_y g) (s_rank g) (r_bary st) (s_bary g))
    as [Hlen Hsum]; [done| |done|].
  { apply sumQ_zeros. intros i Hi. apply Hz. lia. }
  rewrite <- Hsum, sumQ_sum_range.
  rewrite length_take, Hlen, Nat.min_l by lia.
  apply sum_range_ext. intros r Hr.
  rewrite lookup_total_take_lt by lia. reflexivity.
Qed.

(** One thread of the splat kernel adds the feature of its point to the
    table, once. *)
Lemma splat_point_conserves t0 sf canonical n pos value d :
  let pd := t_pd t0 in
  device_inv t0 (n * (pd + 1)) d → ((n + 1) * (pd + 1) ≤ capacity t0)%nat →
  (1 ≤ pd)%nat → Z.of_nat pd ≤ 32767 →
  length canonical = ((pd + 1) * (pd + 1))%nat →
  length sf = pd → length pos = pd → representable pd sf pos →
  ∃ d', splat_point sf canonical n pos value d = Some d' ∧
        device_inv t0 ((n + 1) * (pd + 1)) d' ∧
        (sumQ (values (table d'))
         == sumQ (values (table d))
            + sum_range (λ j, value !!! j) 0 (t_vd t0))%Q.
Proof.
  intros pd Hinv Hcap Hpd Hmax Hcan Hsf Hpos Hrep.
  unfold splat_point. cbn zeta.
  assert (Hpd' : t_pd (table d) = pd) by apply (inv_dims _ _ _ Hinv).
  rewrite Hpd'.
  destruct (geometry_defined pd sf pos Hpd Hmax Hsf Hpos Hrep)
    as (_ & _ & g & _ & _ & _ & Hg & _ & Hrank).
  rewrite Hg. cbn [mbind option_bind].
  pose proof (geometry_weights_sum _ _ _ _ Hg) as Hw.
  set (total := sum_range (λ j, value !!! j) 0 (t_vd t0)).
  destruct (for_rangeM_total
    (λ r (st : list Z * device),
       device_inv t0 (n * (pd + 1) + r) st.2 ∧
       (sumQ (values (table st.2))
        == sumQ (values (table d))
           + sum_range (λ r, s_bary g !!! r) 0 r * total)%Q)
    0 (pd + 1) (splat_corner canonical n value g) (replicate pd 0, d))
    as (st & Hst & HP & Hsum).
  - simpl. rewrite Nat.add_0_r. split; [done|ring].
  - intros r [key d1] Hr [Hd1 Hs1]. simpl in Hd1, Hs1.
    destruct (splat_corner_total t0 canonical n value g r key d1)
      as (key' & d' & Hrun & Hinv'); [done|nia|done|done|lia|done|].
    exists (key', d'). split; [done|]. simpl.
    replace (n * (pd + 1) + S r)%nat with (S (n * (pd + 1) + r))
      by lia.
    split; [done|].
    destruct (inv_dims _ _ _ Hd1) as (Hpd1 & Hvd1 & _ & Hcap1).
    pose proof (inv_wf _ _ _ Hd1) as Hwf1.
    assert (Hlt : (n * (t_pd (table d1) + 1) + r < capacity (table d1))%nat).
    { rewrite Hpd1, Hcap1. fold pd. nia. }
    destruct (splat_corner_inv _ _ _ _ _ _ _ _ _ Hlt Hwf1 Hrun)
      as (_ & h & t1 & base & Hins & _ & _ & _ & Hacc).
    assert (Hnid : 0 ≤ Z.of_nat (n * (t_pd (table d1) + 1) + r)
                   < Z.of_nat (capacity (table d1))) by lia.
    destruct (insert_inv _ _ _ _ _ Hwf1 Hnid Hins) as [_ Hcase].
    assert (values t1 = values (table d1) ∧ t_vd t1 = t_vd t0) as [Hv1 Hvd].
    { destruct Hcase as [(_ & (_ & -> & _) & -> & _)|(cas & -> & _)]; done. }
    rewrite (accumulate_sum _ _ _ _ _ Hacc), Hv1, Hvd, Hs1. fold total.
    simpl. ring.
  - rewrite Hst. cbn [mbind option_bind]. exists st.2. split; [done|].
    replace ((n + 1) * (pd + 1))%nat with (n * (pd + 1) + (pd + 1))%nat
      by lia.
    split; [done|]. rewrite Hsum, Hw. ring.
Qed.

(** Conservation with the threads taken one after the other: the cells of
    [values] sum to the sum of all features. *)
Lemma splat_in_order_conserves (L : PermutohedralLatticeGPU)
    (pd vd N : nat) (src ref : list (list Q)) :
  filter_pre L pd vd N src ref →
  ∃ d, splat L src ref = Some d ∧
       (sumQ (values (table d)) == total_features src vd)%Q.
Proof.
  intros [HN Ht Hc Hsf Hrp Hpd Hmax Hcap Hk Hv Hsrc Href Hfeat Hpts].
  unfold splat, total_features. rewrite HN, Ht, Hsrc.
  set (t0 := HashTableGPU_new pd vd N).
  set (F := λ n, sum_range (λ j, (src !!! n) !!! j) 0 vd).
  destruct (for_rangeM_total
    (λ n d, device_inv t0 (n `min` N * (pd + 1)) d ∧
            (sumQ (values (table d)) == sum_range F 0 (n `min` N))%Q)
    0 (grid N)
    (λ n d,
       if decide (length ref ≤ n)%nat then Some d
       else
         pos ← ref !! n;
         value ← src !! n;
         splat_point (scaleFactor L) (canonical L) n pos value d)
    {| table := t0; replay := l_replay L |}) as (d & Hd & HP & Hsum).
  - simpl. split; [by apply device_inv_init|].
    apply sumQ_zeros. intros i Hi. apply lookup_total_zeros.
  - intros n d Hn [Hinv Hs]. rewrite Nat.add_0_l. case_decide as Hskip.
    + exists d. split; [done|].
      replace (S n `min` N)%nat with (n `min` N)%nat by lia. done.
    + destruct (lookup_lt_is_Some_2 ref n ltac:(lia)) as [pos Hp].
      destruct (lookup_lt_is_Some_2 src n ltac:(lia)) as [value Hval].
      rewrite Hp, Hval. cbn [mbind option_bind].
      destruct (Hpts n pos Hp) as [Hlp Hrep].
      replace (n `min` N)%nat with n in Hinv, Hs by lia.
      destruct (splat_point_conserves t0 (scaleFactor L) (canonical L) n pos
                  value d) as (d' & Hd' & Hinv' & Hs');
        [done|simpl; nia|done|done
        |rewrite Hc; apply length_canonical_table|done|done|done|].
      exists d'. split; [done|].
      replace (S n `min` N)%nat with (S n) by lia.
      split; [by replace (S n) with (n + 1)%nat by lia|].
      rewrite Hs', Hs. simpl. unfold F.
      rewrite (list_lookup_total_correct _ _ _ Hval). reflexivity.
  - exists d. split; [done|].
    pose proof (grid_ge N).
    replace (grid N `min` N)%nat with N in Hsum by lia. done.
Qed.

(** ** The splat kernel under every schedule *)

(** The steps of an instance, one by one. *)
Lemma step_cases i m m' :
  step i m = Some m' →
  ∃ th, m_threads m !! i = Some th ∧
    let t := m_table m in
    let nid := wrap32 (Z.of_nat (th_slot th)) in
    let after t' rp' p :=
      m' = {| m_table := t'; m_replay := rp';
              m_threads := <[i := set_pc th p]> (m_threads m) |} in
    (∃ h cas, th_pc th = Probing h ∧ entry2nid t !! h = Some cas ∧
       (cas = -2 ∨ (cas ≠ -2 ∧ cas ≠ -1 ∧
                    key_match t cas (th_key th) = Some false)) ∧
       after t (m_replay m) (Probing (next_bucket t h))) ∨
    (∃ h, th_pc th = Probing h ∧ entry2nid t !! h = Some (-1) ∧
       after (set_entry2nid t (<[h := -2]> (entry2nid t))) (m_replay m)
         (Locked h)) ∨
    (∃ h cas, th_pc th = Probing h ∧ entry2nid t !! h = Some cas ∧
       cas ≠ -2 ∧ cas ≠ -1 ∧ key_match t cas (th_key th) = Some true ∧
       after t (m_replay m) (Returned h)) ∨
    (∃ h t', th_pc th = Locked h ∧ write_key t nid (th_key th) = Some t' ∧
       after t' (m_replay m) (Publishing h)) ∨
    (∃ h, th_pc th = Publishing h ∧
       after (set_entry2nid t (<[h := nid]> (entry2nid t))) (m_replay m)
         (Returned h)) ∨
    (∃ h rp' base t',
       th_pc th = Returned h ∧
       store (m_replay m) (Z.of_nat (th_slot th))
         {| entry := h; weight := th_weight th |} = Some rp' ∧
       lookupValue t h = Some base ∧
       accumulate t base (th_weight th) (th_value th) = Some t' ∧
       after t' rp' (Finished h base)).
Proof.
  unfold step. intros Hs.
  destruct (m_threads m !! i) as [th|] eqn:Hi; [|done].
  cbn [mbind option_bind] in Hs. exists th. split; [done|]. cbn zeta.
  destruct (th_pc th) as [h|h|h|h|h base] eqn:Hpc; [| | | |done].
  - destruct (entry2nid (m_table m) !! h) as [cas|] eqn:Hcas; [|done].
    cbn [mbind option_bind] in Hs.
    destruct (decide (cas = -2)) as [->|Hn2].
    { injection Hs as <-. left. exists h, (-2). split_and!; auto. }
    destruct (decide (cas = -1)) as [->|Hn1].
    { injection Hs as <-. right. left. exists h. split_and!; auto. }
    destruct (key_match _ _ _) as [[]|] eqn:Hm; [| |done];
      cbn [mbind option_bind] in Hs; injection Hs as <-.
    + right. right. left. exists h, cas. split_and!; auto.
    + left. exists h, cas. split; [done|]. split; [done|]. split; [|done].
      right. auto.
  - destruct (write_key _ _ _) as [t'|] eqn:Hw; [|done].
    cbn [mbind option_bind] in Hs. injection Hs as <-.
    do 3 right. left. exists h, t'. split_and!; auto.
  - injection Hs as <-. do 4 right. left. exists h. split_and!; auto.
  - destruct (store _ _ _) as [rp'|] eqn:Hrp; [|done].
    cbn [mbind option_bind] in Hs.
    destruct (lookupValue _ _) as [base|] eqn:Hlv; [|done].
    cbn [mbind option_bind] in Hs.
    destruct (accumulate _ _ _ _) as [t'|] eqn:Hacc; [|done].
    cbn [mbind option_bind] in Hs. injection Hs as <-.
    do 5 right. exists h, rp', base, t'. split_and!; auto.
Qed.

(** A sum in which one term changes. *)
Lemma sum_range_change_one (f g : nat → Q) n i :
  (i < n)%nat → (∀ k, (k < n)%nat → k ≠ i → (g k == f k)%Q) →
  (sum_range g 0 n == sum_range f 0 n - f i + g i)%Q.
Proof.
  revert i. induction n as [|n IH]; intros i Hi Hsame; [lia|].
  cbn [sum_range]. rewrite Nat.add_0_l.
  destruct (decide (i = n)) as [->|Hne].
  - rewrite (sum_range_ext g f 0 n).
    + ring.
    + intros k Hk. apply Hsame; lia.
  - rewrite (IH i) by (try lia; intros k Hk Hki; apply Hsame; lia).
    rewrite (Hsame n) by lia. ring.
Qed.

(** The facts of an instance that does not step are kept when the other
    instances leave alone the bucket it holds, do not publish its slot,
    keep the published buckets and their keys, and leave its replay entry
    as it is. *)
Lemma thread_facts_frame t t' rp rp' j th :
  thread_facts t rp j th →
  t_pd t' = t_pd t → t_vd t' = t_vd t → capacity t' = capacity t →
  (∀ h, holding (th_pc th) = Some h → entry2nid t !! h = Some (-2) →
        entry2nid t' !! h = Some (-2)) →
  (∀ h, entry2nid t' !! h = Some (Z.of_nat j) →
        entry2nid t !! h = Some (Z.of_nat j)) →
  (∀ h s, 0 ≤ s → entry2nid t !! h = Some s → entry2nid t' !! h = Some s) →
  (∀ s key, 0 ≤ s → s = Z.of_nat j ∨ (∃ h, entry2nid t !! h = Some s) →
            stored t s key → stored t' s key) →
  rp' !! j = rp !! j →
  thread_facts t' rp' j th.
Proof.
  intros [Hslot Hpc] Hpd Hvd Hcap Hheld Hfresh Hpub Hkeys Hrp.
  split; [done|].
  destruct (th_pc th) as [h|h|h|h|h base]; cbn [holding] in Hheld.
  - intros h' Hh'. by apply (Hpc h'), Hfresh.
  - destruct Hpc as [Hl Hf]. split; [by apply Hheld|].
    intros h' Hh'. by apply (Hf h'), Hfresh.
  - destruct Hpc as (Hl & Hf & Hk). split; [by apply Hheld|]. split.
    + intros h' Hh'. by apply (Hf h'), Hfresh.
    + apply Hkeys; [lia|by left|done].
  - destruct Hpc as (s & Hs & Hr & Hk). exists s.
    split; [apply Hpub; [lia|done]|]. split; [by rewrite Hcap|].
    apply Hkeys; [lia|right; by exists h|done].
  - destruct Hpc as (s & Hs & Hr & Hk & Hb & He). exists s.
    split; [apply Hpub; [lia|done]|]. split; [by rewrite Hcap|].
    split; [apply Hkeys; [lia|right; by exists h|done]|].
    split; [by rewrite Hvd|]. by rewrite Hrp.
Qed.

(** The invariant after a step of instance [i], from what the step does
    to its own facts, to the facts of the others, to the locks and to the
    cells of [values]. *)
Lemma splat_inv_update m i th t' rp' p :
  splat_inv m → m_threads m !! i = Some th →
  t_vd t' = t_vd (m_table m) → capacity t' = capacity (m_table m) →
  thread_facts t' rp' i (set_pc th p) →
  (∀ j thj, j ≠ i → m_threads m !! j = Some thj →
            thread_facts t' rp' j thj) →
  (∀ h j thj, holding p = Some h → j ≠ i → m_threads m !! j = Some thj →
              holding (th_pc thj) ≠ Some h) →
  (∀ s j, 0 ≤ s < Z.of_nat (capacity t') → (j < t_vd t')%nat →
     (values t' !!! Z.to_nat (s * Z.of_nat (t_vd t') + Z.of_nat j)
      == values (m_table m)
           !!! Z.to_nat (s * Z.of_nat (t_vd t') + Z.of_nat j)
         + (contribution (t_vd t') (set_pc th p) s j
            - contribution (t_vd t') th s j))%Q) →
  (sumQ (values t')
   == sumQ (values (m_table m))
      + (contributed (t_vd t') (set_pc th p) - contributed (t_vd t') th))%Q →
  splat_inv {| m_table := t'; m_replay := rp';
               m_threads := <[i := set_pc th p]> (m_threads m) |}.
Proof.
  intros [Hfacts Hexcl Hvals Htot] Hi Hvd Hcap Hown Hothers Hlock Hcells Hsum.
  pose proof (lookup_lt_Some _ _ _ Hi) as Hlt.
  pose proof (list_lookup_total_correct _ _ _ Hi) as Hi'.
  split; cbn [m_table m_replay m_threads].
  - intros j thj Hj. destruct (decide (j = i)) as [->|Hne].
    + rewrite list_lookup_insert_eq in Hj by done. by injection Hj as <-.
    + rewrite list_lookup_insert_ne in Hj by done. by apply Hothers.
  - intros j j' thj thj' h Hj Hj' Hh Hh'.
    destruct (decide (j = i)) as [->|Hne], (decide (j' = i)) as [->|Hne'];
      [done| | |].
    + rewrite list_lookup_insert_eq in Hj by done. injection Hj as <-.
      rewrite list_lookup_insert_ne in Hj' by done.
      by destruct (Hlock h j' thj' Hh Hne' Hj').
    + rewrite list_lookup_insert_eq in Hj' by done. injection Hj' as <-.
      rewrite list_lookup_insert_ne in Hj by done.
      by destruct (Hlock h j thj Hh' Hne Hj).
    + rewrite list_lookup_insert_ne in Hj, Hj' by done.
      by apply (Hexcl j j' thj thj' h).
  - intros s j Hs Hj. rewrite Hcells by done. rewrite length_insert.
    rewrite (sum_range_change_one
               (λ k, contribution (t_vd t') (m_threads m !!! k) s j)
               (λ k, contribution (t_vd t')
                       (<[i := set_pc th p]> (m_threads m) !!! k) s j)
               (length (m_threads m)) i Hlt).
    + rewrite list_lookup_total_insert_eq by done. rewrite Hi'.
      rewrite Hvd in *. rewrite Hcap in Hs. rewrite (Hvals s j Hs Hj). ring.
    + intros k Hk Hki. by rewrite list_lookup_total_insert_ne.
  - rewrite Hsum, length_insert.
    rewrite (sum_range_change_one
               (λ k, contributed (t_vd t') (m_threads m !!! k))
               (λ k, contributed (t_vd t')
                       (<[i := set_pc th p]> (m_threads m) !!! k))
               (length (m_threads m)) i Hlt).
    + rewrite list_lookup_total_insert_eq by done. rewrite Hi'.
      rewrite Hvd in *. rewrite Htot. ring.
    + intros k Hk Hki. by rewrite list_lookup_total_insert_ne.
Qed.

Lemma stored_same_keys t t' s key :
  t_pd t' = t_pd t → keys t' = keys t → stored t s key → stored t' s key.
Proof. unfold stored. intros -> ->. done. Qed.

(** A step of instance [i] keeps the invariant. *)
Lemma splat_inv_step m c i m' :
  machine_inv m c → splat_inv m → step i m = Some m' →
  splat_inv m' ∧ same_dims (m_table m) (m_table m').
Proof.
  intros Hminv Hinv Hstep.
  destruct (step_cases i m m' Hstep) as (th & Hi & Hcases). cbn zeta in Hcases.
  pose proof Hminv as [Hwf Hrpl Hlc Hth Hroom].
  destruct (Hth i th Hi) as (Hslotlt & _ & Hpcinv).
  pose proof (si_facts _ Hinv i th Hi) as [Hslot Hfact].
  assert (Hnid : wrap32 (Z.of_nat (th_slot th)) = Z.of_nat i).
  { rewrite Hslot in *. apply wrap32_id. pose proof (wf_capacity_int _ Hwf).
    unfold int_range. lia. }
  rewrite Hnid in Hcases. rewrite Hslot in Hslotlt.
  set (t := m_table m) in *.
  assert (Hlen : length (entry2nid t) = capacity t) by apply Hwf.
  destruct Hcases as
    [(h & cas & Hpc & Hcas & Hwhy & ->)
    |[(h & Hpc & Hcas & ->)
    |[(h & cas & Hpc & Hcas & Hn2 & Hn1 & Hm & ->)
    |[(h & t' & Hpc & Hw & ->)
    |[(h & Hpc & ->)
    |(h & rp' & base & t' & Hpc & Hrp & Hlv & Hacc & ->)]]]]];
    rewrite Hpc in Hfact, Hpcinv; cbn [m_table].
  - (* a round that moves on *)
    split; [|done].
    apply (splat_inv_update m i th); try done.
    + intros j thj Hne Hj. by apply (si_facts _ Hinv).
    + intros s j Hs Hj. unfold contribution. rewrite Hpc. cbn [set_pc th_pc values set_entry2nid]. unfold t. ring.
    + unfold contributed. rewrite Hpc. cbn [set_pc th_pc values set_entry2nid]. unfold t. ring.
  - (* the bucket is locked *)
    split; [|done].
    pose proof (lookup_lt_Some _ _ _ Hcas) as Hh.
    apply (splat_inv_update m i th); try done.
    + split; [done|]. cbn. split; [by apply list_lookup_insert_eq|].
      intros h'. rewrite list_lookup_insert. case_decide; [|apply Hfact].
      intros [=]. lia.
    + intros j thj Hne Hj.
      apply (thread_facts_frame t _ (m_replay m) _ j thj); try done.
      * by apply (si_facts _ Hinv).
      * intros h' _ Hh'. cbn. rewrite list_lookup_insert_ne; [done|].
        intros ->. congruence.
      * intros h'. cbn. rewrite list_lookup_insert. case_decide; [|done].
        intros [=]. lia.
      * intros h' s Hs Hh'. cbn. rewrite list_lookup_insert_ne; [done|].
        intros ->. rewrite Hcas in Hh'. injection Hh' as <-. lia.
    + intros h0 j thj [= <-] Hne Hj Hhold.
      pose proof (si_facts _ Hinv j thj Hj) as [_ Hfj].
      destruct (th_pc thj); try done; cbn in Hhold; injection Hhold as ->;
        destruct Hfj as [Hfj _]; unfold t in Hcas; congruence.
    + intros s j Hs Hj. unfold contribution. rewrite Hpc. cbn [set_pc th_pc values set_entry2nid]. unfold t. ring.
    + unfold contributed. rewrite Hpc. cbn [set_pc th_pc values set_entry2nid]. unfold t. ring.
  - (* the key is found *)
    split; [|done].
    apply (splat_inv_update m i th); try done.
    + split; [done|]. cbn. exists cas. split; [done|]. split.
      * destruct (wf_buckets _ Hwf h cas Hcas) as [?|[?|?]]; done.
      * intros k Hk. by apply key_match_true.
    + intros j thj Hne Hj. by apply (si_facts _ Hinv).
    + intros s j Hs Hj. unfold contribution. rewrite Hpc. cbn [set_pc th_pc values set_entry2nid]. unfold t. ring.
    + unfold contributed. rewrite Hpc. cbn [set_pc th_pc values set_entry2nid]. unfold t. ring.
  - (* the key is copied *)
    destruct Hfact as [Hlock Hfresh].
    destruct (write_key_spec t (Z.of_nat i) (th_key th))
      as (t'' & Hw' & Hdims & Hv & He & Hlk & Hnew & Hold);
      [apply Hwf..|lia|].
    rewrite Hw in Hw'. injection Hw' as <-.
    split; [|done]. destruct Hdims as (Hpd & Hvd & HN & Hcap).
    assert (Hkeep : ∀ s key, 0 ≤ s → s ≠ Z.of_nat i →
              stored t s key → stored t' s key).
    { intros s key Hs Hne Hst k Hk. rewrite Hpd in Hk |- *.
      rewrite Hold; [by apply Hst|]. nia. }
    apply (splat_inv_update m i th); try done.
    + split; [done|]. cbn. rewrite He. split; [done|]. split; [done|].
      intros k Hk. rewrite Hpd in Hk |- *. by apply Hnew.
    + intros j thj Hne Hj.
      apply (thread_facts_frame t _ (m_replay m) _ j thj); try done.
      * by apply (si_facts _ Hinv).
      * intros h' _. by rewrite He.
      * intros h'. by rewrite He.
      * intros h' s _. by rewrite He.
      * intros s key Hs Hwho. apply Hkeep; [done|].
        destruct Hwho as [->|[h' Hh']]; [lia|].
        intros ->. by apply (Hfresh h').
    + intros h0 j thj [= <-] Hne Hj Hhold.
      apply Hne. symmetry. apply (si_excl _ Hinv i j th thj h); try done.
      by rewrite Hpc.
    + intros s j Hs Hj. rewrite Hv. unfold contribution. rewrite Hpc.
      cbn [set_pc th_pc values set_entry2nid]. unfold t. ring.
    + rewrite Hv. unfold contributed. rewrite Hpc. cbn [set_pc th_pc values set_entry2nid]. unfold t. ring.
  - (* the slot is published *)
    destruct Hfact as (Hlock & Hfresh & Hkey).
    pose proof (lookup_lt_Some _ _ _ Hlock) as Hh.
    split; [|done].
    apply (splat_inv_update m i th); try done.
    + split; [done|]. cbn. exists (Z.of_nat i).
      split; [by apply list_lookup_insert_eq|]. split; [lia|done].
    + intros j thj Hne Hj.
      apply (thread_facts_frame t _ (m_replay m) _ j thj); try done.
      * by apply (si_facts _ Hinv).
      * intros h' Hhold Hh'. cbn. rewrite list_lookup_insert_ne; [done|].
        intros Heq. apply Hne. rewrite <- Heq in Hhold.
        apply (si_excl _ Hinv j i thj th h); try done. by rewrite Hpc.
      * intros h'. cbn. rewrite list_lookup_insert. case_decide; [|done].
        intros [=]. lia.
      * intros h' s Hs Hh'. cbn. rewrite list_lookup_insert_ne; [done|].
        intros ->. rewrite Hlock in Hh'. injection Hh' as <-. lia.
    + intros s j Hs Hj. unfold contribution. rewrite Hpc. cbn [set_pc th_pc values set_entry2nid]. unfold t. ring.
    + unfold contributed. rewrite Hpc. cbn [set_pc th_pc values set_entry2nid]. unfold t. ring.
  - (* the contribution is added *)
    destruct Hfact as (s & Hs & Hsr & Hkey).
    apply store_inv in Hrp as [Hrange ->]. rewrite Hslot, Nat2Z.id in *.
    unfold lookupValue in Hlv. fold t in Hlv. rewrite Hs in Hlv.
    cbn [mbind option_bind] in Hlv. apply int_index_inv in Hlv as [-> _].
    pose proof (accumulate_sum _ _ _ _ _ Hacc) as Hsum.
    apply accumulate_spec in Hacc
      as ((Hpd & Hvd & HN & Hcap) & Hk & He & Hlv & Hnew & Hold).
    split; [|done].
    apply (splat_inv_update m i th); try done.
    + split; [done|]. cbn. exists s. rewrite He, Hcap, Hvd.
      split; [done|]. split; [done|].
      split; [by apply (stored_same_keys t)|]. split; [done|].
      apply list_lookup_insert_eq. lia.
    + intros j thj Hne Hj.
      apply (thread_facts_frame t _ (m_replay m) _ j thj); try done.
      * by apply (si_facts _ Hinv).
      * intros h' _. by rewrite He.
      * intros h'. by rewrite He.
      * intros h' s' _. by rewrite He.
      * intros s' key _ _. by apply stored_same_keys.
      * by rewrite list_lookup_insert_ne.
    + intros s' j Hs' Hj. rewrite Hvd in Hj |- *. rewrite Hcap in Hs'.
      unfold contribution. rewrite Hpc.
      cbn [set_pc th_pc th_weight th_value]. case_decide as Hd.
      * assert (s' = s) as -> by nia.
        rewrite (Hnew j Hj). unfold t. ring.
      * rewrite Hold; [unfold t; ring|].
        rewrite Z2Nat.id by nia. intros [H1 H2].
        destruct (Z.lt_trichotomy s' s) as [Hlt|[->|Hgt]]; [nia|done|nia].
    + rewrite Hsum, Hvd. unfold contributed. rewrite Hpc.
      cbn [set_pc th_pc th_weight th_value]. unfold t. ring.
Qed.

(** A step changes the program counter of its instance and nothing else
    of the instances. *)
Lemma step_threads i m m' :
  step i m = Some m' →
  ∃ th p, m_threads m !! i = Some th ∧
          m_threads m' = <[i := set_pc th p]> (m_threads m).
Proof.
  intros Hstep.
  destruct (step_cases i m m' Hstep) as (th & Hi & Hcases). cbn zeta in Hcases.
  exists th.
  destruct Hcases as
    [(h & cas & _ & _ & _ & ->)
    |[(h & _ & _ & ->)
    |[(h & cas & _ & _ & _ & _ & _ & ->)
    |[(h & t' & _ & _ & ->)
    |[(h & _ & ->)
    |(h & rp' & base & t' & _ & _ & _ & _ & ->)]]]]];
    eexists; (split; [done|reflexivity]).
Qed.

Lemma run_threads schedule m m' :
  run schedule m = Some m' →
  length (m_threads m') = length (m_threads m) ∧
  ∀ j, th_key (m_threads m' !!! j) = th_key (m_threads m !!! j) ∧
       th_weight (m_threads m' !!! j) = th_weight (m_threads m !!! j) ∧
       th_value (m_threads m' !!! j) = th_value (m_threads m !!! j).
Proof.
  revert m. induction schedule as [|i l IH]; intros m Hrun.
  - by injection Hrun as <-.
  - rewrite run_cons in Hrun.
    destruct (step i m) as [m1|] eqn:Hstep; [|done].
    cbn [mbind option_bind] in Hrun.
    destruct (IH m1 Hrun) as [Hlen Hsame].
    destruct (step_threads i m m1 Hstep) as (th & p & Hi & Hth).
    rewrite Hth in Hlen, Hsame. rewrite length_insert in Hlen.
    split; [done|]. intros j. rewrite (proj1 (Hsame j)).
    destruct (Hsame j) as (_ & -> & ->).
    destruct (decide (j = i)) as [->|Hne].
    + rewrite list_lookup_total_insert_eq by (by eapply lookup_lt_Some).
      by rewrite (list_lookup_total_correct _ _ _ Hi).
    + by rewrite list_lookup_total_insert_ne.
Qed.

(** The invariants hold throughout an execution. *)
Lemma splat_inv_run schedule m c m' :
  machine_inv m c → splat_inv m → run schedule m = Some m' →
  ∃ c', run_counting schedule (m, c) = Some (m', c') ∧
        machine_inv m' c' ∧ splat_inv m' ∧
        same_dims (m_table m) (m_table m').
Proof.
  revert m c. induction schedule as [|i l IH]; intros m c Hminv Hinv Hrun.
  - injection Hrun as <-. exists c. split_and!; try done.
  - rewrite run_cons in Hrun.
    destruct (step i m) as [m1|] eqn:Hstep; [|done].
    cbn [mbind option_bind] in Hrun.
    destruct (splat_inv_step m c i m1 Hminv Hinv Hstep) as [Hinv1 Hd1].
    destruct (step_threads i m m1 Hstep) as (th & p & Hi & _).
    assert (Hph : phase (th_pc th) ≠ 4%nat).
    { intros Hph. unfold step in Hstep. rewrite Hi in Hstep.
      cbn [mbind option_bind] in Hstep. by destruct (th_pc th). }
    destruct (step_counting_inv m c i th Hminv Hi Hph)
      as (m2 & c1 & Hsc & Hminv1 & _).
    assert (m2 = m1) as ->.
    { unfold step_counting in Hsc. cbn [fst snd] in Hsc.
      rewrite Hstep in Hsc. cbn [mbind option_bind] in Hsc. congruence. }
    destruct (IH m1 c1 Hminv1 Hinv1 Hrun) as (c' & Hrc & Hminv' & Hinv' & Hd').
    exists c'. rewrite run_counting_cons, Hsc. cbn [mbind option_bind].
    split_and!; try done. by eapply same_dims_trans.
Qed.

(** The instances of the launch on a call that meets the preconditions:
    instance [n * (pd + 1) + r] carries the key and the weight that the
    geometry of point [n] gives corner [r], and the features of the
    point. *)
Lemma splat_machine_init L pd vd N src ref :
  filter_pre L pd vd N src ref →
  ∃ m0,
    splat_machine L src ref = Some m0 ∧
    m_table m0 = HashTableGPU_new pd vd N ∧ m_replay m0 = l_replay L ∧
    length (m_threads m0) = (N * (pd + 1))%nat ∧
    machine_inv m0 (replicate (N * (pd + 1)) 0%nat) ∧ splat_inv m0 ∧
    ∀ n pos value r,
      ref !! n = Some pos → src !! n = Some value → (r ≤ pd)%nat →
      ∃ g key,
        splat_geometry pd (scaleFactor L) pos = Some g ∧
        corner_key pd (canonical L) (s_y g) (s_rank g) r (replicate pd 0)
          = Some key ∧
        m_threads m0 !! (n * (pd + 1) + r)%nat =
          Some {| th_key := key; th_slot := (n * (pd + 1) + r)%nat;
                  th_weight := s_bary g !!! r; th_value := value;
                  th_pc := Probing
                             (start_bucket (HashTableGPU_new pd vd N)
                                {| th_key := key; th_slot := 0;
                                   th_weight := 0%Q; th_value := [];
                                   th_pc := Probing 0 |}) |}.
Proof.
  intros [HN Ht Hc Hsf Hrp Hpd Hmax Hcap Hk Hv Hsrc Href Hfeat Hpts].
  unfold splat_machine, splat_threads. rewrite HN, Ht, Href.
  change (t_pd (HashTableGPU_new pd vd N)) with pd.
  pose proof (grid_ge N) as Hgrid.
  rewrite Nat.min_r by done.
  set (f := λ i : nat,
         pos ← ref !! (i `div` (pd + 1))%nat;
         value ← src !! (i `div` (pd + 1))%nat;
         corner_thread (scaleFactor L) (canonical L) (HashTableGPU_new pd vd N)
           (i `div` (pd + 1)) pos value (i `mod` (pd + 1))).
  (* every instance is defined *)
  assert (Hdef : ∀ n pos value r,
    ref !! n = Some pos → src !! n = Some value → (r ≤ pd)%nat →
    ∃ g key,
      splat_geometry pd (scaleFactor L) pos = Some g ∧
      corner_key pd (canonical L) (s_y g) (s_rank g) r (replicate pd 0)
        = Some key ∧
      f (n * (pd + 1) + r)%nat =
        Some {| th_key := key; th_slot := (n * (pd + 1) + r)%nat;
                th_weight := s_bary g !!! r; th_value := value;
                th_pc := Probing
                           (start_bucket (HashTableGPU_new pd vd N)
                              {| th_key := key; th_slot := 0;
                                 th_weight := 0%Q; th_value := [];
                                 th_pc := Probing 0 |}) |}).
  { intros n pos value r Hp Hval Hr.
    destruct (Hpts n pos Hp) as [Hlp Hrep].
    destruct (geometry_defined pd (scaleFactor L) pos Hpd Hmax Hsf Hlp Hrep)
      as (_ & _ & g & _ & _ & _ & Hg & _ & Hrank).
    destruct (corner_key_total pd (canonical L) (s_y g) (s_rank g) r
                (replicate pd 0)) as [key Hkey];
      [done|rewrite Hc; apply length_canonical_table|done|done|].
    exists g, key. split; [done|]. split; [done|].
    unfold f.
    replace ((n * (pd + 1) + r) `div` (pd + 1))%nat with n
      by (apply Nat.div_unique with r; lia).
    replace ((n * (pd + 1) + r) `mod` (pd + 1))%nat with r
      by (apply Nat.mod_unique with n; lia).
    rewrite Hp, Hval. cbn [mbind option_bind]. unfold corner_thread.
    change (t_pd (HashTableGPU_new pd vd N)) with pd.
    rewrite Hg. cbn [mbind option_bind]. rewrite Hkey. done. }
  assert (Hdef' : ∀ i, (i < N * (pd + 1))%nat →
    ∃ th, f i = Some th ∧ th_slot th = i ∧
          th_pc th = Probing (start_bucket (HashTableGPU_new pd vd N) th)).
  { intros i Hi.
    pose proof (Nat.div_mod_eq i (pd + 1)) as Hdm.
    pose proof (Nat.mod_upper_bound i (pd + 1) ltac:(lia)) as Hr.
    assert (Hn : (i `div` (pd + 1) < N)%nat).
    { apply Nat.Div0.div_lt_upper_bound. lia. }
    destruct (lookup_lt_is_Some_2 ref (i `div` (pd + 1))%nat ltac:(lia))
      as [pos Hp].
    destruct (lookup_lt_is_Some_2 src (i `div` (pd + 1))%nat ltac:(lia))
      as [value Hval].
    destruct (Hdef _ pos value (i `mod` (pd + 1))%nat Hp Hval ltac:(lia))
      as (g & key & _ & _ & Hf).
    replace (i `div` (pd + 1) * (pd + 1) + i `mod` (pd + 1))%nat with i
      in Hf by lia.
    eexists. split; [exact Hf|]. split; reflexivity. }
  destruct (mapM_is_Some_2 f (seq 0 (N * (pd + 1)))) as [threads Hthreads].
  { apply Forall_seq. intros i Hi.
    destruct (Hdef' i ltac:(lia)) as (th & Hth & _). by exists th. }
  fold f. rewrite Hthreads. cbn [mbind option_bind].
  eexists. split; [reflexivity|]. cbn [m_table m_replay m_threads].
  apply mapM_Some_1 in Hthreads.
  assert (Hlen : length (seq 0 (N * (pd + 1))) = length threads)
    by (by eapply Forall2_length).
  rewrite length_seq in Hlen.
  assert (Hlk : ∀ i th, threads !! i = Some th → f i = Some th).
  { intros i th Hi.
    destruct (Forall2_lookup_r _ _ _ _ _ Hthreads Hi) as (x & Hx & Hfx).
    apply lookup_seq in Hx as [-> _]. done. }
  assert (Hthread : ∀ i th, threads !! i = Some th →
    th_slot th = i ∧
    th_pc th = Probing (start_bucket (HashTableGPU_new pd vd N) th)).
  { intros i th Hi. pose proof (lookup_lt_Some _ _ _ Hi) as Hlt.
    destruct (Hdef' i ltac:(lia)) as (th' & Hth' & Hs & Hp).
    rewrite (Hlk i th Hi) in Hth'. by injection Hth' as <-. }
  split; [done|]. split; [done|]. split; [done|]. split; [|split].
  - rewrite Hlen.
    apply machine_inv_init.
    + by apply HashTableGPU_new_wf.
    + done.
    + intros i th Hi. destruct (Hthread i th Hi) as [Hs Hp].
      pose proof (lookup_lt_Some _ _ _ Hi) as Hlt.
      split; [|done]. rewrite Hs. simpl. lia.
    + rewrite HashTableGPU_new_claimed. simpl. lia.
  - split; cbn [m_table m_replay m_threads].
    + intros i th Hi. destruct (Hthread i th Hi) as [Hs Hp].
      split; [done|]. rewrite Hp. intros h Hh. simpl in Hh.
      apply lookup_replicate in Hh as [Hh _]. lia.
    + intros i i' th th' h Hi _ Hh.
      destruct (Hthread i th Hi) as [_ Hp]. by rewrite Hp in Hh.
    + intros s j Hs Hj. simpl. rewrite lookup_total_zeros.
      symmetry. apply sum_range_zero. intros i Hi.
      destruct (lookup_lt_is_Some_2 threads i ltac:(lia)) as [th Hth].
      rewrite (list_lookup_total_correct _ _ _ Hth).
      destruct (Hthread i th Hth) as [_ Hp].
      unfold contribution. by rewrite Hp.
    + simpl. rewrite sumQ_zeros by (intros; apply lookup_total_zeros).
      symmetry. apply sum_range_zero. intros i Hi.
      destruct (lookup_lt_is_Some_2 threads i ltac:(lia)) as [th Hth].
      rewrite (list_lookup_total_correct _ _ _ Hth).
      destruct (Hthread i th Hth) as [_ Hp].
      unfold contributed. by rewrite Hp.
  - intros n pos value r Hp Hval Hr.
    destruct (Hdef n pos value r Hp Hval Hr) as (g & key & Hg & Hkey & Hf).
    exists g, key. split; [done|]. split; [done|].
    pose proof (lookup_lt_Some _ _ _ Hp) as Hn. rewrite Href in Hn.
    destruct (lookup_lt_is_Some_2 threads (n * (pd + 1) + r)%nat ltac:(nia))
      as [th Hth].
    rewrite Hth. f_equal. pose proof (Hlk _ _ Hth) as Hf'.
    rewrite Hf in Hf'. by injection Hf' as <-.
Qed.

Lemma finished_spec m :
  finished m = true ↔
  ∀ i th, m_threads m !! i = Some th → phase (th_pc th) = 4%nat.
Proof.
  unfold finished. rewrite <- Is_true_true, forallb_True, Forall_lookup.
  split; intros H i th Hi; specialize (H i th Hi).
  - by destruct (th_pc th).
  - by destruct (th_pc th).
Qed.

(** An instance scheduled again and again finishes, whatever state the
    others have left; their program counters stay as they are. *)
Lemma finish_one n m c i :
  machine_inv m c → (i < length (m_threads m))%nat →
  (capacity (m_table m) + 3
   ≤ n + (c !!! i + phase (th_pc (m_threads m !!! i))))%nat →
  ∃ k m' c',
    run_counting (replicate k i) (m, c) = Some (m', c') ∧
    machine_inv m' c' ∧
    length (m_threads m') = length (m_threads m) ∧
    phase (th_pc (m_threads m' !!! i)) = 4%nat ∧
    ∀ j, j ≠ i →
      th_pc (m_threads m' !!! j) = th_pc (m_threads m !!! j).
Proof.
  revert m c. induction n as [|n IH]; intros m c Hinv Hi Hn.
  - destruct (lookup_lt_is_Some_2 _ _ Hi) as [th Hth].
    pose proof (list_lookup_total_correct _ _ _ Hth) as Hth'.
    destruct (mi_threads _ _ Hinv i th Hth) as (_ & Hc & _).
    pose proof (phase_le (th_pc th)). rewrite Hth' in Hn.
    exists 0%nat, m, c. split_and!; try done. rewrite Hth'. lia.
  - destruct (lookup_lt_is_Some_2 _ _ Hi) as [th Hth].
    pose proof (list_lookup_total_correct _ _ _ Hth) as Hth'.
    destruct (decide (phase (th_pc th) = 4%nat)) as [Hfin|Hph].
    { exists 0%nat, m, c. split_and!; try done. by rewrite Hth'. }
    destruct (step_counting_inv m c i th Hinv Hth Hph)
      as (m1 & c1 & Hstep & Hinv1 & Hgrow).
    destruct (step_counting_measure i i m c m1 c1
                (mi_counts _ _ Hinv) Hi Hstep) as (_ & Hlen1 & Hm).
    rewrite decide_True in Hm by done.
    assert (Hs : step i m = Some m1).
    { unfold step_counting in Hstep. cbn [fst snd] in Hstep.
      destruct (step i m); [|done]. cbn [mbind option_bind] in Hstep.
      congruence. }
    destruct (step_threads i m m1 Hs) as (th0 & p & Hth0 & Hthreads).
    destruct Hgrow as (_ & Hcap & _).
    destruct (IH m1 c1 Hinv1) as (k & m' & c' & Hrun & Hinv' & Hlen' & Hfin' & Hoth).
    { lia. }
    { rewrite Hcap. lia. }
    exists (S k), m', c'. cbn [replicate].
    rewrite run_counting_cons, Hstep. cbn [mbind option_bind].
    split_and!; try done; try lia.
    intros j Hj. rewrite (Hoth j Hj), Hthreads.
    by rewrite list_lookup_total_insert_ne.
Qed.

(** Every execution can be brought to its end: from a state of the
    kernel there is a schedule after which every instance has finished. *)
Lemma run_completes m c :
  machine_inv m c →
  ∃ schedule m', run schedule m = Some m' ∧ finished m' = true.
Proof.
  intros Hinv.
  assert (Hk : ∀ k, (k ≤ length (m_threads m))%nat →
    ∃ schedule m' c',
      run_counting schedule (m, c) = Some (m', c') ∧ machine_inv m' c' ∧
      length (m_threads m') = length (m_threads m) ∧
      ∀ j, (j < k)%nat → phase (th_pc (m_threads m' !!! j)) = 4%nat).
  { induction k as [|k IH]; intros Hle.
    { exists [], m, c. split_and!; try done. intros; lia. }
    destruct IH as (l & m1 & c1 & Hrun1 & Hinv1 & Hlen1 & Hdone1); [lia|].
    destruct (finish_one (capacity (m_table m1) + 3) m1 c1 k Hinv1)
      as (n & m2 & c2 & Hrun2 & Hinv2 & Hlen2 & Hfin2 & Hoth2); [lia|lia|].
    exists (l ++ replicate n k), m2, c2.
    split_and!; try done; try lia.
    - unfold run_counting in *. rewrite foldl_app, Hrun1. exact Hrun2.
    - intros j Hj. destruct (decide (j = k)) as [->|Hne]; [done|].
      rewrite Hoth2 by done. apply Hdone1. lia. }
  destruct (Hk _ (Nat.le_refl _)) as (l & m' & c' & Hrun & _ & Hlen & Hdone).
  exists l, m'. split.
  - rewrite <- run_counting_run with (c := c). by rewrite Hrun.
  - apply finished_spec. intros i th Hi.
    pose proof (lookup_lt_Some _ _ _ Hi) as Hlt.
    rewrite <- (list_lookup_total_correct _ _ _ Hi). apply Hdone. lia.
Qed.

(** What a finished instance has left. *)
Lemma finished_facts m i th :
  splat_inv m → finished m = true → m_threads m !! i = Some th →
  ∃ h s,
    th_pc th = Finished h (s * Z.of_nat (t_vd (m_table m))) ∧
    m_replay m !! i = Some {| entry := h; weight := th_weight th |} ∧
    entry2nid (m_table m) !! h = Some s ∧
    0 ≤ s < Z.of_nat (capacity (m_table m)) ∧
    landing (m_table m) (m_replay m) i = s ∧
    stored (m_table m) s (th_key th).
Proof.
  intros Hinv Hfin Hi.
  pose proof (proj1 (finished_spec m) Hfin i th Hi) as Hph.
  destruct (si_facts _ Hinv i th Hi) as [_ Hf].
  destruct (th_pc th) as [h|h|h|h|h base]; try done.
  destruct Hf as (s & Hs & Hr & Hk & -> & He).
  exists h, s. split_and!; try done; try lia.
  unfold landing. rewrite (list_lookup_total_correct _ _ _ He).
  cbn [entry]. by apply list_lookup_total_correct.
Qed.

Lemma sum_range_app f lo n1 n2 :
  (sum_range f lo (n1 + n2)
   == sum_range f lo n1 + sum_range f (lo + n1) n2)%Q.
Proof.
  induction n2 as [|n2 IH].
  - rewrite Nat.add_0_r. simpl. ring.
  - rewrite Nat.add_succ_r. cbn [sum_range]. rewrite IH.
    rewrite Nat.add_assoc. ring.
Qed.

Lemma sum_range_shift f lo n :
  (sum_range f lo n == sum_range (λ r, f (lo + r)%nat) 0 n)%Q.
Proof.
  induction n as [|n IH]; [reflexivity|].
  cbn [sum_range]. rewrite IH. reflexivity.
Qed.

(** A sum over the instances, point by point. *)
Lemma sum_range_blocks f N K :
  (sum_range f 0 (N * K)
   == sum_range (λ n, sum_range (λ r, f (n * K + r)%nat) 0 K) 0 N)%Q.
Proof.
  induction N as [|N IH]; [reflexivity|].
  replace (S N * K)%nat with (N * K + K)%nat by lia.
  rewrite sum_range_app, IH. cbn [sum_range].
  rewrite (sum_range_shift f (0 + N * K)). reflexivity.
Qed.

(** The state of a finished kernel, instance by instance and cell by
    cell. *)
Lemma finished_state L pd vd N src ref m0 schedule m :
  filter_pre L pd vd N src ref →
  splat_machine L src ref = Some m0 →
  run schedule m0 = Some m → finished m = true →
  ∃ c,
    machine_inv m c ∧ splat_inv m ∧
    same_dims (HashTableGPU_new pd vd N) (m_table m) ∧
    length (m_threads m) = (N * (pd + 1))%nat ∧
    length (m_threads m0) = (N * (pd + 1))%nat ∧
    (∀ i, th_key (m_threads m !!! i) = th_key (m_threads m0 !!! i) ∧
          th_weight (m_threads m !!! i) = th_weight (m_threads m0 !!! i) ∧
          th_value (m_threads m !!! i) = th_value (m_threads m0 !!! i)) ∧
    (∀ i, (i < N * (pd + 1))%nat →
       let s := landing (m_table m) (m_replay m) i in
       ∃ h,
         m_replay m !! i
           = Some {| entry := h; weight := th_weight (m_threads m0 !!! i) |} ∧
         entry2nid (m_table m) !! h = Some s ∧
         0 ≤ s < Z.of_nat (capacity (m_table m)) ∧
         stored (m_table m) s (th_key (m_threads m0 !!! i)) ∧
         ∀ j, (j < vd)%nat →
           (values (m_table m) !!! Z.to_nat (s * Z.of_nat vd + Z.of_nat j)
            == gathered (m_threads m0)
                 (landing (m_table m) (m_replay m)) s j)%Q).
Proof.
  intros Hpre Hm0 Hrun Hfin.
  destruct (splat_machine_init L pd vd N src ref Hpre)
    as (m0' & Hm0' & Ht0 & Hrp0 & Hlen0 & Hminv0 & Hinv0 & _).
  rewrite Hm0 in Hm0'. injection Hm0' as <-.
  destruct (splat_inv_run schedule m0 _ m Hminv0 Hinv0 Hrun)
    as (c & _ & Hminv & Hinv & Hdims).
  rewrite Ht0 in Hdims.
  destruct (run_threads schedule m0 m Hrun) as [Hlen Hsame].
  exists c. split_and!; try done; [congruence|].
  destruct Hdims as (Hpd & Hvd & HN & Hcap).
  assert (Hall : ∀ i, (i < N * (pd + 1))%nat →
    ∃ th h s,
      m_threads m !! i = Some th ∧
      th_pc th = Finished h (s * Z.of_nat vd) ∧
      m_replay m !! i = Some {| entry := h; weight := th_weight th |} ∧
      entry2nid (m_table m) !! h = Some s ∧
      0 ≤ s < Z.of_nat (capacity (m_table m)) ∧
      landing (m_table m) (m_replay m) i = s ∧
      stored (m_table m) s (th_key th)).
  { intros i Hi.
    destruct (lookup_lt_is_Some_2 (m_threads m) i ltac:(lia)) as [th Hth].
    destruct (finished_facts m i th Hinv Hfin Hth)
      as (h & s & Hpc & Hrp & Hs & Hr & Hland & Hk).
    rewrite Hvd in Hpc. exists th, h, s. done. }
  intros i Hi. cbn zeta.
  destruct (Hall i Hi) as (th & h & s & Hth & Hpc & Hrp & Hs & Hr & Hland & Hk).
  pose proof (list_lookup_total_correct _ _ _ Hth) as Hth'.
  destruct (Hsame i) as (Hkey & Hw & _). rewrite Hth' in Hkey, Hw.
  rewrite Hland. exists h. rewrite <- Hw, <- Hkey.
  split_and!; try done; try lia.
  intros j Hj.
  pose proof (si_values _ Hinv s j Hr) as Hcell. rewrite Hvd in Hcell.
  rewrite (Hcell Hj). unfold gathered. rewrite Hlen, Hlen0.
  apply sum_range_ext. intros i' Hi'.
  destruct (Hall i' ltac:(lia))
    as (th' & h' & s' & Hth1 & Hpc' & _ & _ & Hr' & Hland' & _).
  rewrite (list_lookup_total_correct _ _ _ Hth1).
  destruct (Hsame i') as (_ & Hw' & Hv').
  rewrite (list_lookup_total_correct _ _ _ Hth1) in Hw', Hv'.
  rewrite <- Hw', <- Hv', Hland'.
  unfold contribution. rewrite Hpc'.
  destruct (decide (s' = s)) as [->|Hne].
  - rewrite decide_True by done. reflexivity.
  - rewrite decide_False; [reflexivity|].
    intros Heq. assert (Hvd0 : Z.of_nat vd ≠ 0) by lia.
    by apply (Z.mul_cancel_r s' s (Z.of_nat vd) Hvd0) in Heq.
Qed.

(** The rows of the result when the kernel is over. *)
Lemma filter_scheduled_rows L pd vd N src ref m0 schedule m :
  filter_pre L pd vd N src ref →
  splat_machine L src ref = Some m0 →
  run schedule m0 = Some m → finished m = true →
  ∃ out,
    filter_scheduled L schedule src ref = Some out ∧
    length out = length src ∧
    ∀ n feature, src !! n = Some feature →
      ∃ row,
        out !! n = Some row ∧ length row = length feature ∧
        ∀ j, (j < vd)%nat →
          (row !!! j ==
           sum_range
             (λ r, let i := (n * (pd + 1) + r)%nat in
                   let land := landing (m_table m) (m_replay m) in
                   th_weight (m_threads m0 !!! i)
                   * gathered (m_threads m0) land (land i) j
                   / slice_norm pd)
             0 (pd + 1))%Q.
Proof.
  intros Hpre Hm0 Hrun Hfin.
  destruct (finished_state L pd vd N src ref m0 schedule m Hpre Hm0 Hrun Hfin)
    as (c & Hminv & Hinv & (Hpd & Hvd & HtN & Hcap) & Hlen & _ & Hsame
        & Hstate).
  simpl in Hpd, Hvd, HtN, Hcap.
  pose proof (pre_N _ _ _ _ _ _ Hpre) as HN.
  pose proof (pre_src _ _ _ _ _ _ Hpre) as Hsrc.
  set (d := {| table := m_table m; replay := m_replay m |}).
  destruct (slice_returns L d src) as [out Hout].
  { apply Hminv. }
  { simpl. congruence. }
  { congruence. }
  { simpl. rewrite Hpd, HN. intros i Hi.
    destruct (Hstate i Hi) as (h & Hrp & Hs & Hr & _).
    eexists _, _. split; [exact Hrp|]. split; [exact Hs|exact Hr]. }
  exists out. split; [|split].
  - unfold filter_scheduled. rewrite Hm0. cbn [mbind option_bind].
    rewrite Hrun. cbn [mbind option_bind]. by rewrite Hfin.
  - apply for_rangeM_cellwise in Hout as [Hl _].
    by rewrite Hl, length_fmap.
  - intros n feature Hn.
    pose proof (lookup_lt_Some _ _ _ Hn) as Hlt. rewrite Hsrc in Hlt.
    pose proof (pre_features _ _ _ _ _ _ Hpre n feature Hn) as Hfl.
    destruct (slice_row_thread L d src out n feature Hout)
      as (row & Hrow & Hpoint); [simpl; congruence|lia|done|].
    apply slice_point_spec in Hpoint as [Hl Hs];
      [|rewrite length_replicate; simpl; congruence].
    simpl in Hl, Hs. rewrite Hvd in Hl, Hs. rewrite Hpd in Hs.
    exists row. split; [done|]. split; [congruence|].
    intros j Hj. rewrite (Hs j Hj), lookup_total_zeros, Qplus_0_l.
    apply sum_range_ext. intros r Hr.
    destruct (Hstate (n * (pd + 1) + r)%nat ltac:(nia))
      as (h & Hrp & Hh & _ & _ & Hcell).
    unfold slice_term. cbn [table replay d]. rewrite Hpd, Hvd.
    rewrite (list_lookup_total_correct _ _ _ Hrp). cbn [entry weight].
    rewrite (list_lookup_total_correct _ _ _ Hh).
    rewrite (Hcell j Hj). reflexivity.
Qed.



(** Conservation under every schedule: when the splat kernel of a call
    that meets the preconditions is over, the cells of [values] sum to
    the sum of all features, whichever buckets the instances were
    returned. *)
Theorem splat_conserves_features (L : PermutohedralLatticeGPU)
    (pd vd N : nat) (src ref : list (list Q)) (m0 : machine)
    (schedule : list nat) (m : machine) :
  filter_pre L pd vd N src ref →
  splat_machine L src ref = Some m0 →
  run schedule m0 = Some m → finished m = true →
  (sumQ (values (m_table m)) == total_features src vd)%Q.
Proof.
  intros Hpre Hm0 Hrun Hfin.
  destruct (finished_state L pd vd N src ref m0 schedule m Hpre Hm0 Hrun Hfin)
    as (c & Hminv & Hinv & (Hpd & Hvd & HtN & Hcap) & Hlen & Hlen0 & Hsame & _).
  destruct (splat_machine_init L pd vd N src ref Hpre)
    as (m0' & Hm0' & _ & _ & _ & _ & _ & Hinst).
  rewrite Hm0 in Hm0'. injection Hm0' as <-.
  pose proof (pre_src _ _ _ _ _ _ Hpre) as Hsrc.
  pose proof (pre_ref _ _ _ _ _ _ Hpre) as Href.
  rewrite (si_total _ Hinv), Hlen, Hvd. simpl.
  unfold total_features. rewrite Hsrc, sum_range_blocks.
  apply sum_range_ext. intros n Hn.
  destruct (lookup_lt_is_Some_2 ref n ltac:(lia)) as [pos Hp].
  destruct (lookup_lt_is_Some_2 src n ltac:(lia)) as [value Hval].
  rewrite (list_lookup_total_correct _ _ _ Hval).
  set (F := sum_range (λ j, value !!! j) 0 vd).
  destruct (Hinst n pos value 0%nat Hp Hval ltac:(lia)) as (g & _ & Hg & _).
  rewrite (sum_range_ext _ (λ r, F * s_bary g !!! r)%Q).
  { rewrite sum_range_scale.
    rewrite (geometry_weights_sum pd (scaleFactor L) pos g Hg). ring. }
  intros r Hr.
  destruct (Hinst n pos value r Hp Hval ltac:(lia))
    as (g' & key & Hg' & _ & Hth0).
  rewrite Hg in Hg'. injection Hg' as <-.
  destruct (lookup_lt_is_Some_2 (m_threads m) (n * (pd + 1) + r)%nat
              ltac:(nia)) as [th Hth].
  pose proof (proj1 (finished_spec m) Hfin _ th Hth) as Hph.
  destruct (Hsame (n * (pd + 1) + r)%nat) as (_ & Hw & Hv).
  rewrite (list_lookup_total_correct _ _ _ Hth0) in Hw, Hv.
  rewrite (list_lookup_total_correct _ _ _ Hth) in Hw, Hv |- *.
  unfold contributed. destruct (th_pc th); try done.
  rewrite Hw, Hv. cbn [th_weight th_value]. fold F. ring.
Qed.

Lemma splat_conserves_features_witness :
  let L := PermutohedralLatticeGPU_new sqrt_6 1 1 2 in
  let src := [[1%Q]; [1%Q]] in
  let ref := [[0%Q]; [0%Q]] in
  let schedule := [0; 2; 2; 2; 2; 2; 0; 0; 0; 1; 1; 1; 1; 3; 3]%nat in
  ∃ m0 m,
    splat_machine L src ref = Some m0 ∧ run schedule m0 = Some m ∧
    entry2nid (m_table m) = [0; 2; -1; 1] ∧
    (sumQ (values (m_table m)) == total_features src 1)%Q.
Proof.
  intros L src ref schedule. eexists _, _.
  split; [vm_compute; reflexivity|]. split; [vm_compute; reflexivity|].
  split; [reflexivity|].
  eapply (splat_conserves_features L 1 1 2 src ref _ schedule).
  - split; try reflexivity; try (simpl; lia).
    + intros [|[|n]] value; simpl; intros [= <-]; reflexivity.
    + intros [|[|n]] pos; simpl; intros [= <-]; (split; [reflexivity|]);
        intros i Hi; (destruct i as [|[|i]]; [| |lia]);
        vm_compute; split; discriminate.
  - vm_compute. reflexivity.
  - vm_compute. reflexivity.
  - reflexivity.
Defined.

Lemma length_scale_factors sqrt_scalar pd :
  length (scale_factors sqrt_scalar pd) = pd.
Proof.
  unfold scale_factors.
  rewrite (length_for_range_insert 0 pd (λ i, i)). apply length_replicate.
Qed.

(** A launch for one point at the origin of dimension 32768. *)
Lemma origin_undefined sqrt_scalar pd :
  Z.of_nat pd = 32768 →
  let L := PermutohedralLatticeGPU_new sqrt_scalar pd 1 1 in
  let src := [[1%Q]] in
  let ref := [replicate pd 0%Q] in
  splat_geometry pd (scaleFactor L) (replicate pd 0%Q) = None ∧
  splat_machine L src ref = None ∧
  (∀ schedule, filter_scheduled L schedule src ref = None) ∧
  filter L src ref = None.
Proof.
  intros Hpd L src ref.
  destruct (origin_rank_wraps pd (scaleFactor L) Hpd
              (length_scale_factors sqrt_scalar pd)) as (_ & _ & _ & _ & Hg).
  assert (Hm : splat_machine L src ref = None).
  { unfold splat_machine, splat_threads.
    change (t_pd (hashTable L)) with pd.
    change (grid (l_N L) `min` length ref)%nat with 1%nat.
    rewrite Nat.mul_1_l, Nat.add_1_r, <- cons_seq.
    rewrite mapM_None_2; [done|]. apply Exists_cons_hd.
    rewrite Nat.Div0.div_0_l. cbn [ref lookup list_lookup src].
    cbn [mbind option_bind]. unfold corner_thread.
    change (t_pd (hashTable L)) with pd. by rewrite Hg. }
  split; [done|]. split; [done|]. split.
  - intros schedule. unfold filter_scheduled. by rewrite Hm.
  - unfold filter, splat. change (grid (l_N L)) with (1 + 1023)%nat.
    rewrite for_rangeM_idle.
    2:{ intros k d Hk. rewrite decide_True; [done|simpl; lia]. }
    unfold for_rangeM. cbn [seq foldl mbind option_bind].
    rewrite decide_False by (simpl; lia).
    cbn [ref lookup list_lookup src mbind option_bind].
    unfold splat_point. cbn [table].
    change (t_pd (hashTable L)) with pd. by rewrite Hg.
Qed.


(** ** Scenario B under every schedule *)

(** The call of scenario B meets the preconditions of [filter]. *)
Lemma line_pre (sqrt_scalar : Q → Q) (v : Q) :
  filter_pre (PermutohedralLatticeGPU_new sqrt_scalar 1 1 1) 1 1 1
    [[v]] [[0%Q]].
Proof.
  split; try reflexivity; try (simpl; lia).
  - intros [|n] value; simpl; [|done]. by intros [= <-].
  - intros [|n] pos; simpl; [|done]. intros [= <-]. split; [reflexivity|].
    intros i Hi.
    rewrite (round_half_away_origin _ _ (elevated_spec_origin 1 _ i)).
    split; lia.
Qed.

(** On the line lattice, a single point at position [0] with feature [v]
    comes back as two thirds of [v] whatever the order in which the
    device takes the steps of the two corners of the point: the launch is
    defined, it has executions that reach the end of the kernel, and
    every one of them gives [filter] the result [v / (1 + 2^-1)]. *)
Theorem single_point_under_every_schedule (sqrt_scalar : Q → Q) (v : Q) :
  let L := PermutohedralLatticeGPU_new sqrt_scalar 1 1 1 in
  ∃ m0,
    splat_machine L [[v]] [[0%Q]] = Some m0 ∧
    (∃ schedule m, run schedule m0 = Some m ∧ finished m = true) ∧
    ∀ schedule m, run schedule m0 = Some m → finished m = true →
      ∃ out,
        filter_scheduled L schedule [[v]] [[0%Q]] = Some [[out]] ∧
        (out == v / (1 + 2 ^ (-1)))%Q ∧ (out == (2 # 3) * v)%Q.
Proof.
  intros L.
  pose proof (line_pre sqrt_scalar v) as Hpre. fold L in Hpre.
  destruct (splat_machine_init L 1 1 1 _ _ Hpre)
    as (m0 & Hm0 & _ & _ & Hl0 & Hminv0 & _ & Hinst).
  exists m0. split; [exact Hm0|]. split.
  { destruct (run_completes m0 _ Hminv0) as (rest & m' & Hrest & Hfin).
    by exists rest, m'. }
  intros schedule m Hrun Hfin.
  destruct (filter_scheduled_rows L 1 1 1 _ _ m0 schedule m Hpre Hm0 Hrun Hfin)
    as (out & Hout & Hlen & Hrows).
  destruct (Hrows 0%nat [v] eq_refl) as (row & Hrow & Hrl & Hsum).
  destruct out as [|row' [|? ?]]; try discriminate.
  injection Hrow as ->.
  destruct row as [|a [|? ?]]; try discriminate.
  exists a. split; [exact Hout|].
  specialize (Hsum 0%nat ltac:(lia)).
  cbn [lookup_total list_lookup_total] in Hsum.
  assert (Ha : (a == (2 # 3) * v)%Q).
  2:{ split; [|exact Ha]. rewrite Ha. vm_compute (2 ^ (-1))%Q. field. }
  rewrite Hsum. clear Hsum.
  destruct (geometry_line (scaleFactor L !!! 0%nat))
    as (e & b0 & b1 & b2 & Hg & Hb0 & Hb1).
  destruct (Hinst 0%nat [0%Q] [v] 0%nat eq_refl eq_refl ltac:(lia))
    as (g & k0 & Hg0 & _ & Ht0).
  destruct (Hinst 0%nat [0%Q] [v] 1%nat eq_refl eq_refl ltac:(lia))
    as (g' & k1 & Hg1 & _ & Ht1).
  change (scaleFactor L) with [scaleFactor L !!! 0%nat] in Hg0, Hg1.
  rewrite Hg in Hg0, Hg1. injection Hg0 as <-. injection Hg1 as <-.
  cbn [s_bary lookup_total list_lookup_total] in Ht0, Ht1.
  simpl in Ht0, Ht1.
  assert (Hnorm : (slice_norm 1 == 3 # 2)%Q) by (vm_compute; reflexivity).
  unfold gathered. rewrite Hl0.
  cbn [sum_range Nat.mul Nat.add].
  rewrite (list_lookup_total_correct _ _ _ Ht0).
  rewrite (list_lookup_total_correct _ _ _ Ht1).
  cbn [th_weight th_value lookup_total list_lookup_total].
  rewrite !(decide_True (P := _ = _)) by reflexivity.
  repeat case_decide; rewrite Hnorm, ?Hb0, ?Hb1; field.
Qed.

Lemma single_point_under_every_schedule_witness :
  let L := PermutohedralLatticeGPU_new sqrt_6 1 1 1 in
  ∃ out,
    filter_scheduled L [0; 1; 1; 0; 1; 0; 0; 1]%nat [[1%Q]] [[0%Q]]
      = Some [[out]] ∧
    (out == 2 # 3)%Q.
Proof.
  intros L.
  destruct (single_point_under_every_schedule sqrt_6 1)
    as (m0 & Hm0 & _ & Hall).
  destruct (run [0; 1; 1; 0; 1; 0; 0; 1]%nat m0) as [m|] eqn:Hrun.
  2:{ exfalso. revert Hrun. vm_compute in Hm0. injection Hm0 as <-.
      vm_compute. discriminate. }
  destruct (Hall _ m Hrun) as (out & Hout & _ & Hval).
  { revert Hrun. vm_compute in Hm0. injection Hm0 as <-.
    vm_compute. intros [= <-]. reflexivity. }
  exists out. split; [exact Hout|]. rewrite Hval. reflexivity.
Defined.

(** ** The threads in turn are one execution of the launch *)

(** The key loop overwrites the whole row: the key of a corner does not
    depend on what the previous corner has left in [matK[n]]. *)
Lemma corner_key_cells pd canonical y rank r key k :
  corner_key pd canonical y rank r key = Some k →
  length k = length key ∧
  ∀ i, (i < pd)%nat →
    ∃ c, load canonical (Z.of_nat r * (Z.of_nat pd + 1) + rank !!! i)
           = Some c ∧
         ((i < length key)%nat → k !! i = Some (wrap16 (y !!! i + c))).
Proof.
  unfold corner_key. intros Hrun.
  pose (P := λ (m : nat) (k : list Z),
    length k = length key ∧
    ∀ i, (i < m)%nat →
      ∃ c, load canonical (Z.of_nat r * (Z.of_nat pd + 1) + rank !!! i)
             = Some c ∧
           ((i < length key)%nat → k !! i = Some (wrap16 (y !!! i + c)))).
  assert (HP : P pd k).
  { eapply for_rangeM_ind; [exact Hrun| |].
    - split; [done|]. intros; lia.
    - intros m k0 k1 Hm [Hl Hc] Hbody. simpl in Hbody.
      destruct (int_index _) as [ix|] eqn:Eix; [|done].
      apply int_index_inv in Eix as [-> _].
      cbn [mbind option_bind] in Hbody.
      destruct (load canonical _) as [c|] eqn:Ec; [|done].
      cbn [mbind option_bind] in Hbody. injection Hbody as <-.
      split; [by rewrite length_insert|].
      intros i Hi. destruct (decide (i = m)) as [->|Hne].
      + exists c. split; [done|]. intros Hlt.
        apply list_lookup_insert_eq. lia.
      + destruct (Hc i ltac:(lia)) as (c' & Hc' & Hk).
        exists c'. split; [done|]. intros Hlt.
        rewrite list_lookup_insert_ne by done. by apply Hk. }
  destruct HP as [Hl Hc]. split; [done|].
  intros i Hi. destruct (Hc i Hi) as (c & Hc1 & Hc2). by exists c.
Qed.

Lemma corner_key_fresh pd canonical y rank r key key' k k' :
  length key = pd → length key' = pd →
  corner_key pd canonical y rank r key = Some k →
  corner_key pd canonical y rank r key' = Some k' →
  k = k'.
Proof.
  intros Hl Hl' Hk Hk'.
  apply corner_key_cells in Hk as [Hlk Hc].
  apply corner_key_cells in Hk' as [Hlk' Hc'].
  apply (list_eq_same_length _ _ pd); [congruence..|].
  intros i x x' Hi Hx Hx'.
  destruct (Hc i Hi) as (c & Hload & Hcell).
  destruct (Hc' i Hi) as (c' & Hload' & Hcell').
  rewrite Hcell in Hx by lia. rewrite Hcell' in Hx' by lia. congruence.
Qed.

(** An instance that runs alone does what one round of the corner loop
    does after the key is built: [insert], the replay entry, and the
    atomic adds on the slot that [lookupValue] gives. *)
Lemma instance_alone fuel :
  ∀ m i th h0 h t1 rp base t2,
    m_threads m !! i = Some th → th_pc th = Probing h0 →
    insert_loop fuel (m_table m) (th_key th)
      (wrap32 (Z.of_nat (th_slot th))) h0 = Some (h, t1) →
    store (m_replay m) (Z.of_nat (th_slot th))
      {| entry := h; weight := th_weight th |} = Some rp →
    lookupValue t1 h = Some base →
    accumulate t1 base (th_weight th) (th_value th) = Some t2 →
    ∃ k,
      run (replicate k i) m =
      Some {| m_table := t2; m_replay := rp;
              m_threads := <[i := set_pc th (Finished h base)]>
                             (m_threads m) |}.
Proof.
  induction fuel as [|fuel IH];
    intros m i th h0 h t1 rp base t2 Hth Hpc Hrun Hrp Hbase Hacc; [done|].
  cbn [insert_loop] in Hrun. unfold probe in Hrun.
  assert (Hi : (i < length (m_threads m))%nat) by (by eapply lookup_lt_Some).
  destruct (entry2nid (m_table m) !! h0) as [cas|] eqn:Ecas; [|done].
  cbn [mbind option_bind] in Hrun.
  (* the last step, from the state in which [insert] has returned *)
  assert (Hlast : ∀ ths,
    ths !! i = Some (set_pc th (Returned h)) →
    step i {| m_table := t1; m_replay := m_replay m; m_threads := ths |}
    = Some {| m_table := t2; m_replay := rp;
              m_threads := <[i := set_pc th (Finished h base)]> ths |}).
  { intros ths Hths. unfold step. cbn [m_threads m_table m_replay].
    rewrite Hths. cbn [mbind option_bind th_pc set_pc th_slot th_weight
                       th_value].
    rewrite Hrp. cbn [mbind option_bind]. rewrite Hbase.
    cbn [mbind option_bind]. rewrite Hacc. done. }
  (* a round that moves on to the next bucket *)
  assert (Hadv :
    step i m = Some {| m_table := m_table m; m_replay := m_replay m;
                       m_threads := <[i := set_pc th
                                            (Probing (next_bucket (m_table m) h0))]>
                                      (m_threads m) |} →
    insert_loop fuel (m_table m) (th_key th)
      (wrap32 (Z.of_nat (th_slot th))) (next_bucket (m_table m) h0)
      = Some (h, t1) →
    ∃ k, run (replicate k i) m =
         Some {| m_table := t2; m_replay := rp;
                 m_threads := <[i := set_pc th (Finished h base)]>
                                (m_threads m) |}).
  { intros Hstep Hrest.
    set (m1 := {| m_table := m_table m; m_replay := m_replay m;
                  m_threads := <[i := set_pc th
                                        (Probing (next_bucket (m_table m) h0))]>
                                 (m_threads m) |}) in *.
    destruct (IH m1 i (set_pc th (Probing (next_bucket (m_table m) h0)))
                (next_bucket (m_table m) h0) h t1 rp base t2) as [k Hk];
      try done.
    - unfold m1. cbn [m_threads]. by apply list_lookup_insert_eq.
    - exists (S k). cbn [replicate]. rewrite run_cons, Hstep.
      cbn [mbind option_bind]. rewrite Hk. unfold m1.
      cbn [m_table m_replay m_threads].
      rewrite list_insert_insert_eq. done. }
  destruct (decide (cas = -2)) as [->|Hn2].
  { apply Hadv; [|done]. unfold step. rewrite Hth. cbn [mbind option_bind].
    rewrite Hpc, Ecas. cbn [mbind option_bind].
    rewrite decide_True by done. done. }
  destruct (decide (cas = -1)) as [->|Hn1].
  - destruct (write_key _ _ _) as [t'|] eqn:Ew; [|done].
    cbn [mbind option_bind] in Hrun. injection Hrun as <- <-.
    exists 4%nat. cbn [replicate]. rewrite run_cons.
    unfold step at 1. rewrite Hth. cbn [mbind option_bind].
    rewrite Hpc, Ecas. cbn [mbind option_bind].
    rewrite decide_False by done. rewrite decide_True by done.
    cbn [mbind option_bind]. rewrite run_cons.
    unfold step at 1. cbn [m_threads m_table m_replay].
    rewrite list_lookup_insert_eq by done. cbn [mbind option_bind].
    cbn [th_pc set_pc th_key th_slot]. rewrite Ew.
    cbn [mbind option_bind]. rewrite run_cons.
    unfold step at 1. cbn [m_threads m_table m_replay].
    rewrite list_lookup_insert_eq by (by rewrite length_insert).
    cbn [mbind option_bind th_pc set_pc th_key th_slot].
    rewrite !list_insert_insert_eq.
    rewrite run_cons, Hlast by (by apply list_lookup_insert_eq).
    cbn [mbind option_bind]. rewrite list_insert_insert_eq. done.
  - destruct (key_match _ _ _) as [[|]|] eqn:Em; [| |done].
    + cbn [mbind option_bind] in Hrun. injection Hrun as <- <-.
      exists 2%nat. cbn [replicate]. rewrite run_cons.
      unfold step at 1. rewrite Hth. cbn [mbind option_bind].
      rewrite Hpc, Ecas. cbn [mbind option_bind].
      rewrite !decide_False by done. rewrite Em. cbn [mbind option_bind].
      rewrite run_cons, Hlast by (by apply list_lookup_insert_eq).
      cbn [mbind option_bind]. rewrite list_insert_insert_eq. done.
    + apply Hadv; [|done]. unfold step. rewrite Hth.
      cbn [mbind option_bind]. rewrite Hpc, Ecas. cbn [mbind option_bind].
      rewrite !decide_False by done. rewrite Em. done.
Qed.

(** One round of the corner loop is the instance of the corner run
    alone. *)
Lemma corner_in_turn t0 canonical n value g r key0 d key d' m th :
  let pd := t_pd t0 in
  let k := (n * (pd + 1) + r)%nat in
  device_inv t0 k d → (k < capacity t0)%nat → length key0 = pd →
  splat_corner canonical n value g r (key0, d) = Some (key, d') →
  m_table m = table d → m_replay m = replay d →
  m_threads m !! k = Some th →
  corner_key pd canonical (s_y g) (s_rank g) r (replicate pd 0)
    = Some (th_key th) →
  th_slot th = k → th_weight th = s_bary g !!! r → th_value th = value →
  th_pc th = Probing (start_bucket t0 th) →
  length key = pd ∧
  ∃ j h base,
    run (replicate j k) m =
    Some {| m_table := table d'; m_replay := replay d';
            m_threads := <[k := set_pc th (Finished h base)]>
                           (m_threads m) |}.
Proof.
  intros pd k Hinv Hk Hkey0 Hrun Ht Hrp Hth Hfresh Hslot Hw Hv Hpc.
  destruct (inv_dims _ _ _ Hinv) as (Hpd & _ & _ & Hcap).
  pose proof (inv_wf _ _ _ Hinv) as Hwf.
  fold pd in Hpd.
  apply splat_corner_inv in Hrun;
    [|rewrite Hpd, Hcap; exact Hk|exact Hwf].
  rewrite Hpd in Hrun. fold k in Hrun.
  destruct Hrun as (Hkey & h & t1 & base & Hins & Hlt & Hrp' & Hbase & Hacc).
  pose proof (corner_key_cells _ _ _ _ _ _ _ Hkey) as [Hlen _].
  split; [congruence|].
  assert (key = th_key th) as ->.
  { eapply corner_key_fresh; [exact Hkey0|apply length_replicate
                              |exact Hkey|exact Hfresh]. }
  unfold insert in Hins. case_decide; [done|].
  destruct (instance_alone (capacity (table d)) m k th
              (start_bucket t0 th) h t1 (replay d') base (table d'))
    as [j Hj]; try done.
  - rewrite Ht, Hslot. rewrite wrap32_id.
    2:{ pose proof (wf_capacity_int _ Hwf). unfold int_range. lia. }
    unfold start_bucket. fold pd. rewrite <- Hpd, <- Hcap. exact Hins.
  - rewrite Hrp, Hslot, Hw, Hrp'. unfold store.
    rewrite decide_True by lia. by rewrite Nat2Z.id.
  - by rewrite Hw, Hv.
  - by exists j, h, base.
Qed.



(** ** The launches *)

(** The grid is the least multiple of the block size that covers the
    points. *)
Lemma grid_spec N :
  (grid N `mod` BLOCK_SIZE = 0 ∧ N ≤ grid N < N + BLOCK_SIZE)%nat.
Proof.
  unfold grid, BLOCK_SIZE.
  pose proof (Nat.div_mod_eq (N + 1024 - 1) 1024) as E.
  pose proof (Nat.mod_upper_bound (N + 1024 - 1) 1024 ltac:(lia)).
  split; [|lia]. rewrite Nat.Div0.mod_mul. done.
Qed.

(** The threads past the last point return at once: a launch of the
    splat kernel is the loop over the rows of [ref], and a launch of the
    slice kernel the loop over the [N] points of the table. *)
Theorem launches_cover_the_points (L : PermutohedralLatticeGPU)
    (src ref : list (list Q)) (d : device) :
  length ref = l_N L → t_N (table d) = l_N L →
  splat L src ref =
    for_rangeM 0 (length ref)
      (λ n d, pos ← ref !! n;
              value ← src !! n;
              splat_point (scaleFactor L) (canonical L) n pos value d)
      {| table := hashTable L; replay := l_replay L |} ∧
  slice L d src =
    for_rangeM 0 (l_N L)
      (λ n result, out ← result !! n;
                   out ← slice_point d n out;
                   Some (<[n := out]> result))
      ((λ row, replicate (length row) 0%Q) <$> src).
Proof.
  intros Href HN. destruct (grid_spec (l_N L)) as [_ [Hge _]].
  unfold splat, slice.
  replace (grid (l_N L)) with (l_N L + (grid (l_N L) - l_N L))%nat by lia.
  split.
  - rewrite for_rangeM_idle by (intros k s Hk; rewrite decide_True; [done|lia]).
    rewrite Href. apply for_rangeM_ext. intros n s Hn.
    rewrite decide_False; [done|lia].
  - rewrite for_rangeM_idle by (intros k s Hk; rewrite decide_True; [done|lia]).
    apply for_rangeM_ext. intros n s Hn. rewrite decide_False; [done|lia].
Qed.

Lemma launches_cover_the_points_witness :
  let L := PermutohedralLatticeGPU_new sqrt_6 1 1 1 in
  let d := {| table := hashTable L; replay := l_replay L |} in
  splat L [[1%Q]] [[0%Q]] =
    for_rangeM 0 1
      (λ n d, pos ← [[0%Q]] !! n;
              value ← [[1%Q]] !! n;
              splat_point (scaleFactor L) (canonical L) n pos value d)
      {| table := hashTable L; replay := l_replay L |} ∧
  slice L d [[1%Q]] =
    for_rangeM 0 (l_N L)
      (λ n result, out ← result !! n;
                   out ← slice_point d n out;
                   Some (<[n := out]> result))
      ((λ row, replicate (length row) 0%Q) <$> [[1%Q]]).
Proof.
  intros L d.
  apply (launches_cover_the_points L [[1%Q]] [[0%Q]] d); reflexivity.
Defined.

(** ** The shared-counter table *)

(** A round of [lookup(key, true)] is a round of [insert(key, filled)]:
    the same bucket is returned under the same conditions, the pointer is
    what [lookupValue] gives for that bucket, and the counter moves on
    when the bucket was empty. *)
Lemma shared_probe_create (t : SharedCounter.HashTableGPU) key h :
  table_wf (SharedCounter.cells t) → SharedCounter.slotLock t = 0 →
  0 ≤ SharedCounter.filled t
    < Z.of_nat (capacity (SharedCounter.cells t)) →
  SharedCounter.probe t key true h =
    r ← probe (SharedCounter.cells t) key (SharedCounter.filled t) h;
    match r with
    | Advances h' => Some (SharedCounter.Advances h')
    | Returns h' c' =>
        base ← lookupValue c' h';
        Some (SharedCounter.Returns (Some base)
                {| SharedCounter.cells := c';
                   SharedCounter.filled :=
                     if decide (SharedCounter.entryIdx t !! h' = Some (-1))
                     then SharedCounter.filled t + 1
                     else SharedCounter.filled t;
                   SharedCounter.slotLock := 0 |})
    end.
Proof.
  intros Hwf Hlock Hfilled. destruct t as [c f l]. simpl in *. subst l.
  unfold SharedCounter.probe, probe, SharedCounter.entryIdx. simpl.
  destruct (entry2nid c !! h) as [cas|] eqn:Ecas; [|done].
  cbn [mbind option_bind].
  destruct (decide (cas = -2)) as [->|Hn2]; [done|].
  destruct (decide (cas = -1)) as [->|Hn1].
  - unfold SharedCounter.next_free_slot. simpl.
    pose proof (wf_capacity_int _ Hwf).
    rewrite int_index_Some by (unfold int_range; lia).
    cbn [mbind option_bind]. simpl.
    destruct (write_key_spec (set_entry2nid c (<[h := -2]> (entry2nid c)))
                f key) as (c2 & Hc2 & (_ & Hvd & _) & _ & He & _);
      [apply Hwf..|done|].
    rewrite Hc2. cbn [mbind option_bind]. unfold lookupValue. simpl.
    rewrite list_lookup_insert_eq.
    2:{ rewrite He. simpl. rewrite length_insert.
        by eapply lookup_lt_Some. }
    cbn [mbind option_bind]. simpl in Hvd. rewrite Hvd.
    rewrite decide_True by done.
    destruct (int_index _); reflexivity.
  - destruct (key_match c cas key) as [[]|]; [| |done]; cbn [mbind option_bind].
    + unfold lookupValue. rewrite Ecas. cbn [mbind option_bind].
      destruct (int_index _); [|done]. cbn [mbind option_bind].
      rewrite decide_False by congruence. done.
    + done.
Qed.

Lemma shared_loop_create (t : SharedCounter.HashTableGPU) key fuel h0 :
  table_wf (SharedCounter.cells t) → SharedCounter.slotLock t = 0 →
  0 ≤ SharedCounter.filled t
    < Z.of_nat (capacity (SharedCounter.cells t)) →
  SharedCounter.lookup_loop fuel t key true h0 =
    '(h, c') ← insert_loop fuel (SharedCounter.cells t) key
                 (SharedCounter.filled t) h0;
    base ← lookupValue c' h;
    Some (Some base,
          {| SharedCounter.cells := c';
             SharedCounter.filled :=
               if decide (SharedCounter.entryIdx t !! h = Some (-1))
               then SharedCounter.filled t + 1
               else SharedCounter.filled t;
             SharedCounter.slotLock := 0 |}).
Proof.
  intros Hwf Hlock Hfilled. revert h0.
  induction fuel as [|fuel IH]; intros h0; [done|].
  cbn [SharedCounter.lookup_loop insert_loop].
  rewrite shared_probe_create by done.
  destruct (probe _ _ _ _) as [[h1 c1|h1]|]; cbn [mbind option_bind];
    [|apply IH|done].
  destruct (lookupValue c1 h1); reflexivity.
Qed.

(** [lookup(key, true)] of the shared-counter table is [insert(key,
    filled)] of the later table followed by [lookupValue]; the counter is
    incremented exactly when the call claims a bucket. *)
Theorem lookup_create_is_insert (t : SharedCounter.HashTableGPU)
    (key : list Z) :
  table_wf (SharedCounter.cells t) → SharedCounter.slotLock t = 0 →
  0 ≤ SharedCounter.filled t
    < Z.of_nat (capacity (SharedCounter.cells t)) →
  SharedCounter.lookup t key true =
    '(h, c') ← insert (SharedCounter.cells t) key (SharedCounter.filled t);
    base ← lookupValue c' h;
    Some (Some base,
          {| SharedCounter.cells := c';
             SharedCounter.filled :=
               if decide (SharedCounter.entryIdx t !! h = Some (-1))
               then SharedCounter.filled t + 1
               else SharedCounter.filled t;
             SharedCounter.slotLock := 0 |}).
Proof.
  intros Hwf Hlock Hfilled. unfold SharedCounter.lookup, insert.
  case_decide; [done|]. by apply shared_loop_create.
Qed.

(** A round of [lookup(key, false)] goes where a round of [insert] goes,
    and returns [nullptr] where [insert] would claim the bucket. *)
Lemma shared_probe_find (t : SharedCounter.HashTableGPU) key nid h :
  table_wf (SharedCounter.cells t) →
  0 ≤ nid < Z.of_nat (capacity (SharedCounter.cells t)) →
  SharedCounter.probe t key false h =
    r ← probe (SharedCounter.cells t) key nid h;
    match r with
    | Advances h' => Some (SharedCounter.Advances h')
    | Returns h' _ =>
        if decide (SharedCounter.entryIdx t !! h' = Some (-1))
        then Some (SharedCounter.Returns None t)
        else base ← lookupValue (SharedCounter.cells t) h';
             Some (SharedCounter.Returns (Some base) t)
    end.
Proof.
  intros Hwf Hnid.
  unfold SharedCounter.probe, probe, SharedCounter.entryIdx.
  destruct (entry2nid (SharedCounter.cells t) !! h) as [cas|] eqn:Ecas;
    [|done].
  cbn [mbind option_bind].
  destruct (decide (cas = -2)) as [->|Hn2]; [done|].
  destruct (decide (cas = -1)) as [->|Hn1].
  - destruct (write_key_spec
                (set_entry2nid (SharedCounter.cells t)
                   (<[h := -2]> (entry2nid (SharedCounter.cells t))))
                nid key) as (c2 & Hc2 & _); [apply Hwf..|done|].
    rewrite Hc2. cbn [mbind option_bind]. rewrite decide_True by done. done.
  - destruct (key_match _ cas key) as [[]|]; [| |done];
      cbn [mbind option_bind]; [|done].
    rewrite decide_False by congruence.
    unfold lookupValue. rewrite Ecas. done.
Qed.

Lemma shared_loop_find (t : SharedCounter.HashTableGPU) key nid fuel h0 :
  table_wf (SharedCounter.cells t) →
  0 ≤ nid < Z.of_nat (capacity (SharedCounter.cells t)) →
  SharedCounter.lookup_loop fuel t key false h0 =
    '(h, _) ← insert_loop fuel (SharedCounter.cells t) key nid h0;
    if decide (SharedCounter.entryIdx t !! h = Some (-1))
    then Some (None, t)
    else base ← lookupValue (SharedCounter.cells t) h;
         Some (Some base, t).
Proof.
  intros Hwf Hnid. revert h0.
  induction fuel as [|fuel IH]; intros h0; [done|].
  cbn [SharedCounter.lookup_loop insert_loop].
  rewrite (shared_probe_find t key nid) by done.
  destruct (probe _ _ _ _) as [[h1 c1|h1]|]; cbn [mbind option_bind];
    [|apply IH|done].
  case_decide; [done|].
  destruct (lookupValue _ h1); reflexivity.
Qed.

Lemma start_bucket_lt pd key cap :
  (cap ≠ 0)%nat → (Z.to_nat (hash pd key `mod` Z.of_nat cap) < cap)%nat.
Proof.
  intros Hcap. pose proof (Z.mod_pos_bound (hash pd key) (Z.of_nat cap)). lia.
Qed.

(** [lookup(key, false)] leaves the table as it is.  It returns [nullptr]
    when its probing meets an empty bucket, and otherwise a pointer to
    the slot of a bucket whose stored key equals [key]. *)
Theorem lookup_without_create (t : SharedCounter.HashTableGPU)
    (key : list Z) (val : option Z) (t' : SharedCounter.HashTableGPU) :
  table_wf (SharedCounter.cells t) →
  SharedCounter.lookup t key false = Some (val, t') →
  let c := SharedCounter.cells t in
  t' = t ∧
  ∃ h, (h < capacity c)%nat ∧
    match val with
    | None => SharedCounter.entryIdx t !! h = Some (-1)
    | Some base =>
        ∃ slot, SharedCounter.entryIdx t !! h = Some slot ∧
          0 ≤ slot < Z.of_nat (capacity c) ∧
          base = slot * Z.of_nat (t_vd c) ∧
          ∀ i, (i < t_pd c)%nat →
            keys c !!! Z.to_nat (slot * Z.of_nat (t_pd c) + Z.of_nat i)
            = key !!! i
    end.
Proof.
  intros Hwf Hrun c. unfold SharedCounter.lookup in Hrun.
  case_decide as Hcap; [done|]. fold c in Hcap, Hrun.
  rewrite (shared_loop_find t key 0) in Hrun; [|done|fold c; lia].
  fold c in Hrun.
  destruct (insert_loop _ c key 0 _) as [[h c1]|] eqn:Hins; [|done].
  cbn [mbind option_bind] in Hrun.
  apply insert_loop_inv in Hins as [Hh Hcase];
    [|done|lia|by apply start_bucket_lt].
  case_decide as Hempty.
  - injection Hrun as <- <-. split; [done|]. by exists h.
  - destruct Hcase as [(He & _)|(cas & _ & He & Hr & Hk)]; [done|].
    unfold lookupValue in Hrun. rewrite He in Hrun.
    cbn [mbind option_bind] in Hrun.
    destruct (int_index _) as [base|] eqn:Eb; [|done].
    injection Hrun as <- <-. apply int_index_inv in Eb as [-> _].
    split; [done|]. exists h. split; [done|]. by exists cas.
Qed.

Lemma lookup_without_create_witness :
  let t := {| SharedCounter.cells :=
                {| t_pd := 1; t_vd := 2; t_N := 1; capacity := 2;
                   keys := [7; 0]; values := [0%Q; 0%Q; 0%Q; 0%Q];
                   entry2nid := [-1; 0] |};
              SharedCounter.filled := 1; SharedCounter.slotLock := 0 |} in
  let c := SharedCounter.cells t in
  t = t ∧
  ∃ h, (h < capacity c)%nat ∧
    ∃ slot, SharedCounter.entryIdx t !! h = Some slot ∧
      0 ≤ slot < Z.of_nat (capacity c) ∧
      0 = slot * Z.of_nat (t_vd c) ∧
      ∀ i, (i < t_pd c)%nat →
        keys c !!! Z.to_nat (slot * Z.of_nat (t_pd c) + Z.of_nat i)
        = [7] !!! i.
Proof.
  intros t c.
  apply (lookup_without_create t [7] (Some 0) t).
  - split; simpl; try lia.
    intros [|[|h]] e He; [injection He as <-..|done]; lia.
  - vm_compute. reflexivity.
Defined.

(** Insert and look up: after [lookup(key, true)] has returned a pointer,
    [lookup(key, false)] returns the same pointer and leaves the table as
    it is. *)
Theorem lookup_create_then_find (t : SharedCounter.HashTableGPU)
    (key : list Z) (val : option Z) (t1 : SharedCounter.HashTableGPU) :
  table_wf (SharedCounter.cells t) → SharedCounter.slotLock t = 0 →
  0 ≤ SharedCounter.filled t
    < Z.of_nat (capacity (SharedCounter.cells t)) →
  (∀ h, SharedCounter.entryIdx t !! h ≠ Some (SharedCounter.filled t)) →
  SharedCounter.lookup t key true = Some (val, t1) →
  (∃ base, val = Some base) ∧
  SharedCounter.lookup t1 key false = Some (val, t1).
Proof.
  intros Hwf Hlock Hfilled Hfresh Hrun.
  unfold SharedCounter.lookup in *. case_decide as Hcap; [done|].
  rewrite shared_loop_create in Hrun by done.
  set (c := SharedCounter.cells t) in *.
  set (h0 := Z.to_nat (hash (t_pd c) key `mod` Z.of_nat (capacity c))) in *.
  destruct (insert_loop (capacity c) c key _ h0) as [[h c1]|] eqn:Hins;
    [|done].
  cbn [mbind option_bind] in Hrun.
  destruct (lookupValue c1 h) as [base|] eqn:Hlv; [|done].
  cbn [mbind option_bind] in Hrun. injection Hrun as <- <-.
  split; [by exists base|]. cbn [SharedCounter.cells].
  pose proof (start_bucket_lt (t_pd c) key (capacity c) Hcap) as Hh0.
  fold h0 in Hh0.
  destruct (insert_loop_inv c key _ _ Hwf Hfilled h0 h c1 Hh0 Hins)
    as [Hh Hcase].
  pose proof (insert_loop_again c key _ 0 h c1 (capacity c) Hwf Hfilled
                Hfresh Hcase h0 Hh0 Hins) as Hagain.
  assert (capacity c1 = capacity c ∧ t_pd c1 = t_pd c ∧ table_wf c1 ∧
          entry2nid c1 !! h ≠ Some (-1)) as (Hcap1 & Hpd1 & Hwf1 & Hne).
  { destruct Hcase as [Hc|(cas & -> & He & Hr & _)].
    - pose proof (claims_wf _ _ _ _ _ Hwf Hfilled Hc).
      destruct Hc as (_ & (? & _ & _ & ?) & _ & -> & _).
      split_and!; try done.
      rewrite list_lookup_insert_eq by (rewrite (wf_entry2nid _ Hwf); lia).
      intros [=]. lia.
    - split_and!; try done. rewrite He. intros [=]. lia. }
  rewrite Hcap1, Hpd1. rewrite decide_False by done. fold h0.
  rewrite (shared_loop_find _ key 0);
    [|done|cbn [SharedCounter.cells]; lia].
  cbn [SharedCounter.cells]. rewrite Hagain. cbn [mbind option_bind].
  unfold SharedCounter.entryIdx. cbn [SharedCounter.cells].
  rewrite decide_False by done. rewrite Hlv. done.
Qed.

Lemma lookup_create_then_find_witness :
  ∃ val t1,
    SharedCounter.lookup (SharedCounter.HashTableGPU_new 1 2 2) [5] true
      = Some (val, t1) ∧
    (∃ base, val = Some base) ∧
    SharedCounter.lookup t1 [5] false = Some (val, t1).
Proof.
  eexists _, _. split; [vm_compute; reflexivity|].
  apply (lookup_create_then_find (SharedCounter.HashTableGPU_new 1 2 2) [5]).
  - apply HashTableGPU_new_wf; simpl; lia.
  - reflexivity.
  - simpl. lia.
  - intros h He. pose proof (proj1 (lookup_replicate _ _ _ _) He) as [? _].
    done.
  - vm_compute. reflexivity.
Defined.

(** A claim fills exactly one more bucket. *)
Lemma claims_claimed_exact t key nid h t' :
  length (entry2nid t) = capacity t → nid ≠ -1 →
  claims t key nid h t' → claimed t' = (claimed t + 1)%nat.
Proof.
  intros Hlen Hnid Hc.
  pose proof (claims_claimed _ _ _ _ _ Hc) as Hle.
  destruct Hc as (He & (_ & _ & _ & Hcap) & _ & He' & _).
  pose proof (lookup_lt_Some _ _ _ He) as Hh.
  assert (claimed t < claimed t')%nat; [|lia].
  unfold claimed. rewrite Hcap, He'.
  apply (count_range_strict _ _ _ _ h).
  - intros i Hi Hp. apply bool_decide_eq_true in Hp.
    apply bool_decide_eq_true.
    destruct (decide (i = h)) as [->|Hne].
    + by rewrite list_lookup_total_insert_eq.
    + by rewrite list_lookup_total_insert_ne.
  - lia.
  - apply bool_decide_eq_false. intros Hne. apply Hne.
    by apply list_lookup_total_correct.
  - apply bool_decide_eq_true. by rewrite list_lookup_total_insert_eq.
Qed.

Lemma counted_new pd vd N :
  Z.of_nat (N * (pd + 1)) ≤ 2147483647 →
  Z.of_nat (N * (pd + 1) * pd) ≤ 2147483647 →
  Z.of_nat (N * (pd + 1) * vd) ≤ 2147483647 →
  counted (SharedCounter.HashTableGPU_new pd vd N).
Proof.
  intros H1 H2 H3. split; cbn [SharedCounter.HashTableGPU_new
    SharedCounter.cells SharedCounter.filled SharedCounter.slotLock].
  - done.
  - by apply HashTableGPU_new_wf.
  - by rewrite HashTableGPU_new_claimed.
  - intros h s Hs. left.
    by pose proof (proj1 (lookup_replicate _ _ _ _) Hs) as [-> _].
Qed.

(** Between calls the counter is the number of claimed buckets:
    [lookup(key, true)] on a table with an empty bucket returns a pointer
    and keeps it so; [size] grows by one exactly when the key was not
    stored yet, the new slot being the old value of the counter, and
    otherwise the call returns what [lookup(key, false)] returns and
    changes nothing. *)
Theorem lookup_create_counts (t : SharedCounter.HashTableGPU)
    (key : list Z) :
  counted t →
  (claimed (SharedCounter.cells t) < capacity (SharedCounter.cells t))%nat →
  ∃ base t',
    SharedCounter.lookup t key true = Some (Some base, t') ∧
    counted t' ∧
    SharedCounter.size t' = Z.of_nat (claimed (SharedCounter.cells t')) ∧
    ((SharedCounter.lookup t key false = Some (None, t) ∧
      SharedCounter.size t' = SharedCounter.size t + 1 ∧
      base = SharedCounter.filled t
             * Z.of_nat (t_vd (SharedCounter.cells t))) ∨
     (SharedCounter.lookup t key false = Some (Some base, t) ∧ t' = t)).
Proof.
  intros [Hlock Hwf Hsize Hslots] Hroom.
  set (c := SharedCounter.cells t) in *.
  pose proof (wf_capacity_int _ Hwf) as Hint.
  assert (Hfilled : 0 ≤ SharedCounter.filled t < Z.of_nat (capacity c))
    by lia.
  assert (Hcap : capacity c ≠ 0%nat) by lia.
  destruct (insert_total c key _ Hwf Hfilled Hroom) as (probes & Hle & [r Hr]).
  destruct r as [h c1].
  apply (insert_loop_mono _ _ _ _ (capacity c)) in Hr; [|done].
  set (h0 := Z.to_nat (hash (t_pd c) key `mod` Z.of_nat (capacity c))) in *.
  pose proof (start_bucket_lt (t_pd c) key (capacity c) Hcap) as Hh0.
  fold h0 in Hh0.
  destruct (insert_loop_inv c key _ _ Hwf Hfilled h0 h c1 Hh0 Hr)
    as [Hh Hcase].
  assert (Hwrap : ∀ n : nat, Z.of_nat n ≤ 2147483647 →
            wrap64 (Z.of_nat n) = Z.of_nat n).
  { intros n Hn. unfold wrap64. apply Z.mod_small. lia. }
  unfold SharedCounter.lookup. rewrite !decide_False by done.
  fold c h0. rewrite shared_loop_create by done.
  rewrite (shared_loop_find t key (SharedCounter.filled t)) by done.
  fold c. rewrite Hr. cbn [mbind option_bind].
  destruct Hcase as [Hc|(cas & -> & He & Hrange & Hk)].
  - pose proof (claims_wf _ _ _ _ _ Hwf Hfilled Hc) as Hwf1.
    assert (Hnid : SharedCounter.filled t ≠ -1) by lia.
    pose proof (claims_claimed_exact _ _ _ _ _ (wf_entry2nid _ Hwf)
                  Hnid Hc) as Hcl.
    destruct Hc as (He & (Hpd & Hvd & _ & Hcap1) & _ & He1 & _).
    unfold SharedCounter.entryIdx. fold c. rewrite !decide_True by done.
    unfold lookupValue. rewrite He1.
    rewrite list_lookup_insert_eq by (rewrite (wf_entry2nid _ Hwf); lia).
    cbn [mbind option_bind]. rewrite Hvd.
    pose proof (wf_values_int _ Hwf).
    rewrite int_index_Some by (unfold int_range; nia).
    cbn [mbind option_bind]. eexists _, _. split; [done|].
    assert (Hcounted : counted
      {| SharedCounter.cells := c1;
         SharedCounter.filled := SharedCounter.filled t + 1;
         SharedCounter.slotLock := 0 |}).
    { split; cbn [SharedCounter.cells SharedCounter.filled
                  SharedCounter.slotLock]; [done|done|lia|].
      unfold SharedCounter.entryIdx. cbn [SharedCounter.cells].
      intros h1 s Hs. rewrite He1, list_lookup_insert in Hs.
      case_decide.
      - injection Hs as <-. right. lia.
      - destruct (Hslots h1 s Hs) as [?|?]; [by left|right; lia]. }
    split; [done|]. unfold SharedCounter.size.
    cbn [SharedCounter.cells SharedCounter.filled].
    pose proof (count_range_le
                  (λ h, bool_decide (entry2nid c1 !!! h ≠ -1)) 0 (capacity c1))
      as Hb. fold (claimed c1) in Hb.
    split; [rewrite Hsize, Hcl; rewrite <- (Hwrap (claimed c + 1)%nat); [f_equal|]; lia|].
    left. split; [done|]. split; [|done].
    rewrite Hsize. rewrite (Hwrap (claimed c)) by lia.
    replace (Z.of_nat (claimed c) + 1) with (Z.of_nat (claimed c + 1)) by lia.
    apply Hwrap. lia.
  - unfold SharedCounter.entryIdx. fold c.
    rewrite !decide_False by (rewrite He; intros [=]; lia).
    unfold lookupValue. rewrite He. cbn [mbind option_bind].
    pose proof (wf_values_int _ Hwf).
    rewrite int_index_Some by (unfold int_range; nia).
    cbn [mbind option_bind].
    assert ({| SharedCounter.cells := c;
               SharedCounter.filled := SharedCounter.filled t;
               SharedCounter.slotLock := 0 |} = t) as ->.
    { destruct t. simpl in *. by subst. }
    eexists _, _. split; [done|]. split; [done|].
    split; [|by right].
    unfold SharedCounter.size. rewrite Hsize. apply Hwrap. fold c. lia.
Qed.

Lemma lookup_create_counts_witness :
  let t := SharedCounter.HashTableGPU_new 1 2 2 in
  ∃ base t',
    SharedCounter.lookup t [5] true = Some (Some base, t') ∧
    counted t' ∧
    SharedCounter.size t' = Z.of_nat (claimed (SharedCounter.cells t')) ∧
    ((SharedCounter.lookup t [5] false = Some (None, t) ∧
      SharedCounter.size t' = SharedCounter.size t + 1 ∧
      base = SharedCounter.filled t
             * Z.of_nat (t_vd (SharedCounter.cells t))) ∨
     (SharedCounter.lookup t [5] false = Some (Some base, t) ∧ t' = t)).
Proof.
  intros t. apply (lookup_create_counts t [5]).
  - apply counted_new; simpl; lia.
  - unfold t. cbn [SharedCounter.HashTableGPU_new SharedCounter.cells].
    rewrite HashTableGPU_new_claimed. simpl. lia.
Defined.

Lemma lookup_create_is_insert_witness :
  let t := SharedCounter.HashTableGPU_new 1 2 2 in
  SharedCounter.lookup t [5] true =
    '(h, c') ← insert (SharedCounter.cells t) [5] (SharedCounter.filled t);
    base ← lookupValue c' h;
    Some (Some base,
          {| SharedCounter.cells := c';
             SharedCounter.filled :=
               if decide (SharedCounter.entryIdx t !! h = Some (-1))
               then SharedCounter.filled t + 1
               else SharedCounter.filled t;
             SharedCounter.slotLock := 0 |}).
Proof.
  intros t. apply (lookup_create_is_insert t [5]).
  - apply HashTableGPU_new_wf; simpl; lia.
  - reflexivity.
  - simpl. lia.
Defined.

(** The corner loop of the shared-counter [splat_kernel]: on a table with
    an empty bucket the pointer returned by [lookup(key, true)] is never
    null, the atomic adds stay inside [values], the counter still counts
    the claimed buckets, and the cells of [values] grow by the weight
    times the feature. *)
Theorem shared_splat_corner (canonical : list Z) (value : list Q)
    (g : simplex) (r : nat) (key0 : list Z) (t : SharedCounter.HashTableGPU) :
  let c := SharedCounter.cells t in
  let pd := t_pd c in
  counted t → (claimed c < capacity c)%nat →
  Z.of_nat pd ≤ 32767 → length canonical = ((pd + 1) * (pd + 1))%nat →
  (r ≤ pd)%nat →
  (∀ k, (k ≤ pd)%nat → 0 ≤ s_rank g !!! k ≤ Z.of_nat pd) →
  ∃ key t',
    SharedCounter.splat_corner canonical value g r (key0, t)
      = Some (key, t') ∧
    counted t' ∧
    (sumQ (values (SharedCounter.cells t'))
     == sumQ (values c)
        + s_bary g !!! r * sum_range (λ j, value !!! j) 0 (t_vd c))%Q.
Proof.
  intros c pd Hcnt Hroom Hmax Hcan Hr Hrank.
  unfold SharedCounter.splat_corner. fold c pd.
  destruct (corner_key_total pd canonical (s_y g) (s_rank g) r key0)
    as [key Hkey]; [done..|].
  rewrite Hkey. cbn [mbind option_bind].
  pose proof Hcnt as [Hlock Hwf Hsize Hslots]. fold c in Hwf, Hsize.
  pose proof (wf_capacity_int _ Hwf) as Hint.
  assert (Hfilled : 0 ≤ SharedCounter.filled t < Z.of_nat (capacity c))
    by lia.
  assert (Hcap : capacity c ≠ 0%nat) by lia.
  destruct (insert_total c key _ Hwf Hfilled Hroom) as (probes & Hle & [x Hx]).
  destruct x as [h c1].
  apply (insert_loop_mono _ _ _ _ (capacity c)) in Hx; [|done].
  pose proof (start_bucket_lt (t_pd c) key (capacity c) Hcap) as Hh0.
  destruct (insert_loop_inv c key _ _ Hwf Hfilled _ h c1 Hh0 Hx)
    as [Hh Hcase].
  unfold SharedCounter.lookup. rewrite decide_False by done.
  fold c. rewrite shared_loop_create by done. fold c.
  rewrite Hx. cbn [mbind option_bind].
  assert (∃ s, entry2nid c1 !! h = Some s ∧ 0 ≤ s < Z.of_nat (capacity c) ∧
               table_wf c1 ∧ same_dims c c1 ∧ values c1 = values c ∧
               counted {| SharedCounter.cells := c1;
                          SharedCounter.filled :=
                            if decide (SharedCounter.entryIdx t !! h
                                       = Some (-1))
                            then SharedCounter.filled t + 1
                            else SharedCounter.filled t;
                          SharedCounter.slotLock := 0 |})
    as (s & Hs & Hsr & Hwf1 & Hdims & Hv1 & Hcnt1).
  { unfold SharedCounter.entryIdx. fold c.
    destruct Hcase as [Hc|(cas & -> & He & Hrange & Hk)].
    - pose proof (claims_wf _ _ _ _ _ Hwf Hfilled Hc) as Hwf1.
      assert (Hnid : SharedCounter.filled t ≠ -1) by lia.
      pose proof (claims_claimed_exact _ _ _ _ _ (wf_entry2nid _ Hwf)
                    Hnid Hc) as Hcl.
      destruct Hc as (He & Hd & Hv & He1 & _).
      exists (SharedCounter.filled t). rewrite decide_True by done.
      split_and!; try done; try lia.
      + rewrite He1.
        apply list_lookup_insert_eq. rewrite (wf_entry2nid _ Hwf). lia.
      + split; cbn [SharedCounter.cells SharedCounter.filled
                    SharedCounter.slotLock]; [done|done|lia|].
        unfold SharedCounter.entryIdx. cbn [SharedCounter.cells].
        intros h1 s Hs. rewrite He1, list_lookup_insert in Hs.
        case_decide.
        * injection Hs as <-. right. lia.
        * destruct (Hslots h1 s Hs) as [?|?]; [by left|right; lia].
    - exists cas. rewrite decide_False by (rewrite He; intros [=]; lia).
      assert ({| SharedCounter.cells := c;
                 SharedCounter.filled := SharedCounter.filled t;
                 SharedCounter.slotLock := 0 |} = t) as ->.
      { destruct t. simpl in *. by subst. }
      split_and!; try done; lia. }
  destruct Hdims as (Hpd1 & Hvd1 & _ & Hcap1).
  pose proof (wf_values_int _ Hwf) as Hvi.
  pose proof (wf_values _ Hwf1) as Hvl.
  unfold lookupValue. rewrite Hs. cbn [mbind option_bind].
  rewrite Hvd1, int_index_Some by (unfold int_range; nia).
  cbn [mbind option_bind SharedCounter.cells].
  destruct (accumulate_total c1 (s * Z.of_nat (t_vd c)) (s_bary g !!! r) value)
    as [c2 Hc2]; [nia|rewrite Hvl, Hvd1, Hcap1; nia|].
  rewrite Hc2. cbn [mbind option_bind]. eexists _, _. split; [done|].
  pose proof (accumulate_sum _ _ _ _ _ Hc2) as Hsum.
  apply accumulate_spec in Hc2 as ((Hpd2 & Hvd2 & HN2 & Hcap2) & Hk2 & He2
                                   & Hl2 & _).
  split.
  - destruct Hcnt1 as [L1 W1 S1 SL1].
    cbn [SharedCounter.cells SharedCounter.filled SharedCounter.slotLock
         SharedCounter.set_cells] in *.
    split; cbn [SharedCounter.cells SharedCounter.filled
                SharedCounter.slotLock SharedCounter.set_cells].
    + done.
    + destruct W1 as [H1 H2 H3 H4 H5 H6 H7].
      split; rewrite ?Hpd2, ?Hvd2, ?Hcap2, ?Hk2, ?He2, ?Hl2; done.
    + rewrite S1. f_equal. unfold claimed. by rewrite Hcap2, He2.
    + unfold SharedCounter.entryIdx in *.
      cbn [SharedCounter.cells SharedCounter.set_cells] in *.
      intros h1 s1 Hs1.
      rewrite He2 in Hs1. by apply (SL1 h1).
  - cbn [SharedCounter.cells SharedCounter.set_cells].
    rewrite Hsum, Hv1, Hvd1. reflexivity.
Qed.

Lemma shared_splat_corner_witness :
  let t := SharedCounter.HashTableGPU_new 1 1 1 in
  let g := {| s_elevated := [0%Q; 0%Q]; s_y := [0; 0]; s_rank := [0; 1];
              s_bary := [1%Q; 0%Q; 0%Q] |} in
  ∃ key t',
    SharedCounter.splat_corner (canonical_table 1) [5%Q] g 0 ([0], t)
      = Some (key, t') ∧
    counted t' ∧
    (sumQ (values (SharedCounter.cells t'))
     == sumQ (values (SharedCounter.cells t))
        + s_bary g !!! 0%nat
          * sum_range (λ j, [5%Q] !!! j) 0
              (t_vd (SharedCounter.cells t)))%Q.
Proof.
  intros t g.
  apply (shared_splat_corner (canonical_table 1) [5%Q] g 0 [0] t).
  - apply counted_new; simpl; lia.
  - unfold t. cbn [SharedCounter.HashTableGPU_new SharedCounter.cells].
    rewrite HashTableGPU_new_claimed. simpl. lia.
  - simpl. lia.
  - reflexivity.
  - simpl. lia.
  - intros [|[|k]] Hk; simpl in *; try lia; vm_compute; split; discriminate.
Defined.

(** ** The corrected point lies on the lattice *)

Lemma rank_correct_pointwise pd h y rank :
  length y = (pd + 1)%nat → length rank = (pd + 1)%nat →
  length (rank_correct pd h (y, rank)).1 = (pd + 1)%nat ∧
  length (rank_correct pd h (y, rank)).2 = (pd + 1)%nat ∧
  ∀ k, (k ≤ pd)%nat →
    (rank_correct pd h (y, rank)).1 !!! k
      = corrected_y pd h (y !!! k) (rank !!! k) ∧
    (rank_correct pd h (y, rank)).2 !!! k
      = corrected_rank pd h (rank !!! k).
Proof.
  intros Hy Hr.
  pose (P := λ (m : nat) (yr : list Z * list Z),
    length yr.1 = (pd + 1)%nat ∧ length yr.2 = (pd + 1)%nat ∧
    (∀ k, (k < m)%nat →
       yr.1 !!! k = corrected_y pd h (y !!! k) (rank !!! k) ∧
       yr.2 !!! k = corrected_rank pd h (rank !!! k)) ∧
    (∀ k, (m ≤ k ≤ pd)%nat → yr.1 !!! k = y !!! k ∧ yr.2 !!! k = rank !!! k)).
  assert (HP0 : P 0%nat (y, rank)).
  { unfold P. simpl. split_and!; try done. intros; lia. }
  assert (Hfin : ∀ yr, P (pd + 1)%nat yr →
    length yr.1 = (pd + 1)%nat ∧ length yr.2 = (pd + 1)%nat ∧
    ∀ k, (k ≤ pd)%nat →
      yr.1 !!! k = corrected_y pd h (y !!! k) (rank !!! k) ∧
      yr.2 !!! k = corrected_rank pd h (rank !!! k)).
  { intros yr (H1 & H2 & H3 & _). split_and!; try done.
    intros k Hk. apply H3. lia. }
  unfold rank_correct. cbn zeta.
  destruct (decide (h > 0)) as [Hpos|Hnpos];
    [|destruct (decide (h < 0)) as [Hneg|Hnneg]].
  - apply Hfin, for_range_ind; [done|].
    intros m [y1 r1] Hm (H1 & H2 & H3 & H4). simpl in *.
    destruct (H4 m ltac:(lia)) as [Hym Hrm].
    case_decide as Hc; unfold P; simpl; rewrite ?length_insert;
      (split_and!; try done; intros k Hk;
       [destruct (decide (k = m)) as [->|];
        [rewrite ?list_lookup_total_insert_eq by lia;
         unfold corrected_y, corrected_rank; cbn zeta;
         rewrite !(decide_True (P := h > 0)) by done;
         rewrite <- Hrm, <- Hym;
         first [rewrite !decide_True by done|rewrite !decide_False by done];
         done
        |rewrite ?list_lookup_total_insert_ne by done; apply H3; lia]
       |rewrite ?list_lookup_total_insert_ne by lia; apply H4; lia]).
  - apply Hfin, for_range_ind; [done|].
    intros m [y1 r1] Hm (H1 & H2 & H3 & H4). simpl in *.
    destruct (H4 m ltac:(lia)) as [Hym Hrm].
    case_decide as Hc; unfold P; simpl; rewrite ?length_insert;
      (split_and!; try done; intros k Hk;
       [destruct (decide (k = m)) as [->|];
        [rewrite ?list_lookup_total_insert_eq by lia;
         unfold corrected_y, corrected_rank; cbn zeta;
         rewrite !(decide_False (P := h > 0)) by done;
         rewrite !(decide_True (P := h < 0)) by done;
         rewrite <- Hrm, <- Hym;
         first [rewrite !decide_True by done|rewrite !decide_False by done];
         done
        |rewrite ?list_lookup_total_insert_ne by done; apply H3; lia]
       |rewrite ?list_lookup_total_insert_ne by lia; apply H4; lia]).
  - simpl. split_and!; try done. intros k Hk.
    unfold corrected_y, corrected_rank. cbn zeta.
    rewrite !(decide_False (P := h > 0)), !(decide_False (P := h < 0)) by done.
    done.
Qed.

Lemma corrected_rank_mod pd h r :
  Z.of_nat pd ≤ 32767 → 0 ≤ r ≤ Z.of_nat pd →
  - (Z.of_nat pd + 1) < h < Z.of_nat pd + 1 →
  corrected_rank pd h r = (r + h) `mod` (Z.of_nat pd + 1).
Proof.
  intros Hpd Hr Hh. unfold corrected_rank. cbn zeta.
  repeat case_decide.
  - rewrite wrap16_id by (unfold int16_range; lia).
    apply (Z.mod_unique_pos _ _ 1); lia.
  - rewrite wrap16_id by (unfold int16_range; lia).
    symmetry. apply Z.mod_small. lia.
  - rewrite wrap16_id by (unfold int16_range; lia).
    apply (Z.mod_unique _ _ (-1)); lia.
  - rewrite wrap16_id by (unfold int16_range; lia).
    symmetry. apply Z.mod_small. lia.
  - assert (h = 0) as -> by lia. rewrite Z.add_0_r.
    symmetry. apply Z.mod_small. lia.
Qed.

Lemma corrected_y_shift pd h y r :
  int16_range (y - (Z.of_nat pd + 1)) → int16_range (y + (Z.of_nat pd + 1)) →
  corrected_y pd h y r = y + shift pd h r.
Proof.
  intros H1 H2. unfold corrected_y, shift. cbn zeta.
  repeat case_decide; rewrite ?wrap16_id by done; lia.
Qed.

Lemma sumZ_fmap_add {A} (f g : A → Z) (l : list A) :
  sumZ ((λ k, f k + g k) <$> l) = sumZ (f <$> l) + sumZ (g <$> l).
Proof.
  induction l as [|x l IH]; [done|].
  rewrite !fmap_cons, !sumZ_cons, IH. lia.
Qed.

Lemma sumZ_fmap_seq (f : nat → Z) lo n :
  sumZ (f <$> seq lo n) = sumZ_range f lo n.
Proof.
  induction n as [|n IH]; [done|].
  rewrite seq_S, fmap_app, sumZ_app, IH. unfold sumZ. simpl. lia.
Qed.

(** The shifts of all ranks add up to [- h] steps of the lattice. *)
Lemma sum_shift pd h :
  - (Z.of_nat pd + 1) ≤ h ≤ Z.of_nat pd + 1 →
  sumZ_range (λ r, shift pd h (Z.of_nat r)) 0 (pd + 1)
  = - (Z.of_nat pd + 1) * h.
Proof.
  intros Hh.
  assert (∀ n, (n ≤ pd + 1)%nat →
    sumZ_range (λ r, shift pd h (Z.of_nat r)) 0 n =
    if decide (h > 0)
    then - (Z.of_nat pd + 1) * Z.max 0 (Z.of_nat n - (Z.of_nat pd + 1 - h))
    else if decide (h < 0) then (Z.of_nat pd + 1) * Z.min (Z.of_nat n) (- h)
    else 0) as Hgen.
  { induction n as [|n IH]; intros Hn.
    - simpl. repeat case_decide; lia.
    - cbn [sumZ_range]. rewrite IH by lia. rewrite Nat.add_0_l.
      unfold shift. cbn zeta.
      repeat case_decide; nia. }
  rewrite Hgen by lia. repeat case_decide; nia.
Qed.

(** Adding [h] modulo [pd + 1] permutes the ranks. *)
Lemma rotate_Permutation pd h :
  (λ r, Z.to_nat ((Z.of_nat r + h) `mod` (Z.of_nat pd + 1)))
    <$> seq 0 (pd + 1) ≡ₚ seq 0 (pd + 1).
Proof.
  set (d := Z.of_nat pd + 1).
  apply NoDup_Permutation_bis.
  - apply NoDup_ListNoDup, NoDup_fmap_2_strong; [|apply NoDup_seq].
    intros k l Hk%elem_of_seq Hl%elem_of_seq Heq.
    pose proof (Z.mod_pos_bound (Z.of_nat k + h) d ltac:(lia)).
    pose proof (Z.mod_pos_bound (Z.of_nat l + h) d ltac:(lia)).
    assert (Hm : (Z.of_nat k + h) `mod` d = (Z.of_nat l + h) `mod` d) by lia.
    pose proof (Z.div_mod (Z.of_nat k + h) d ltac:(lia)) as E1.
    pose proof (Z.div_mod (Z.of_nat l + h) d ltac:(lia)) as E2.
    rewrite Hm in E1.
    assert ((Z.of_nat k + h) `div` d = (Z.of_nat l + h) `div` d) by nia.
    lia.
  - by rewrite length_fmap.
  - intros x Hx%list_elem_of_In. apply list_elem_of_fmap in Hx as (k & -> & Hk).
    apply in_seq.
    pose proof (Z.mod_pos_bound (Z.of_nat k + h) d ltac:(lia)). lia.
Qed.

(** The rounding loop without overflow: the cells of [y] are the rounded
    coordinates times [pd + 1], and [h] is their sum. *)
Lemma round_axes_exact pd sf pos e st :
  (1 ≤ pd)%nat → Z.of_nat pd ≤ 32767 → length sf = pd → length pos = pd →
  elevate pd sf pos (replicate (pd + 1) 0%Q) = Some e →
  round_axes pd e (rounded_init pd) = Some st →
  lattice_fits pd e →
  let d := Z.of_nat pd + 1 in
  let H := sumZ_range (rounded_coord pd e) 0 (pd + 1) in
  length (r_y st) = (pd + 1)%nat ∧ length (r_rank st) = (pd + 1)%nat ∧
  (∀ i, (i ≤ pd)%nat → r_y st !!! i = rounded_coord pd e i * d) ∧
  (∀ i, (i ≤ pd)%nat → r_rank st !!! i = 0) ∧
  r_h st = H ∧ - d ≤ 2 * H ≤ d.
Proof.
  intros Hpd Hmax Hsf Hpos He Hst [Hfit Hsum] d H.
  destruct (elevate_spec pd sf pos (replicate (pd + 1) 0%Q))
    as (e' & He' & Hle & Hes); [done|done|done|by rewrite length_replicate|].
  rewrite He in He'. injection He' as <-.
  destruct (round_axes_spec pd e (rounded_init pd) st)
    as (_ & Hly & Hlr & _ & Hyr & _ & Hh);
    [by simpl; rewrite length_replicate..|done|done|].
  assert (Hbound : - d ≤ 2 * H ≤ d).
  { apply rounded_sum_bound.
    rewrite (sum_range_ext _ (elevated_spec pd sf pos))
      by (intros; apply Hes; lia).
    by apply elevated_spec_sum. }
  split_and!; try done; try lia.
  - intros i Hi. destruct (Hyr i Hi) as [-> _].
    destruct (Hfit i Hi) as [F1 F2]. fold d in F1, F2.
    apply wrap16_id. unfold int16_range in *. nia.
  - intros i Hi. by apply Hyr.
  - rewrite Hh, sumZ_range_scale. fold H d. fold d in Hsum. fold H in Hsum.
    rewrite (wrap16_id (H * d)) by done.
    rewrite Z.quot_mul by lia.
    apply wrap16_id. unfold int16_range in *. nia.
Qed.


